(** * noveldownloader.js: the download / aggregation pipeline

    A shallow embedding of the core of [src/noveldownloader.js]
    (content fetch and normalisation, the sequential download loop with
    cancellation, the progress tracker, the report writer and the report
    parser, the retry from a report file, and the crawler with its
    dialogs), followed by the properties established about it. *)

From Stdlib Require Import ZArith NArith Lia Bool.
From Stdlib Require Import Floats.
From stdpp Require Import strings list gmap.

Local Open Scope N_scope.

(** ** JavaScript strings

    A JavaScript string is a sequence of UTF-16 code units; a code unit is
    kept as its number.  Literals of the source are written with [lit]. *)

Module JsString.

Definition jsstring : Type := list N.

Definition lit (s : string) : jsstring :=
  (fun a => Ascii.N_of_ascii a) <$> String.list_ascii_of_string s.

Definition LF : N := 10.
Definition DQUOTE : N := 34.

(** White space as [String.prototype.trim] and the regular-expression class
    [\s] define it: the WhiteSpace and LineTerminator code points. *)
Definition is_space (c : N) : bool :=
  (c =? 9) || (c =? 10) || (c =? 11) || (c =? 12) || (c =? 13) || (c =? 32)
  || (c =? 160) || (c =? 5760) || ((8192 <=? c) && (c <=? 8202))
  || (c =? 8232) || (c =? 8233) || (c =? 8239) || (c =? 8287)
  || (c =? 12288) || (c =? 65279).

Definition not_space (c : N) : bool := negb (is_space c).

(** [s.startsWith(p)] *)
Fixpoint starts_with (p s : jsstring) : bool :=
  match p, s with
  | [], _ => true
  | _ :: _, [] => false
  | a :: p', b :: s' => (a =? b) && starts_with p' s'
  end.

Fixpoint drop_spaces (s : jsstring) : jsstring :=
  match s with
  | [] => []
  | c :: s' => if is_space c then drop_spaces s' else s
  end.

(** [s.trim()] *)
Definition trim (s : jsstring) : jsstring :=
  reverse (drop_spaces (reverse (drop_spaces s))).

(** [s.split(sep)] for a non-empty separator: [skip] counts the code units
    of a separator occurrence still to be passed over. *)
Fixpoint split_go (sep : jsstring) (skip : nat) (s : jsstring)
  : list jsstring :=
  match s with
  | [] => [[]]
  | c :: s' =>
      match skip with
      | S k => split_go sep k s'
      | O =>
          if starts_with sep s
          then [] :: split_go sep (length sep - 1) s'
          else match split_go sep 0 s' with
               | l :: ls => (c :: l) :: ls
               | [] => [[c]]
               end
      end
  end.

Definition split (sep s : jsstring) : list jsstring := split_go sep 0 s.

(** [parts.join(sep)] *)
Fixpoint join (sep : jsstring) (parts : list jsstring) : jsstring :=
  match parts with
  | [] => []
  | [p] => p
  | p :: ps => p ++ sep ++ join sep ps
  end.

(** Decimal rendering of a non-negative integer, as template literals and
    string concatenation produce it. *)
Fixpoint digits_go (fuel : nat) (n : N) (acc : jsstring) : jsstring :=
  match fuel with
  | O => acc
  | S f =>
      let acc' := (48 + n mod 10) :: acc in
      if n / 10 =? 0 then acc' else digits_go f (n / 10) acc'
  end.

Definition of_N (n : N) : jsstring := digits_go (S (N.to_nat (N.log2 n))) n [].

Definition of_Z (z : Z) : jsstring :=
  if (z <? 0)%Z then 45 :: of_N (Z.to_N (- z)) else of_N (Z.to_N z).

End JsString.
Export JsString.

(** ** Regular expressions

    The patterns of the source are sequences of single-character atoms,
    greedy repetitions of a character class and one capture group; the
    matcher below is the backtracking matcher of the language restricted
    to them. *)

Module Regex.

Inductive atom : Type :=
| Lit (c : N)              (* a literal code unit *)
| LitI (c : N)             (* a literal ASCII letter under the [i] flag *)
| Cls (p : N -> bool)      (* a character class *)
| Opt (p : N -> bool)      (* [class?], greedy *)
| Rep (p : N -> bool) (min : nat)  (* [class{min,}], greedy *)
| GOpen                    (* opening parenthesis of capture group 1 *)
| GClose.                  (* its closing parenthesis *)

Definition regex : Type := list atom.

(** Positions of the end of the match and of capture group 1. *)
Record mres : Type := MRes {
  m_end : nat;
  g_start : option nat;
  g_end : option nat
}.

(** Canonicalisation of the [i] flag (without [u]) on ASCII letters: a
    code unit above 127 never canonicalises to an ASCII one. *)
Definition upper (c : N) : N :=
  if (97 <=? c) && (c <=? 122) then c - 32 else c.

(** Greedy repetition with backtracking: take as many code units of the
    class as possible, then give back one at a time until the rest of the
    pattern, [k], matches. *)
Fixpoint rep_greedy (p : N -> bool) (min : nat)
    (k : jsstring -> nat -> option mres)
    (s : jsstring) (pos cnt : nat) : option mres :=
  match s with
  | c :: s' =>
      if p c then
        match rep_greedy p min k s' (S pos) (S cnt) with
        | Some r => Some r
        | None => if (min <=? cnt)%nat then k s pos else None
        end
      else if (min <=? cnt)%nat then k s pos else None
  | [] => if (min <=? cnt)%nat then k [] pos else None
  end.

(** Match the pattern at the head of [s], which is at offset [pos]. *)
Fixpoint match_here (re : regex) (s : jsstring) (pos : nat)
    (gs ge : option nat) : option mres :=
  match re with
  | [] => Some (MRes pos gs ge)
  | a :: re' =>
      match a with
      | Lit c =>
          match s with
          | x :: s' => if x =? c then match_here re' s' (S pos) gs ge else None
          | [] => None
          end
      | LitI c =>
          match s with
          | x :: s' =>
              if upper x =? upper c then match_here re' s' (S pos) gs ge
              else None
          | [] => None
          end
      | Cls p =>
          match s with
          | x :: s' => if p x then match_here re' s' (S pos) gs ge else None
          | [] => None
          end
      | Opt p =>
          match s with
          | x :: s' =>
              if p x then
                match match_here re' s' (S pos) gs ge with
                | Some r => Some r
                | None => match_here re' s pos gs ge
                end
              else match_here re' s pos gs ge
          | [] => match_here re' s pos gs ge
          end
      | Rep p min =>
          rep_greedy p min (fun s' pos' => match_here re' s' pos' gs ge)
                     s pos 0
      | GOpen => match_here re' s pos (Some pos) ge
      | GClose => match_here re' s pos gs (Some pos)
      end
  end.

(** The match starting exactly at the head of [s]: its length. *)
Definition match_len (re : regex) (s : jsstring) : option nat :=
  m_end <$> match_here re s 0 None None.

(** [s.replace(/re/g, rep)]: leftmost matches, not overlapping.  [skip]
    counts the code units of the current match still to be dropped. *)
Fixpoint replace_go (re : regex) (rep : jsstring) (skip : nat)
    (s : jsstring) : jsstring :=
  match s with
  | [] =>
      match skip with
      | S _ => []
      | O => match match_len re [] with Some _ => rep | None => [] end
      end
  | c :: s' =>
      match skip with
      | S k => replace_go re rep k s'
      | O =>
          match match_len re s with
          | Some O => rep ++ c :: replace_go re rep 0 s'
          | Some (S n) => rep ++ replace_go re rep n s'
          | None => c :: replace_go re rep 0 s'
          end
      end
  end.

Definition replace_all (re : regex) (rep s : jsstring) : jsstring :=
  replace_go re rep 0 s.

(** [s.match(/re/)] without the [g] flag: the leftmost match; the result
    is the text of capture group 1, [match[1]]. *)
Fixpoint search_go (re : regex) (whole : jsstring) (s : jsstring)
    (pos : nat) : option (option jsstring) :=
  match match_here re s pos None None with
  | Some r =>
      Some (match g_start r, g_end r with
            | Some a, Some b => Some (take (b - a) (drop a whole))
            | _, _ => None
            end)
  | None =>
      match s with
      | [] => None
      | _ :: s' => search_go re whole s' (S pos)
      end
  end.

Definition match_group1 (re : regex) (s : jsstring)
  : option (option jsstring) :=
  search_go re s s 0.

(** A literal as a pattern. *)
Definition lits (s : jsstring) : regex := Lit <$> s.

End Regex.
Export Regex.

(** ** Content normalisation: [unescapeHTML], [cleanText], [sanitizeFilename] *)

Module Content.

(** The [entities] table of [unescapeHTML], in insertion order. *)
Definition entities : list (jsstring * jsstring) :=
  [ (lit "&lt;", lit "<");
    (lit "&gt;", lit ">");
    (lit "&amp;", lit "&");
    (lit "&quot;", [DQUOTE]);
    (lit "&apos;", lit "'");
    (lit "&nbsp;", lit " ");
    (lit "&ndash;", lit "-");
    (lit "&mdash;", lit "--");
    (lit "&lsquo;", lit "'");
    (lit "&rsquo;", lit "'");
    (lit "&ldquo;", [DQUOTE]);
    (lit "&rdquo;", [DQUOTE]) ].

Definition unescapeHTML (text : jsstring) : jsstring :=
  foldl (fun result '(entity, replacement) =>
           replace_all (lits entity) replacement result)
        text entities.

Definition is_gt (c : N) : bool := c =? 62.
Definition not_gt (c : N) : bool := negb (is_gt c).
Definition is_slash (c : N) : bool := c =? 47.
Definition is_blank (c : N) : bool := c =? 32.
Definition is_lf (c : N) : bool := c =? LF.

(** [/<br\s*[/]?>/] *)
Definition re_br : regex :=
  lits (lit "<br") ++ [Rep is_space 0; Opt is_slash; Lit 62].
(** [/<img[^>]*>/i] *)
Definition re_img : regex :=
  [Lit 60; LitI 105; LitI 109; LitI 103; Rep not_gt 0; Lit 62].
(** [/<[^>]*>/] *)
Definition re_tag : regex := [Lit 60; Rep not_gt 0; Lit 62].
(** [/ {2,}/] *)
Definition re_spaces : regex := [Rep is_blank 2].
(** [/\n{3,}/] *)
Definition re_newlines : regex := [Rep is_lf 3].

Definition image_placeholder : jsstring := lit "[Image Skipped]".

Definition cleanText (text : jsstring) : jsstring :=
  let cleaned := text in
  let cleaned := replace_all (lits (lit "<div>")) [] cleaned in
  let cleaned := replace_all (lits (lit "</div>")) [] cleaned in
  let cleaned := replace_all (lits (lit "<p>")) [LF] cleaned in
  let cleaned := replace_all (lits (lit "</p>")) [LF] cleaned in
  let cleaned := replace_all re_br [LF] cleaned in
  let cleaned := replace_all re_img image_placeholder cleaned in
  let cleaned := replace_all re_tag [] cleaned in
  let cleaned := replace_all re_spaces (lit " ") cleaned in
  let cleaned := unescapeHTML cleaned in
  replace_all re_newlines [LF; LF]
    (join [LF; LF]
       (filter (fun line => (0 <? length line)%nat)
          (trim <$> split [LF] cleaned))).

(** The character class of [sanitizeFilename]: slash, backslash, question
    mark, percent, asterisk, colon, bar, double quote, less-than and
    greater-than. *)
Definition is_invalid_filename_char (c : N) : bool :=
  (c =? 47) || (c =? 92) || (c =? 63) || (c =? 37) || (c =? 42)
  || (c =? 58) || (c =? 124) || (c =? DQUOTE) || (c =? 60) || (c =? 62).

Definition sanitizeFilename (name : jsstring) : jsstring :=
  replace_all [Cls is_invalid_filename_char] (lit "_") name.

End Content.
Export Content.

(** ** The report: writer (in [processDownloadCore]) and [parseReportFile] *)

Module Report.

Record chapter : Type := Chapter { url : jsstring; reason : jsstring }.

Definition report_line (item : chapter) : jsstring :=
  lit "URL: " ++ url item ++ lit " (Reason: " ++ reason item ++ lit ")".

(** The text built in [reportContent]. *)
Definition reportContent (skippedChapters incompleteChapters : list chapter)
  : jsstring :=
  let reportContent := lit "--- Skipped Chapters (CAPTCHA / 403) ---" ++ [LF] in
  let reportContent :=
    if (0 <? length skippedChapters)%nat
    then reportContent ++ join [LF] (report_line <$> skippedChapters) ++ [LF]
    else reportContent ++ lit "No chapters skipped due to CAPTCHA." ++ [LF] in
  let reportContent :=
    reportContent ++ [LF] ++ lit "--- Incomplete/Failed Chapters ---" ++ [LF] in
  if (0 <? length incompleteChapters)%nat
  then reportContent ++ join [LF] (report_line <$> incompleteChapters) ++ [LF]
  else reportContent ++ lit "No chapters incomplete or failed." ++ [LF].

(** [/URL: (https?:\/\/[^\s]+)/] *)
Definition re_url : regex :=
  lits (lit "URL: ") ++ [GOpen] ++ lits (lit "http") ++ [Opt (N.eqb 115)]
  ++ lits (lit "://") ++ [Rep not_space 1; GClose].

(** One turn of the loop of [parseReportFile]: the URL the line
    contributes, if any.  An empty capture is falsy. *)
Definition parse_line (line : jsstring) : option jsstring :=
  match match_group1 re_url line with
  | Some (Some u) => if (0 <? length u)%nat then Some u else None
  | _ => None
  end.

Definition parseReportFile (fileContent : jsstring) : list jsstring :=
  omap parse_line (split [LF] fileContent).

End Report.
Export Report.

(** ** The fetch classifier: [fetchNovelContent] *)

Module Fetch.

(** The part of the DOM the function reads.  An element is seen through
    [getAttribute("title")] ([None] is [null]), [textContent] and
    [innerHTML]; a parsed document through [querySelector]. *)
Record Element : Type := {
  attr_title : option jsstring;
  textContent : jsstring;
  innerHTML : jsstring
}.

Record Document : Type := {
  querySelector : jsstring -> option Element
}.

(** What the network answers to [fetch(url)]: the promise rejects with an
    error, or resolves to a response whose body either fails to be read
    ([response.text()] rejects) or is read and parsed into a document. *)
Inductive Body : Type :=
| BodyError (message : jsstring)
| BodyDoc (doc : Document).

Inductive NetReply : Type :=
| NetError (message : jsstring)
| NetResponse (status : Z) (body : Body).

(** [response.ok] *)
Definition response_ok (status : Z) : bool :=
  ((200 <=? status) && (status <=? 299))%Z.

(** The object [fetchNovelContent] resolves to, by its [status] field. *)
Inductive FetchResult : Type :=
| success (episodeTitle content : jsstring)
| captcha (url : jsstring)
| network_error (url : jsstring) (statusCode : Z)
| no_content_found (url : jsstring)
| fetch_error (url : jsstring) (message : jsstring).

(** Computations of a [try] block: a value, or a thrown error with its
    [message]. *)
Inductive Exn (A : Type) : Type :=
| Ret (a : A)
| Throw (message : jsstring).
Arguments Ret {A} a.
Arguments Throw {A} message.

#[global] Instance Exn_bind : MBind Exn := fun A B f m =>
  match m with
  | Ret a => f a
  | Throw msg => Throw msg
  end.

(** [try { ... } catch (error) { handler(error.message) }] *)
Definition try_catch {A : Type} (body : Exn A) (handler : jsstring -> A) : A :=
  match body with
  | Ret a => a
  | Throw msg => handler msg
  end.

(** [await fetch(url)] and [await response.text()] followed by the parse,
    as computations that may throw. *)
Definition await_fetch (reply : NetReply) : Exn (Z * Body) :=
  match reply with
  | NetError msg => Throw msg
  | NetResponse status body => Ret (status, body)
  end.

Definition await_document (body : Body) : Exn Document :=
  match body with
  | BodyError msg => Throw msg
  | BodyDoc doc => Ret doc
  end.

Definition titleSelectors : list jsstring :=
  [ lit ".toon-title"; lit ".view-title"; lit "h1.title";
    lit ".post-title"; lit ".entry-title" ].

Definition contentSelectors : list jsstring :=
  [ lit "#novel_content"; lit ".novel-content"; lit ".view-content";
    lit ".entry-content"; lit ".post-content" ].

(** The selector loops: the first selector with a match ends the loop. *)
Fixpoint first_match (doc : Document) (selectors : list jsstring)
  : option Element :=
  match selectors with
  | [] => None
  | selector :: rest =>
      match querySelector doc selector with
      | Some e => Some e
      | None => first_match doc rest
      end
  end.

(** [a || b] on strings, [a] possibly [null]: the empty string is falsy. *)
Definition or_else (a : option jsstring) (b : jsstring) : jsstring :=
  match a with
  | Some (c :: s) => c :: s
  | _ => b
  end.

Definition untitled : jsstring := lit "Untitled Episode".

(** The title of the episode (lines 25 to 49). *)
Definition episodeTitle_of (doc : Document) : jsstring :=
  match first_match doc titleSelectors with
  | None => untitled
  | Some titleElement =>
      or_else (attr_title titleElement)
        (or_else
           (Some (trim (default [] (head (split (lit "<br>")
                                           (textContent titleElement))))))
           untitled)
  end.

(** [s.slice(n)] for [0 <= n]. *)
Definition slice_from (n : nat) (s : jsstring) : jsstring := drop n s.

Definition fetchNovelContent (reply : NetReply) (url : jsstring)
  : FetchResult :=
  try_catch
    ('(status, body) ← await_fetch reply;
     if (status =? 403)%Z then Ret (captcha url)
     else if negb (response_ok status) then Ret (network_error url status)
     else
       doc ← await_document body;
       let episodeTitle := episodeTitle_of doc in
       match first_match doc contentSelectors with
       | None => Ret (no_content_found url)
       | Some content =>
           let cleanedContent := cleanText (innerHTML content) in
           let cleanedContent :=
             if starts_with episodeTitle cleanedContent
             then trim (slice_from (length episodeTitle) cleanedContent)
             else cleanedContent in
           Ret (success episodeTitle cleanedContent)
       end)
    (fun message => fetch_error url message).

End Fetch.
Export Fetch.

(** ** Numbers

    A JavaScript number is an IEEE 754 binary64 value: the kernel's
    primitive floats.  Integers of the source (counts, millisecond clock
    readings) are kept in [Z] and enter arithmetic through [of_int]. *)

Module JsNumber.

Definition num : Type := float.

(** An integer as a number: the nearest double, ties to even (exact up
    to 2^53, an infinity past the largest double). *)
Definition of_int (z : Z) : num :=
  SF2Prim (binary_normalize prec emax z 0 false).

(** A finite number as [m * 2^e], exactly. *)
Definition exact (x : num) : option (Z * Z) :=
  match Prim2SF x with
  | S754_zero _ => Some (0, 0)%Z
  | S754_finite s m e => Some (if s then Z.neg m else Z.pos m, e)
  | _ => None
  end.

Definition is_negative (x : num) : bool :=
  match Prim2SF x with
  | S754_zero s | S754_infinity s | S754_finite s _ _ => s
  | S754_nan => false
  end.

(** [Math.floor] and [Math.ceil] *)
Definition floor (x : num) : num :=
  match exact x with
  | Some (m, e) =>
      if (0 <=? e)%Z then x else of_int (m / 2 ^ (- e))%Z
  | None => x
  end.

Definition ceil (x : num) : num :=
  match exact x with
  | Some (m, e) =>
      if (0 <=? e)%Z then x
      else
        let q := (- ((- m) / 2 ^ (- e)))%Z in
        if (q =? 0)%Z && is_negative x then (- 0)%float else of_int q
  | None => x
  end.

(** [a % b]: the remainder has the sign of the dividend and is exact. *)
Definition rem (a b : num) : num :=
  match exact a, exact b with
  | Some (ma, ea), Some (mb, eb) =>
      if (mb =? 0)%Z then nan
      else if (ma =? 0)%Z then a
      else
        let e := Z.min ea eb in
        let r := Z.rem (ma * 2 ^ (ea - e)) (mb * 2 ^ (eb - e)) in
        if (r =? 0)%Z then (if is_negative a then (- 0)%float else 0%float)
        else Z.ldexp (of_int r) e
  | Some _, None => if PrimFloat.is_nan b then nan else a
  | None, _ => nan
  end.

(** [String(x)] where [x] is not a number, an infinity, or an integer of
    magnitude below 2^53, whose shortest decimal form is the integer
    itself.  [None] stands for the remaining renderings (fractions, the
    shortest digits of larger integers and the exponent notation), which
    the code never asks for on such values. *)
Definition to_string (x : num) : option jsstring :=
  match Prim2SF x with
  | S754_nan => Some (lit "NaN")
  | S754_infinity s => Some (if s then lit "-Infinity" else lit "Infinity")
  | S754_zero _ => Some (lit "0")
  | S754_finite s m e =>
      if (0 <=? e)%Z then
        let n := (Z.pos m * 2 ^ e)%Z in
        if (n <? 2 ^ 53)%Z
        then Some (if s then of_Z (- n) else of_Z n)
        else None
      else if (Z.pos m mod 2 ^ (- e) =? 0)%Z
      then Some (of_Z ((if s then Z.neg m else Z.pos m) / 2 ^ (- e)))
      else None
  end.

(** [x.toFixed(f)]: the integer [n] with [n / 10^f] nearest to [x], the
    larger one on a tie, printed with [f] decimals.  [None] stands for
    the exponent notation of magnitudes of 10^21 and more. *)
Definition pad_zeros (width : nat) (s : jsstring) : jsstring :=
  replicate (width - length s) 48 ++ s.

Definition fixed_digits (n : Z) (f : nat) : jsstring :=
  let m := of_Z n in
  match f with
  | O => m
  | _ =>
      let m := pad_zeros (S f) m in
      take (length m - f) m ++ lit "." ++ drop (length m - f) m
  end.

Definition toFixed (x : num) (f : nat) : option jsstring :=
  match Prim2SF x with
  | S754_nan => Some (lit "NaN")
  | S754_infinity s => Some (if s then lit "-Infinity" else lit "Infinity")
  | S754_zero _ => Some (fixed_digits 0 f)
  | S754_finite s m e =>
      let sign := if s then lit "-" else [] in
      let scaled := (Z.pos m * 10 ^ Z.of_nat f)%Z in
      if (0 <=? e)%Z then
        if (Z.pos m * 2 ^ e <? 10 ^ 21)%Z
        then Some (sign ++ fixed_digits (scaled * 2 ^ e) f)
        else None
      else
        Some (sign ++
              fixed_digits ((2 * scaled + 2 ^ (- e)) / 2 ^ (- e + 1)) f)
  end.

End JsNumber.

(** ** The progress tracker: [createProgressTracker], [formatTime] *)

Module Progress.
Import JsNumber.

Definition concat_opt (parts : list (option jsstring)) : option jsstring :=
  foldr (fun p acc => a ← p; b ← acc; Some (a ++ b)) (Some []) parts.

Definition formatTime (ms : num) : option jsstring :=
  if (ms <? 60000)%float then
    concat_opt [to_string (ceil (ms / 1000)%float); Some (lit "s")]
  else if (ms <? 3600000)%float then
    let mins := floor (ms / 60000)%float in
    let secs := floor (rem ms 60000 / 1000)%float in
    concat_opt [to_string mins; Some (lit "m "); to_string secs;
                Some (lit "s")]
  else
    let hours := floor (ms / 3600000)%float in
    let mins := floor (rem ms 3600000 / 60000)%float in
    concat_opt [to_string hours; Some (lit "h "); to_string mins;
                Some (lit "m")].

Definition MAX_SAMPLES : nat := 5.

(** The closure of [createProgressTracker]: its constants and the array
    [processingTimes]. *)
Record Tracker : Type := {
  totalItems : Z;
  startTime : Z;
  processingTimes : list num
}.

(** [createProgressTracker(totalItems)] when [Date.now()] reads [now]. *)
Definition createProgressTracker (totalItems now : Z) : Tracker :=
  {| totalItems := totalItems; startTime := now; processingTimes := [] |}.

Record Stats : Type := {
  progress : option jsstring;
  remaining : option jsstring;
  elapsed : option jsstring;
  speed : option jsstring
}.

(** [tracker.update(completedItems)] when [Date.now()] reads [now]: the
    statistics returned and the tracker afterwards. *)
Definition update (t : Tracker) (now completedItems : Z) : Stats * Tracker :=
  let progress :=
    (of_int completedItems / of_int (totalItems t) * 100)%float in
  let elapsed := (now - startTime t)%Z in
  let processingTimes :=
    if (0 <? completedItems)%Z then
      let currentTimePerItem :=
        (of_int elapsed / of_int completedItems)%float in
      let pushed := processingTimes t ++ [currentTimePerItem] in
      if (MAX_SAMPLES <? length pushed)%nat then drop 1 pushed else pushed
    else processingTimes t in
  let avgTimePerItem :=
    if (0 <? length processingTimes)%nat
    then (foldl PrimFloat.add 0%float processingTimes
          / of_int (Z.of_nat (length processingTimes)))%float
    else 0%float in
  let remainingItems := (totalItems t - completedItems)%Z in
  let estimatedRemainingTime :=
    (avgTimePerItem * of_int remainingItems)%float in
  ({| progress := toFixed progress 1;
      remaining := formatTime estimatedRemainingTime;
      elapsed := formatTime (of_int elapsed);
      speed := if (0 <? avgTimePerItem)%float
               then toFixed (1000 / avgTimePerItem)%float 2
               else Some (lit "0.00") |},
   {| totalItems := totalItems t;
      startTime := startTime t;
      processingTimes := processingTimes |}).

End Progress.

(** ** The download loop: [processDownloadCore] *)

Module Orchestrator.
Import Progress.

(** The archive of the JSZip library, seen through its [files] object:
    [zip.file(name, data)] adds the entry or replaces the one of that name.
    (No name used here contains a slash, so no folder entry is created.) *)
Abbreviation Archive := (gmap jsstring jsstring).

Definition zip_file (name data : jsstring) (zip : Archive) : Archive :=
  <[name := data]> zip.

(** The two places where the loop is suspended and the handler of the
    close button can run. *)
Inductive Phase : Type := DuringFetch | DuringDelay.

#[global] Instance Phase_eq_dec : EqDecision Phase.
Proof. solve_decision. Defined.

(** Everything outside the program a run depends on. *)
Record World : Type := {
  (* whether [loadScript] resolves *)
  script_loads : bool;
  (* whether [window.JSZip] is defined at the [n]-th test of the wait *)
  jszip_defined : nat -> bool;
  (* the answer to the fetch of iteration [i] *)
  net : nat -> jsstring -> NetReply;
  (* when the user confirms the cancellation, if ever: while iteration
     [i] is suspended in the given phase.  (The handler removes the
     dialog, so it runs once at most.) *)
  cancel_at : option (nat * Phase);
  (* [Date.now()] when the tracker is created and at the update of
     iteration [i] *)
  clock_start : Z;
  clock : nat -> Z
}.

(** What the run does to the outside, in order. *)
Inductive Event : Type :=
| EvLoadScript (src : jsstring)
| EvWait (ms : Z)
| EvFetch (url : jsstring)
| EvDelay (ms : Z)
| EvNotify (title message : jsstring).

(** Whether the handler of the close button sets the flag while iteration
    [i] is suspended in phase [ph]. *)
Definition cancel_confirmed (w : World) (i : nat) (ph : Phase) : bool :=
  bool_decide (cancel_at w = Some (i, ph)).

Definition jszip_src : jsstring :=
  lit "https://cdnjs.cloudflare.com/ajax/libs/jszip/3.10.1/jszip.min.js".

Definition MAX_WAIT_TIME : Z := 5000.
Definition CHECK_INTERVAL : Z := 100.

(** The wait loop: [n] counts the tests made so far.  The result is the
    number of turns taken and [elapsedWaitTime] at the exit.  The loop
    takes at most [MAX_WAIT_TIME / CHECK_INTERVAL] turns, which is what
    [turns] is started with. *)
Fixpoint wait_loop (defined : nat -> bool) (turns n : nat)
    (elapsedWaitTime : Z) : nat * Z :=
  match turns with
  | O => (n, elapsedWaitTime)
  | S turns' =>
      if negb (defined n) && (elapsedWaitTime <? MAX_WAIT_TIME)%Z
      then wait_loop defined turns' (S n) (elapsedWaitTime + CHECK_INTERVAL)
      else (n, elapsedWaitTime)
  end.

Definition wait_for_jszip (defined : nat -> bool) : nat * Z :=
  wait_loop defined (Z.to_nat (MAX_WAIT_TIME / CHECK_INTERVAL)) 0 0.

Definition zip_failure_title (message : jsstring) : jsstring :=
  message ++ lit "ZIP Library Load Failed".

Definition zip_failure_text : jsstring :=
  lit "Cannot compress files into a ZIP. Please check your internet connection or try again later. The download will proceed as a single text file if possible, otherwise it will be cancelled.".

(** Lines 758 to 792: the value of [zip] ([None] is [undefined]) and the
    events, or the events of the failure when the function returns at
    line 790. *)
Definition setup_zip (w : World) (saveAsZip : bool)
  : (option Archive * list Event) + list Event :=
  if saveAsZip then
    let load := [EvLoadScript jszip_src] in
    let '(evs, attempt) :=
      if script_loads w then
        let '(n, _) := wait_for_jszip (jszip_defined w) in
        (load ++ replicate n (EvWait CHECK_INTERVAL),
         if negb (jszip_defined w n)
         then Throw (lit "JSZip did not become defined within the expected time.")
         else Ret (∅ : Archive))
      else (load, Throw (lit "Failed to load script: " ++ jszip_src)) in
    match attempt with
    | Ret zip0 => inl (Some zip0, evs)
    | Throw message =>
        inr (evs ++ [EvNotify (zip_failure_title message) zip_failure_text])
    end
  else inl (None, []).

(** The variables of the loop, and the log of events so far. *)
Record LoopState : Type := {
  novelText : jsstring;
  zip : option Archive;
  completedEpisodes : nat;
  skippedChapters : list chapter;
  incompleteChapters : list chapter;
  isDownloadCancelled : bool;
  progressTracker : Tracker;
  events : list Event
}.

Definition handled (st : LoopState) : nat :=
  completedEpisodes st + length (skippedChapters st)
  + length (incompleteChapters st).

(** The chain of [if]s on [result.status] (lines 846 to 868). *)
Definition record_result (saveAsZip : bool) (episodeUrl : jsstring)
    (result : FetchResult) (st : LoopState) : LoopState :=
  match result with
  | success fetchedEpisodeTitle content =>
      {| novelText :=
           if saveAsZip then novelText st
           else novelText st ++ [LF; LF] ++ lit "--- " ++ fetchedEpisodeTitle
                ++ lit " ---" ++ [LF; LF] ++ content;
         zip :=
           if saveAsZip
           then zip_file (sanitizeFilename fetchedEpisodeTitle ++ lit ".txt")
                         content <$> zip st
           else zip st;
         completedEpisodes := S (completedEpisodes st);
         skippedChapters := skippedChapters st;
         incompleteChapters := incompleteChapters st;
         isDownloadCancelled := isDownloadCancelled st;
         progressTracker := progressTracker st;
         events := events st |}
  | captcha _ =>
      {| novelText := novelText st;
         zip := zip st;
         completedEpisodes := completedEpisodes st;
         skippedChapters :=
           skippedChapters st ++ [Chapter episodeUrl (lit "CAPTCHA (403)")];
         incompleteChapters := incompleteChapters st;
         isDownloadCancelled := isDownloadCancelled st;
         progressTracker := progressTracker st;
         events := events st |}
  | network_error _ statusCode =>
      {| novelText := novelText st;
         zip := zip st;
         completedEpisodes := completedEpisodes st;
         skippedChapters := skippedChapters st;
         incompleteChapters :=
           incompleteChapters st
           ++ [Chapter episodeUrl
                 (lit "Network Error (" ++ of_Z statusCode ++ lit ")")];
         isDownloadCancelled := isDownloadCancelled st;
         progressTracker := progressTracker st;
         events := events st |}
  | no_content_found _ =>
      {| novelText := novelText st;
         zip := zip st;
         completedEpisodes := completedEpisodes st;
         skippedChapters := skippedChapters st;
         incompleteChapters :=
           incompleteChapters st
           ++ [Chapter episodeUrl (lit "No Content Found")];
         isDownloadCancelled := isDownloadCancelled st;
         progressTracker := progressTracker st;
         events := events st |}
  | fetch_error _ message =>
      {| novelText := novelText st;
         zip := zip st;
         completedEpisodes := completedEpisodes st;
         skippedChapters := skippedChapters st;
         incompleteChapters :=
           incompleteChapters st
           ++ [Chapter episodeUrl (lit "Fetch Error: " ++ message)];
         isDownloadCancelled := isDownloadCancelled st;
         progressTracker := progressTracker st;
         events := events st |}
  end.

(** The state when the fetch of iteration [i] is issued and the loop is
    suspended on it: the handler of the close button may run meanwhile. *)
Definition begin_fetch (w : World) (i : nat) (episodeUrl : jsstring)
    (st : LoopState) : LoopState :=
  {| novelText := novelText st;
     zip := zip st;
     completedEpisodes := completedEpisodes st;
     skippedChapters := skippedChapters st;
     incompleteChapters := incompleteChapters st;
     isDownloadCancelled :=
       isDownloadCancelled st || cancel_confirmed w i DuringFetch;
     progressTracker := progressTracker st;
     events := events st ++ [EvFetch episodeUrl] |}.

(** The update of the tracker and the delay that ends the iteration, during
    which the handler may run as well. *)
Definition end_iteration (w : World) (delayMs : Z) (i : nat)
    (st : LoopState) : LoopState :=
  let currentProgressCount := Z.of_nat (i + 1) in
  let '(_, tracker) :=
    update (progressTracker st) (clock w i) currentProgressCount in
  {| novelText := novelText st;
     zip := zip st;
     completedEpisodes := completedEpisodes st;
     skippedChapters := skippedChapters st;
     incompleteChapters := incompleteChapters st;
     isDownloadCancelled :=
       isDownloadCancelled st || cancel_confirmed w i DuringDelay;
     progressTracker := tracker;
     events := events st ++ [EvDelay delayMs] |}.

(** The body of the loop after the test of the flag (lines 834 to 886). *)
Definition iteration (w : World) (delayMs : Z) (saveAsZip : bool) (i : nat)
    (episodeUrl : jsstring) (st : LoopState) : LoopState :=
  let st := begin_fetch w i episodeUrl st in
  let result := fetchNovelContent (net w i episodeUrl) episodeUrl in
  let st := record_result saveAsZip episodeUrl result st in
  end_iteration w delayMs i st.

(** The [for] loop from index [i] on; [urls] is what is left of
    [episodeUrlsToProcess] from there. *)
Fixpoint loop (w : World) (delayMs : Z) (saveAsZip : bool) (i : nat)
    (urls : list jsstring) (st : LoopState) : LoopState :=
  match urls with
  | [] => st
  | episodeUrl :: rest =>
      if isDownloadCancelled st then st
      else loop w delayMs saveAsZip (S i) rest
             (iteration w delayMs saveAsZip i episodeUrl st)
  end.

(** The same loop stopped after at most [n] turns: the state the run is
    in at that time. *)
Fixpoint loop_upto (n : nat) (w : World) (delayMs : Z) (saveAsZip : bool)
    (i : nat) (urls : list jsstring) (st : LoopState) : LoopState :=
  match n, urls with
  | S n', episodeUrl :: rest =>
      if isDownloadCancelled st then st
      else loop_upto n' w delayMs saveAsZip (S i) rest
             (iteration w delayMs saveAsZip i episodeUrl st)
  | _, _ => st
  end.

Definition novelText_header (title : jsstring) : jsstring :=
  title ++ [LF; LF] ++ lit "Downloaded with novel-dl," ++ [LF]
  ++ lit "https://github.com/yeorinhieut/novel-dl" ++ [LF; LF].

Definition initial_state (w : World) (title : jsstring)
    (totalEpisodesCount : nat) (zip : option Archive) (evs : list Event)
  : LoopState :=
  {| novelText := novelText_header title;
     zip := zip;
     completedEpisodes := 0;
     skippedChapters := [];
     incompleteChapters := [];
     isDownloadCancelled := false;
     progressTracker :=
       createProgressTracker (Z.of_nat totalEpisodesCount) (clock_start w);
     events := evs |}.

(** Truthiness of an optional string argument. *)
Definition truthy (s : option jsstring) : bool :=
  match s with
  | Some (_ :: _) => true
  | _ => false
  end.

Definition reportFileName (title : jsstring)
    (originalFileNameForReport : option jsstring) : jsstring :=
  sanitizeFilename title
  ++ (if truthy originalFileNameForReport
      then lit "_retry_of_"
           ++ sanitizeFilename (default [] originalFileNameForReport)
      else [])
  ++ lit "_report.txt".

(** The progress modal is appended to the body at line 806.  While the
    loop runs it is removed only by the handler that confirms the
    cancellation, in the statement after the one that raises the flag
    (lines 814 and 815): it is a child of the body exactly while the flag
    is down. *)
Definition modal_attached (st : LoopState) : bool :=
  negb (isDownloadCancelled st).

Definition NotFoundError : jsstring := lit "NotFoundError".

(** [document.body.removeChild(modal)]: a node that is not a child of the
    body cannot be removed, and the call throws. *)
Definition removeChild (attached : bool) : Exn unit :=
  if attached then Ret tt else Throw NotFoundError.

(** How [processDownloadCore] ends. *)
Inductive JobResult : Type :=
| SetupFailure                       (* the [return] of line 790 *)
| Cancelled (st : LoopState)         (* the [return] of line 901 *)
| Rejected (st : LoopState) (error : jsstring)
                                     (* an exception leaves the function *)
| Completed (st : LoopState) (reportName report : jsstring)
            (archive : option Archive).

Definition cancel_notice : Event :=
  EvNotify (lit "Download Cancelled")
           (lit "The download was cancelled by the user.").

(** [processDownloadCore], up to the report and the archive it hands to
    the completion dialog; the second component is the log of events. *)
Definition processDownloadCore (w : World) (title : jsstring)
    (episodeUrlsToProcess : list jsstring) (delayMs : Z) (saveAsZip : bool)
    (originalFileNameForReport : option jsstring)
  : JobResult * list Event :=
  match setup_zip w saveAsZip with
  | inr evs => (SetupFailure, evs)
  | inl (zip0, evs) =>
      let totalEpisodesCount := length episodeUrlsToProcess in
      let st :=
        loop w delayMs saveAsZip 0 episodeUrlsToProcess
             (initial_state w title totalEpisodesCount zip0 evs) in
      if isDownloadCancelled st then
        (* lines 897 to 901: the notice, then the removal of the modal *)
        let evs := events st ++ [cancel_notice] in
        match removeChild (modal_attached st) with
        | Ret _ => (Cancelled st, evs)
        | Throw error => (Rejected st error, evs)
        end
      else
        let report :=
          reportContent (skippedChapters st) (incompleteChapters st) in
        let name := reportFileName title originalFileNameForReport in
        (Completed st name report
           (if saveAsZip then zip_file name report <$> zip st else zip st),
         events st)
  end.

End Orchestrator.

(** ** The names of the downloads and the chapter on display:
       the end of [processDownloadCore] *)

Module Completion.
Import Orchestrator.

(** [displayEpisodeNumber] at turn [i] of a job of [n] URLs (lines 836 to
    838): a number when both optional arguments are given, the text of a
    link number otherwise.  The arguments are integers below [2^53], so
    the arithmetic is exact. *)
Definition displayEpisodeNumber (n i : nat)
    (initialStartEpisode initialEndEpisode : option Z) : Z + jsstring :=
  match initialStartEpisode, initialEndEpisode with
  | Some startEpisode, Some _ =>
      inl (Z.of_nat n - 1 - Z.of_nat i + startEpisode)%Z
  | _, _ => inr (lit "Link " ++ of_Z (Z.of_nat i + 1))
  end.

(** A number or [undefined] inside a template literal. *)
Definition show (v : option Z) : jsstring :=
  match v with
  | Some z => of_Z z
  | None => lit "undefined"
  end.

(** The [download] attribute of the archive (line 1037). *)
Definition zip_download_name (title : jsstring) : jsstring :=
  sanitizeFilename title ++ lit ".zip".

(** The [download] attribute of the merged text (line 1054). *)
Definition text_download_name (title : jsstring)
    (initialStartEpisode initialEndEpisode : option Z) : jsstring :=
  sanitizeFilename title
  ++ match initialStartEpisode with
     | Some _ =>
         lit "(" ++ show initialStartEpisode ++ lit "~"
         ++ show initialEndEpisode ++ lit ")"
     | None => []
     end
  ++ lit ".txt".

End Completion.

(** ** The retry from a report file: [showRetryFromFileDialog],
       [extractTitle] *)

Module Retry.
Import Orchestrator.

(** [extractTitle]: the node the XPath expression selects, if any, is seen
    through its [textContent]. *)
Definition extractTitle (titleElement : option jsstring) : option jsstring :=
  match titleElement with
  | Some textContent => Some (trim textContent)
  | None => None
  end.

(** How the [onload] handler of [showRetryFromFileDialog] ends. *)
Inductive RetryResult : Type :=
| NoUrlsFound
| TitleExtractionFailed
| RetryJob (result : JobResult * list Event).

(** The [onload] handler of the file reader (lines 2168 to 2186):
    [content] is the text of the file, [fileName] its name. *)
Definition reader_onload (w : World) (titleElement : option jsstring)
    (fileName content : jsstring) : RetryResult :=
  let urlsToRetry := parseReportFile content in
  if (length urlsToRetry =? 0)%nat then NoUrlsFound
  else
    let title := extractTitle titleElement in
    if negb (truthy title) then TitleExtractionFailed
    else RetryJob (processDownloadCore w (default [] title) urlsToRetry
                     5000%Z true (Some fileName)).

End Retry.

(** ** The crawler: [runCrawler], [fetchPage], [downloadNovel] *)

Module Crawler.
Import Orchestrator.

(** *** Numbers *)

(** The values [Number.parseInt] returns and the differences computed from
    them: not a number, an infinity, or an integer (a double that is an
    integer; [-0] is not told from [0], which no operation used here
    does). *)
Inductive number : Type :=
| NaN
| Infinity (negative : bool)
| Num (z : Z).

Definition is_digit (c : N) : bool := (48 <=? c) && (c <=? 57).

(** The longest prefix of decimal digits. *)
Fixpoint digits_prefix (s : jsstring) : jsstring :=
  match s with
  | c :: s' => if is_digit c then c :: digits_prefix s' else []
  | [] => []
  end.

Definition digits_value (digits : jsstring) : Z :=
  foldl (fun acc c => (10 * acc + Z.of_N (c - 48))%Z) 0%Z digits.

(** [a] to the nearest multiple of [2^e], ties to the even one. *)
Definition round_half_even (a e : Z) : Z :=
  let q := (a / 2 ^ e)%Z in
  let r := (a mod 2 ^ e)%Z in
  let half := (2 ^ (e - 1))%Z in
  let q' :=
    if (half <? r)%Z || ((r =? half)%Z && Z.odd q) then (q + 1)%Z else q in
  (q' * 2 ^ e)%Z.

(** The double nearest to the integer [z]: 53 significant bits are kept,
    and magnitudes that round to [2^1024] overflow. *)
Definition to_number (z : Z) : number :=
  let a := Z.abs z in
  let e := (Z.log2 a - 52)%Z in
  let v := if (e <=? 0)%Z then a else round_half_even a e in
  if (2 ^ 1024 <=? v)%Z then Infinity (z <? 0)%Z
  else Num (Z.sgn z * v).

(** [Number.parseInt(string, 10)]: leading white space, a sign, then the
    longest run of digits; [NaN] without a digit.  (Past 20 significant
    digits an implementation may read the further digits as zeros; this is
    the reading that keeps them.) *)
Definition parseInt (string : jsstring) : number :=
  let s := drop_spaces string in
  let '(negative, s) :=
    match s with
    | c :: s' =>
        if c =? 45 then (true, s')
        else if c =? 43 then (false, s')
        else (false, s)
    | [] => (false, [])
    end in
  match digits_prefix s with
  | [] => NaN
  | digits =>
      to_number (if negative then - digits_value digits
                 else digits_value digits)%Z
  end.

Definition isNaN (n : number) : bool :=
  match n with
  | NaN => true
  | _ => false
  end.

(** [a < b] *)
Definition lt (a b : number) : bool :=
  match a, b with
  | NaN, _ | _, NaN => false
  | Num x, Num y => (x <? y)%Z
  | Infinity true, Infinity true => false
  | Infinity true, _ => true
  | _, Infinity true => false
  | Infinity false, _ => false
  | Num _, Infinity false => true
  end.

(** [a >= b] *)
Definition ge (a b : number) : bool :=
  match a, b with
  | NaN, _ | _, NaN => false
  | _, _ => negb (lt a b)
  end.

(** [a - b] *)
Definition sub (a b : number) : number :=
  match a, b with
  | NaN, _ | _, NaN => NaN
  | Num x, Num y => to_number (x - y)
  | Infinity s, Infinity s' => if eqb s s' then NaN else Infinity s
  | Infinity s, Num _ => Infinity s
  | Num _, Infinity s => Infinity (negb s)
  end.

(** *** The start of [runCrawler] *)

Definition novelPageRule : jsstring := lit "https://booktoki".

(** [window.location.href] without its query (lines 1415 to 1419). *)
Definition currentUrl (href : jsstring) : jsstring :=
  default [] (head (split (lit "?") href)).

(** *** The handlers of the two dialogs *)

(** The test of the Continue button (lines 1647 to 1654): the number of
    pages to read, unless the input is refused. *)
Definition continueButton_onclick (value : jsstring) : option number :=
  let totalPages := parseInt value in
  if isNaN totalPages || lt totalPages (Num 1) then None
  else Some totalPages.

Inductive RangeClick : Type :=
| InvalidRange
| InvalidDelay
| Download (startEpisode endEpisode delay : number).

(** The handler of the Download button (lines 2007 to 2043), up to the
    call of [downloadNovel]; [len] is [allEpisodeLinks.length]. *)
Definition downloadButton_onclick (len : nat)
    (startValue endValue delayValue : jsstring) : RangeClick :=
  let startEpisode := parseInt startValue in
  let endEpisode := parseInt endValue in
  if isNaN startEpisode || isNaN endEpisode
     || lt startEpisode (Num 1)
     || lt endEpisode startEpisode
     || lt (Num (Z.of_nat len)) endEpisode
  then InvalidRange
  else
    let delay := parseInt delayValue in
    if isNaN delay || lt delay (Num 1000) then InvalidDelay
    else Download startEpisode endEpisode delay.

(** *** The list of links *)

(** A list page, seen through the [href] attributes of its elements of
    class [item-subject], in document order; [None] is [null], the
    attribute being absent. *)
Abbreviation Links := (list (option jsstring)).

Inductive PageBody : Type :=
| PageBodyError (message : jsstring)
| PageBodyDoc (links : Links).

Inductive PageReply : Type :=
| PageNetError (message : jsstring)
| PageResponse (ok : bool) (body : PageBody).

(** [fetchPage]: [Ret None] is the [null] of a response that is not ok;
    a rejected [fetch] or [text()] throws. *)
Definition fetchPage (reply : PageReply) : Exn (option Links) :=
  match reply with
  | PageNetError message => Throw message
  | PageResponse ok body =>
      if negb ok then Ret None
      else match body with
           | PageBodyError message => Throw message
           | PageBodyDoc links => Ret (Some links)
           end
  end.

Definition nextPageUrl (currentUrl : jsstring) (page : Z) : jsstring :=
  currentUrl ++ lit "?spage=" ++ of_Z page.

(** The loop over the pages (lines 1745 to 1766) with [n] turns left;
    [pages] is what the network answers to the request of a page.  The
    result is the list of links, or the error that ends the handler. *)
Fixpoint crawl_loop (pages : Z -> jsstring -> PageReply)
    (currentUrl : jsstring) (n : nat) (page : Z) (allEpisodeLinks : Links)
    (evs : list Event) : Exn Links * list Event :=
  match n with
  | O => (Ret allEpisodeLinks, evs)
  | S n' =>
      let url := nextPageUrl currentUrl page in
      let evs := evs ++ [EvFetch url] in
      match fetchPage (pages page url) with
      | Throw message => (Throw message, evs)
      | Ret nextPageDoc =>
          let allEpisodeLinks :=
            match nextPageDoc with
            | Some nextPageLinks => allEpisodeLinks ++ nextPageLinks
            | None => allEpisodeLinks
            end in
          crawl_loop pages currentUrl n' (page + 1)%Z allEpisodeLinks
                     (evs ++ [EvDelay 500%Z])
      end
  end.

(** The loop for an integer number of pages: [page] runs from 1 while
    [page <= totalPages].  (For an infinite [totalPages], which the test
    of the Continue button lets pass, the loop does not end.) *)
Definition crawl (pages : Z -> jsstring -> PageReply) (currentUrl : jsstring)
    (totalPages : Z) : Exn Links * list Event :=
  crawl_loop pages currentUrl (Z.to_nat totalPages) 1%Z [] [].

(** *** The choice of the chapters in [downloadNovel] *)

(** The turns of the loop of lines 1227 to 1234 from index [i] down.
    [episodeLinks[i].startsWith] throws when the element is [null] or the
    index is outside the array: the result is [None] then. *)
Fixpoint select_down (episodeLinks : Links) (i : nat) (endingIndex : number)
  : option (list jsstring) :=
  if ge (Num (Z.of_nat i)) endingIndex then
    match episodeLinks !! i with
    | Some (Some link) =>
        rest ← match i with
               | O => if ge (Num (-1)) endingIndex then None else Some []
               | S i' => select_down episodeLinks i' endingIndex
               end;
        Some (if starts_with novelPageRule link then link :: rest else rest)
    | _ => None
    end
  else Some [].

(** [urlsToDownload] as the handler of a save option builds it (lines
    1224 to 1234). *)
Definition urlsToDownload (episodeLinks : Links)
    (startEpisode endEpisode : number) : option (list jsstring) :=
  let len := Num (Z.of_nat (length episodeLinks)) in
  let startingIndex := sub len startEpisode in
  let endingIndex := sub len endEpisode in
  if ge startingIndex endingIndex then
    match startingIndex with
    | Num i =>
        if (0 <=? i)%Z then select_down episodeLinks (Z.to_nat i) endingIndex
        else None
    | _ => None
    end
  else Some [].

(** [saveAsZip] as the handler passes it on: [value !== "1"]. *)
Definition saveAsZip_of (value : jsstring) : bool :=
  negb (bool_decide (value = lit "1")).

End Crawler.

(** * Vocabulary of the properties *)

Local Open Scope nat_scope.

Module ReportSpec.

Definition http_scheme : jsstring := lit "http://".
Definition https_scheme : jsstring := lit "https://".

(** The URL begins with one of the two schemes. *)
Definition has_scheme (u : jsstring) : bool :=
  starts_with http_scheme u || starts_with https_scheme u.

(** The URLs the report parser gives back unchanged: a scheme, at least
    one more code unit, and no white space. *)
Definition retryable_url (u : jsstring) : bool :=
  ((starts_with http_scheme u && (length http_scheme <? length u)%nat)
   || (starts_with https_scheme u && (length https_scheme <? length u)%nat))
  && forallb not_space u.

(** An occurrence of the marker in the line, with the text after it. *)
Definition marker_at (line pre post : jsstring) : Prop :=
  line = pre ++ lit "URL: " ++ post.

(** The text of a section of the report: its lines, or the sentinel. *)
Definition section_text (items : list chapter) (none : jsstring) : jsstring :=
  if (0 <? length items)%nat then join [LF] (report_line <$> items) else none.

End ReportSpec.
Export ReportSpec.

Module ContentSpec.

(** No three line feeds in a row, checked from every position. *)
Fixpoint lf3_free (s : jsstring) : bool :=
  match s with
  | [] => true
  | _ :: s' => negb (starts_with [LF; LF; LF] s) && lf3_free s'
  end.

(** A paragraph of the output: not empty, and on one line. *)
Definition paragraph (p : jsstring) : Prop := p <> [] /\ LF ∉ p.

End ContentSpec.
Export ContentSpec.

Module FetchSpec.



(** The content string an outcome carries. *)
Definition content_of (r : FetchResult) : option jsstring :=
  match r with
  | success _ content => Some content
  | _ => None
  end.

(** A document in which no selector finds anything. *)
Definition empty_document : Document := {| querySelector := fun _ => None |}.

(** A document with a content region and no title element. *)
Definition untitled_document : Document :=
  {| querySelector := fun selector =>
       if decide (selector = lit "#novel_content")
       then Some {| attr_title := None;
                    textContent := lit "Hello";
                    innerHTML := lit "<p>Hello</p>" |}
       else None |}.

(** A page whose title element has the given title attribute and text, and
    whose content region has the given markup. *)
Definition page_with (attr : option jsstring) (text body : jsstring)
  : Document :=
  {| querySelector := fun selector =>
       if decide (selector = lit ".toon-title")
       then Some {| attr_title := attr;
                    textContent := text;
                    innerHTML := text |}
       else if decide (selector = lit "#novel_content")
       then Some {| attr_title := None;
                    textContent := body;
                    innerHTML := body |}
       else None |}.

End FetchSpec.
Export FetchSpec.

Module OrchestratorSpec.
Import Orchestrator.

(** Exactly one of the three counters of a job grows, by one. *)
Definition grows_one (st st' : LoopState) : Prop :=
  (completedEpisodes st' = S (completedEpisodes st)
   /\ skippedChapters st' = skippedChapters st
   /\ incompleteChapters st' = incompleteChapters st)
  \/ (completedEpisodes st' = completedEpisodes st
      /\ (exists item, skippedChapters st' = skippedChapters st ++ [item])
      /\ incompleteChapters st' = incompleteChapters st)
  \/ (completedEpisodes st' = completedEpisodes st
      /\ skippedChapters st' = skippedChapters st
      /\ exists item, incompleteChapters st' = incompleteChapters st ++ [item]).

(** The URLs fetched, in order. *)
Definition fetches (evs : list Event) : list jsstring :=
  omap (fun e => match e with EvFetch u => Some u | _ => None end) evs.


(** The number of items handled when the flag is raised at [i] in [ph]. *)
Definition handled_at (i : nat) (ph : Phase) : nat :=
  match ph with
  | DuringFetch => i
  | DuringDelay => S i
  end.

(** A world without network access to the archiving library. *)
Definition offline_world : World :=
  {| script_loads := false;
     jszip_defined := fun _ => false;
     net := fun _ _ => NetResponse 200 (BodyDoc untitled_document);
     cancel_at := None;
     clock_start := 0;
     clock := fun i => (1000 * Z.of_nat (S i))%Z |}.

(** The name of the archive entry of a chapter. *)
Definition entry_name (episodeTitle : jsstring) : jsstring :=
  sanitizeFilename episodeTitle ++ lit ".txt".

(** The outcome of the fetch of turn [i], when the list has an item [i]. *)
Definition result_at (w : World) (urls : list jsstring) (i : nat)
  : option FetchResult :=
  episodeUrl ← urls !! i;
  Some (fetchNovelContent (net w i episodeUrl) episodeUrl).

(** The archive entry a turn with the outcome [r] writes: name and
    content. *)
Definition entry_written (saveAsZip : bool) (r : FetchResult)
  : option (jsstring * jsstring) :=
  match r with
  | success episodeTitle content =>
      if saveAsZip then Some (entry_name episodeTitle, content) else None
  | _ => None
  end.

(** The archive entry that the turn under way writes after the flag is
    raised: the one of item [i] when the flag is raised during its fetch. *)
Definition in_flight_entry (w : World) (urls : list jsstring)
    (saveAsZip : bool) (i : nat) (ph : Phase) : option (jsstring * jsstring) :=
  match ph with
  | DuringFetch => result_at w urls i ≫= entry_written saveAsZip
  | DuringDelay => None
  end.

(** The URLs of a job from turn [i] on, each with the outcome of its
    fetch. *)
Fixpoint results_from (w : World) (i : nat) (urls : list jsstring)
  : list (jsstring * FetchResult) :=
  match urls with
  | [] => []
  | episodeUrl :: rest =>
      (episodeUrl, fetchNovelContent (net w i episodeUrl) episodeUrl)
      :: results_from w (S i) rest
  end.

(** The text that the successful items of [outcomes] leave under the
    entry name [name]: that of the last of them with this entry name. *)
Fixpoint entry_content (name : jsstring)
    (outcomes : list (jsstring * FetchResult)) : option jsstring :=
  match outcomes with
  | [] => None
  | item :: rest =>
      match entry_content name rest with
      | Some content => Some content
      | None =>
          match entry_written true (snd item) with
          | Some (name', content) =>
              if decide (name' = name) then Some content else None
          | None => None
          end
      end
  end.

(** Nothing accumulated in [st] is lost in [st']: the merged text, the two
    lists and the count are only added to, and every entry of the archive
    is still there with its content, except that an entry of the name
    given in [over] holds the content given there. *)
Definition extends (over : option (jsstring * jsstring))
    (st st' : LoopState) : Prop :=
  novelText st `prefix_of` novelText st'
  /\ completedEpisodes st <= completedEpisodes st'
  /\ skippedChapters st `prefix_of` skippedChapters st'
  /\ incompleteChapters st `prefix_of` incompleteChapters st'
  /\ match zip st, zip st' with
     | Some z, Some z' =>
         forall name c,
           z !! name = Some c ->
           z' !! name
           = match over with
             | Some (name', c') =>
                 if decide (name = name') then Some c' else Some c
             | None => Some c
             end
     | None, None => True
     | _, _ => False
     end.

(** Two successful chapters before turn [n] with the same entry name. *)
Definition collision_before (w : World) (urls : list jsstring) (n : nat)
  : Prop :=
  exists i j ti ci tj cj,
    i < j < n
    /\ result_at w urls i = Some (success ti ci)
    /\ result_at w urls j = Some (success tj cj)
    /\ entry_name ti = entry_name tj.

(** A page with a title attribute and a content region. *)
Definition page (title body : jsstring) : Document :=
  page_with (Some title) title body.

Definition demo_urls : list jsstring :=
  [ lit "https://booktoki.example/novel/1";
    lit "https://booktoki.example/novel/2";
    lit "https://booktoki.example/novel/3" ].

(** A world in which the archiving library is there at the third test,
    the first two chapters have titles that differ in a character invalid
    in file names, the third is blocked, and nobody cancels. *)
Definition colliding_world : World :=
  {| script_loads := true;
     jszip_defined := fun n => (2 <=? n)%nat;
     net := fun i _ =>
       match i with
       | 0 => NetResponse 200 (BodyDoc (page (lit "Part 1/2")
                                             (lit "<p>first</p>")))
       | 1 => NetResponse 200 (BodyDoc (page (lit "Part 1:2")
                                             (lit "<p>second</p>")))
       | _ => NetResponse 403 (BodyError [])
       end;
     cancel_at := None;
     clock_start := 0;
     clock := fun i => (1000 * Z.of_nat (S i))%Z |}.

(** A world in which the three chapters have titles with the same
    sanitized form. *)
Definition triple_world : World :=
  {| script_loads := true;
     jszip_defined := fun _ => true;
     net := fun i _ =>
       match i with
       | 0 => NetResponse 200 (BodyDoc (page (lit "Part 1/2")
                                             (lit "<p>first</p>")))
       | 1 => NetResponse 200 (BodyDoc (page (lit "Part 1:2")
                                             (lit "<p>second</p>")))
       | _ => NetResponse 200 (BodyDoc (page (lit "Part 1?2")
                                             (lit "<p>third</p>")))
       end;
     cancel_at := None;
     clock_start := 0;
     clock := fun i => (1000 * Z.of_nat (S i))%Z |}.

(** A world in which every chapter is titled "Novel_report". *)
Definition report_named_world : World :=
  {| script_loads := true;
     jszip_defined := fun _ => true;
     net := fun i _ =>
       NetResponse 200 (BodyDoc (page (lit "Novel_report")
                                      (lit "<p>chapter</p>")));
     cancel_at := None;
     clock_start := 0;
     clock := fun i => (1000 * Z.of_nat (S i))%Z |}.

(** A world in which the first item succeeds, the second is blocked and
    the third meets a server error. *)
Definition scenario_world : World :=
  {| script_loads := true;
     jszip_defined := fun _ => true;
     net := fun i _ =>
       match i with
       | 0 => NetResponse 200 (BodyDoc (page (lit "Chapter 1")
                                             (lit "<p>Chapter 1</p><p>Hello</p>")))
       | 1 => NetResponse 403 (BodyError [])
       | _ => NetResponse 500 (BodyError [])
       end;
     cancel_at := None;
     clock_start := 0;
     clock := fun i => (1000 * Z.of_nat (S i))%Z |}.

(** The same world, the user cancelling during the second fetch. *)
Definition cancelling_world : World :=
  {| script_loads := true;
     jszip_defined := fun n => (2 <=? n)%nat;
     net := net colliding_world;
     cancel_at := Some (1, DuringFetch);
     clock_start := 0;
     clock := fun i => (1000 * Z.of_nat (S i))%Z |}.

End OrchestratorSpec.
Export OrchestratorSpec.

Module ContentMoreSpec.

(** What [sanitizeFilename] does to one code unit. *)
Definition sanitize_char (c : N) : N :=
  if is_invalid_filename_char c then 95%N else c.

(** Neither the first nor the last code unit is white space. *)
Definition trimmed (s : jsstring) : Prop :=
  (forall c, head s = Some c -> is_space c = false)
  /\ (forall c, last s = Some c -> is_space c = false).

Definition AMPERSAND : N := 38%N.

End ContentMoreSpec.
Export ContentMoreSpec.

Module ProgressMoreSpec.
Import JsNumber Progress.

(** A sequence of calls of [update], each with the reading of the clock
    and the argument [completedItems]. *)
Definition updates (t : Tracker) (calls : list (Z * Z)) : Tracker :=
  foldl (fun t call => snd (update t (fst call) (snd call))) t calls.

(** The calls that record a sample: those with [completedItems > 0]. *)
Definition sampling (calls : list (Z * Z)) : nat :=
  length (filter (fun call => (0 <? snd call)%Z) calls).

(** The samples that the calls record, oldest first: the time elapsed
    since [start] for each completed item. *)
Definition samples (start : Z) (calls : list (Z * Z)) : list num :=
  (fun call => (of_int (fst call - start) / of_int (snd call))%float)
  <$> filter (fun call => (0 <? snd call)%Z) calls.

(** The [n] last elements of a list, all of it when it is shorter. *)
Definition most_recent {A : Type} (n : nat) (l : list A) : list A :=
  drop (length l - n) l.

End ProgressMoreSpec.
Export ProgressMoreSpec.

Module JobSpec.
Import Orchestrator.

Definition is_success (r : FetchResult) : bool :=
  match r with
  | success _ _ => true
  | _ => false
  end.

(** The entry of the skipped list an outcome asks for. *)
Definition skipped_entry (item : jsstring * FetchResult) : option chapter :=
  match snd item with
  | captcha _ => Some (Chapter (fst item) (lit "CAPTCHA (403)"))
  | _ => None
  end.

(** The entry of the incomplete list an outcome asks for. *)
Definition incomplete_entry (item : jsstring * FetchResult) : option chapter :=
  match snd item with
  | network_error _ statusCode =>
      Some (Chapter (fst item)
              (lit "Network Error (" ++ of_Z statusCode ++ lit ")"))
  | no_content_found _ => Some (Chapter (fst item) (lit "No Content Found"))
  | fetch_error _ message =>
      Some (Chapter (fst item) (lit "Fetch Error: " ++ message))
  | _ => None
  end.

(** The section of the merged text an outcome asks for. *)
Definition merged_section (item : jsstring * FetchResult) : jsstring :=
  match snd item with
  | success episodeTitle content =>
      [LF; LF] ++ lit "--- " ++ episodeTitle ++ lit " ---" ++ [LF; LF]
      ++ content
  | _ => []
  end.

(** A fetch and the delay after it, for each URL. *)
Definition paced (delayMs : Z) (urls : list jsstring) : list Event :=
  urls ≫= fun episodeUrl => [EvFetch episodeUrl; EvDelay delayMs].

End JobSpec.
Export JobSpec.


Module CrawlerSpec.
Import Orchestrator Crawler.

(** The links as strings, when no [href] is missing. *)
Fixpoint hrefs (links : Links) : option (list jsstring) :=
  match links with
  | [] => Some []
  | None :: _ => None
  | Some link :: rest => cons link <$> hrefs rest
  end.

(** The elements of the list for the chapters numbered [x] to [y], in the
    order of the list: the chapter numbered [e] is the [e]-th element from
    the end. *)
Definition chapters {A : Type} (episodeLinks : list A) (x y : nat) : list A :=
  take (y + 1 - x) (drop (length episodeLinks - y) episodeLinks).

Definition on_site (link : jsstring) : bool := starts_with novelPageRule link.

Definition QUESTION_MARK : N := 63%N.

(** The error the request of a page ends with, if it does. *)
Definition page_error (pages : Z -> jsstring -> PageReply)
    (currentUrl : jsstring) (page : Z) : option jsstring :=
  match fetchPage (pages page (nextPageUrl currentUrl page)) with
  | Throw message => Some message
  | Ret _ => None
  end.

(** The links a page contributes: none when the response is not ok. *)
Definition page_links (pages : Z -> jsstring -> PageReply)
    (currentUrl : jsstring) (page : Z) : Links :=
  match fetchPage (pages page (nextPageUrl currentUrl page)) with
  | Ret (Some links) => links
  | _ => []
  end.

(** The request of each page, followed by the delay of 500 ms. *)
Definition page_events (currentUrl : jsstring) (ps : list Z) : list Event :=
  ps ≫= fun page => [EvFetch (nextPageUrl currentUrl page); EvDelay 500%Z].

(** A valid chapter range of a list of [len] links. *)
Definition valid_range (len : nat) (x y : Z) : Prop :=
  (1 <= x /\ x <= y /\ y <= Z.of_nat len)%Z.

(** A delay the dialog accepts. *)
Definition valid_delay (delay : number) : Prop :=
  delay = Infinity false \/ exists z, delay = Num z /\ (1000 <= z)%Z.

End CrawlerSpec.
Export CrawlerSpec.
(** * Properties *)

#[local] Arguments N.eqb : simpl never.
#[local] Arguments N.leb : simpl never.

(** ** Strings *)

Module JsStringFacts.

Lemma starts_with_prefix (p s : jsstring) :
  starts_with p s = true -> exists t, s = p ++ t.
Proof.
  revert s; induction p as [|a p IH]; intros s H.
  - by exists s.
  - destruct s as [|b s]; simpl in H; [done|].
    apply andb_true_iff in H as [Hab Hp].
    apply N.eqb_eq in Hab as ->.
    destruct (IH _ Hp) as [t ->]. by exists t.
Qed.

Lemma starts_with_app (p t : jsstring) : starts_with p (p ++ t) = true.
Proof. induction p as [|a p IH]; simpl; [done|]. by rewrite N.eqb_refl. Qed.

Lemma split_lf_nil : split [LF] [] = [[]].
Proof. reflexivity. Qed.

Lemma split_lf_cons_lf (s : jsstring) :
  split [LF] (LF :: s) = [] :: split [LF] s.
Proof. reflexivity. Qed.

Lemma split_lf_cons_other (c : N) (s : jsstring) :
  c <> LF ->
  split [LF] (c :: s)
  = match split [LF] s with l :: ls => (c :: l) :: ls | [] => [[c]] end.
Proof.
  intros Hc. unfold split. simpl.
  destruct (LF =? c)%N eqn:E; [|done].
  apply N.eqb_eq in E. congruence.
Qed.

Lemma split_lf_cons (s : jsstring) : exists l ls, split [LF] s = l :: ls.
Proof.
  induction s as [|c s (l & ls & IH)]; [by eexists _, _|].
  destruct (decide (c = LF)) as [->|Hc].
  - rewrite split_lf_cons_lf. by eexists _, _.
  - rewrite split_lf_cons_other, IH by done. by eexists _, _.
Qed.

(** Splitting at line feeds distributes over a line feed. *)
Lemma split_lf_app (a b : jsstring) :
  split [LF] (a ++ LF :: b) = split [LF] a ++ split [LF] b.
Proof.
  induction a as [|c a IH]; [done|].
  rewrite <- app_comm_cons.
  destruct (decide (c = LF)) as [->|Hc].
  - by rewrite !split_lf_cons_lf, IH.
  - rewrite !split_lf_cons_other, IH by done.
    destruct (split_lf_cons a) as (l & ls & ->). done.
Qed.

Lemma split_lf_line (l : jsstring) : LF ∉ l -> split [LF] l = [l].
Proof.
  induction l as [|c l IH]; intros Hl; [done|].
  apply not_elem_of_cons in Hl as [Hc Hl].
  rewrite split_lf_cons_other, IH by done. done.
Qed.

Lemma split_lf_app_line (l rest : jsstring) :
  LF ∉ l -> split [LF] (l ++ LF :: rest) = l :: split [LF] rest.
Proof. intros Hl. by rewrite split_lf_app, split_lf_line. Qed.

Lemma split_lf_pieces (s : jsstring) :
  Forall (fun l => LF ∉ l) (split [LF] s).
Proof.
  induction s as [|c s IH].
  - repeat constructor. apply not_elem_of_nil.
  - destruct (decide (c = LF)) as [->|Hc].
    + rewrite split_lf_cons_lf. constructor; [apply not_elem_of_nil|done].
    + rewrite split_lf_cons_other by done.
      destruct (split [LF] s) as [|l ls].
      * repeat constructor. rewrite not_elem_of_cons. split; [congruence|].
        apply not_elem_of_nil.
      * inversion IH as [|? ? Hl Hls]; subst. constructor; [|done].
        rewrite not_elem_of_cons. split; [congruence|done].
Qed.

Lemma drop_spaces_suffix (s : jsstring) : drop_spaces s `suffix_of` s.
Proof.
  induction s as [|c s IH]; simpl; [done|].
  destruct (is_space c); [by apply suffix_cons_r|done].
Qed.

Lemma elem_of_trim (c : N) (s : jsstring) : c ∈ trim s -> c ∈ s.
Proof.
  unfold trim. rewrite elem_of_reverse. intros H.
  destruct (drop_spaces_suffix (reverse (drop_spaces s))) as [k Hk].
  assert (c ∈ reverse (drop_spaces s)) as H'.
  { rewrite Hk. apply elem_of_app. by right. }
  rewrite elem_of_reverse in H'.
  destruct (drop_spaces_suffix s) as [k' Hk'].
  rewrite Hk'. apply elem_of_app. by right.
Qed.

(** The first piece of a split is the text before the first occurrence of
    the separator. *)
Lemma split_head_no_occurrence (sep s : jsstring) :
  (forall k, starts_with sep (drop k s) = false) ->
  head (split sep s) = Some s.
Proof.
  unfold split. induction s as [|c s IH]; intros H; [done|].
  simpl. pose proof (H 0%nat) as H0. simpl in H0. rewrite H0.
  assert (head (split_go sep 0 s) = Some s) as IH'.
  { apply IH. intros k. apply (H (S k)). }
  destruct (split_go sep 0 s); simpl in *; congruence.
Qed.

Lemma split_head_first_occurrence (sep pre post : jsstring) :
  sep <> [] ->
  (forall k, (k < length pre)%nat ->
             starts_with sep (drop k (pre ++ sep ++ post)) = false) ->
  head (split sep (pre ++ sep ++ post)) = Some pre.
Proof.
  intros Hsep. unfold split. induction pre as [|c pre IH]; intros H.
  - destruct sep as [|a sep]; [done|]. simpl.
    rewrite N.eqb_refl, starts_with_app. done.
  - simpl. pose proof (H 0%nat ltac:(simpl; lia)) as H0. simpl in H0.
    rewrite H0.
    assert (head (split_go sep 0 (pre ++ sep ++ post)) = Some pre) as IH'.
    { apply IH. intros k Hk. apply (H (S k)). simpl; lia. }
    destruct (split_go sep 0 (pre ++ sep ++ post)); simpl in *; congruence.
Qed.

End JsStringFacts.
Import JsStringFacts.

(** ** The matcher *)

Module RegexFacts.

Lemma match_here_lits (l : jsstring) (re : regex) (s : jsstring) (pos : nat)
    (gs ge : option nat) :
  match_here (lits l ++ re) (l ++ s) pos gs ge
  = match_here re s (pos + length l) gs ge.
Proof.
  revert pos; induction l as [|c l IH]; intros pos; simpl.
  - by rewrite Nat.add_0_r.
  - rewrite N.eqb_refl, IH. f_equal. lia.
Qed.

Lemma match_here_lits_inv (l : jsstring) (re : regex) (s : jsstring)
    (pos : nat) (gs ge : option nat) (r : mres) :
  match_here (lits l ++ re) s pos gs ge = Some r ->
  exists s', s = l ++ s'
             /\ match_here re s' (pos + length l) gs ge = Some r.
Proof.
  revert s pos; induction l as [|c l IH]; intros s pos H; simpl in *.
  - exists s. by rewrite Nat.add_0_r.
  - destruct s as [|x s]; [done|].
    destruct (x =? c)%N eqn:E; [|done]. apply N.eqb_eq in E as ->.
    apply IH in H as (s' & -> & H). exists s'. split; [done|].
    rewrite <- H. f_equal. lia.
Qed.

Lemma rep_greedy_inv (p : N -> bool) (min : nat)
    (k : jsstring -> nat -> option mres) (s : jsstring) (pos cnt : nat)
    (r : mres) :
  rep_greedy p min k s pos cnt = Some r ->
  exists u rest, s = u ++ rest /\ forallb p u = true
                 /\ (min <= cnt + length u)%nat
                 /\ k rest (pos + length u) = Some r.
Proof.
  revert pos cnt; induction s as [|c s IH]; intros pos cnt H; simpl in H.
  - destruct (min <=? cnt)%nat eqn:E; [|done]. apply Nat.leb_le in E.
    exists [], []. simpl. rewrite !Nat.add_0_r. split_and!; [done|done|lia|done].
  - assert (((min <=? cnt)%nat = true /\ k (c :: s) pos = Some r) ->
            exists u rest, c :: s = u ++ rest /\ forallb p u = true
                           /\ (min <= cnt + length u)%nat
                           /\ k rest (pos + length u) = Some r) as Hstop.
    { intros [E Hk]. apply Nat.leb_le in E. exists [], (c :: s). simpl.
      rewrite !Nat.add_0_r. split_and!; [done|done|lia|done]. }
    destruct (p c) eqn:Pc.
    + destruct (rep_greedy p min k s (S pos) (S cnt)) as [r'|] eqn:R.
      * injection H as ->.
        apply IH in R as (u & rest & -> & Hu & Hm & Hk).
        exists (c :: u), rest. simpl. rewrite Pc, Hu.
        split_and!; [done|done|lia|]. rewrite <- Hk. f_equal. lia.
      * destruct (min <=? cnt)%nat eqn:E; [|done]. by apply Hstop.
    + destruct (min <=? cnt)%nat eqn:E; [|done]. by apply Hstop.
Qed.

(** A repetition followed by a rest of the pattern that accepts right
    after the longest run takes the longest run. *)
Lemma rep_greedy_max (p : N -> bool) (min : nat)
    (k : jsstring -> nat -> option mres) (u rest : jsstring)
    (pos cnt : nat) :
  forallb p u = true ->
  match rest with [] => True | c :: _ => p c = false end ->
  (min <= cnt + length u)%nat ->
  is_Some (k rest (pos + length u)) ->
  rep_greedy p min k (u ++ rest) pos cnt = k rest (pos + length u).
Proof.
  revert pos cnt; induction u as [|c u IH]; intros pos cnt Hu Hrest Hmin Hk;
    simpl in *.
  - rewrite Nat.add_0_r in *.
    assert ((min <=? cnt)%nat = true) as Hle by (apply Nat.leb_le; lia).
    destruct rest as [|c rest]; simpl; rewrite ?Hrest, Hle; done.
  - apply andb_true_iff in Hu as [-> Hu].
    replace (pos + S (length u))%nat with (S pos + length u)%nat in * by lia.
    rewrite IH; [|done|done|lia|done].
    by destruct Hk as [r ->].
Qed.

Lemma match_here_opt_skip (p : N -> bool) (re : regex) (s : jsstring)
    (pos : nat) (gs ge : option nat) :
  match s with [] => True | c :: _ => p c = false end ->
  match_here (Opt p :: re) s pos gs ge = match_here re s pos gs ge.
Proof. destruct s as [|c s]; simpl; [done|]. by intros ->. Qed.

Lemma match_here_opt_take (p : N -> bool) (re : regex) (c : N)
    (s : jsstring) (pos : nat) (gs ge : option nat) :
  p c = true ->
  is_Some (match_here re s (S pos) gs ge) ->
  match_here (Opt p :: re) (c :: s) pos gs ge
  = match_here re s (S pos) gs ge.
Proof. simpl. intros -> [r ->]. done. Qed.

Lemma match_here_opt_inv (p : N -> bool) (re : regex) (s : jsstring)
    (pos : nat) (gs ge : option nat) (r : mres) :
  match_here (Opt p :: re) s pos gs ge = Some r ->
  (exists c s', s = c :: s' /\ p c = true
                /\ match_here re s' (S pos) gs ge = Some r)
  \/ match_here re s pos gs ge = Some r.
Proof.
  simpl. destruct s as [|c s]; [by right|].
  destruct (p c) eqn:Pc; [|by right].
  destruct (match_here re s (S pos) gs ge) as [r'|] eqn:M; [|by right].
  intros [= ->]. left. by exists c, s.
Qed.

Lemma search_go_hit (re : regex) (whole s : jsstring) (pos : nat)
    (r : mres) :
  match_here re s pos None None = Some r ->
  search_go re whole s pos
  = Some (match g_start r, g_end r with
          | Some a, Some b => Some (take (b - a) (drop a whole))
          | _, _ => None
          end).
Proof. intros H. destruct s; simpl; by rewrite H. Qed.

Lemma search_go_inv (re : regex) (pre s : jsstring)
    (cap : option jsstring) :
  search_go re (pre ++ s) s (length pre) = Some cap ->
  exists pre' s' r,
    pre ++ s = pre' ++ s'
    /\ match_here re s' (length pre') None None = Some r
    /\ cap = match g_start r, g_end r with
             | Some a, Some b => Some (take (b - a) (drop a (pre' ++ s')))
             | _, _ => None
             end.
Proof.
  revert pre; induction s as [|c s IH]; intros pre H; simpl in H.
  - destruct (match_here re [] (length pre) None None) as [r|] eqn:M;
      [|done].
    injection H as <-. by exists pre, [], r.
  - destruct (match_here re (c :: s) (length pre) None None) as [r|] eqn:M.
    + injection H as <-. by exists pre, (c :: s), r.
    + specialize (IH (pre ++ [c])).
      rewrite <- app_assoc, length_app in IH. simpl in IH.
      rewrite Nat.add_1_r in IH.
      destruct (IH H) as (pre' & s' & r & Heq & Hm & Hcap).
      exists pre', s', r. by rewrite <- Heq in *.
Qed.

End RegexFacts.
Import RegexFacts.

(** ** The report codec *)

Module ReportFacts.

Lemma parseReportFile_app (a b : jsstring) :
  parseReportFile (a ++ LF :: b) = parseReportFile a ++ parseReportFile b.
Proof. unfold parseReportFile. by rewrite split_lf_app, omap_app. Qed.

Lemma parseReportFile_line (l : jsstring) :
  LF ∉ l ->
  parseReportFile l = match parse_line l with Some u => [u] | None => [] end.
Proof.
  intros Hl. unfold parseReportFile. rewrite split_lf_line by done.
  simpl. by destruct (parse_line l).
Qed.

Lemma forallb_not_space_lf (u : jsstring) :
  forallb not_space u = true -> LF ∉ u.
Proof.
  intros H Hin. apply list_elem_of_In in Hin.
  rewrite forallb_forall in H. by apply H in Hin.
Qed.

(** The match of [re_url] at the head of a well-formed report line. *)
Lemma match_url_line (scheme body rest : jsstring) :
  scheme = lit "http://" \/ scheme = lit "https://" ->
  body <> [] ->
  forallb not_space body = true ->
  match rest with [] => True | c :: _ => not_space c = false end ->
  match_here re_url (lit "URL: " ++ scheme ++ body ++ rest) 0 None None
  = Some (MRes (5 + length (scheme ++ body)) (Some 5)
               (Some (5 + length (scheme ++ body)))).
Proof.
  intros Hscheme Hbody Hns Hrest.
  assert (forall pos,
    rep_greedy not_space 1
      (fun s' pos' => match_here [GClose] s' pos' (Some 5) None)
      (body ++ rest) pos 0
    = Some (MRes (pos + length body) (Some 5) (Some (pos + length body))))
    as Hrep.
  { intros pos. rewrite rep_greedy_max; [done|done|done| |by eexists].
    destruct body; [done|simpl; lia]. }
  unfold re_url. rewrite match_here_lits.
  change (match_here ([GOpen] ++ ?re) ?s ?pos ?gs ?ge)
    with (match_here re s pos (Some pos) ge).
  assert (forall pos,
    match_here (lits (lit "://") ++ [Rep not_space 1; GClose])
      (lit "://" ++ body ++ rest) pos (Some 5) None
    = Some (MRes (pos + 3 + length body) (Some 5)
                 (Some (pos + 3 + length body)))) as Hk.
  { intros pos. rewrite match_here_lits. cbn [match_here]. by rewrite Hrep. }
  destruct Hscheme as [-> | ->].
  - change (lit "http://") with (lit "http" ++ lit "://").
    rewrite <- !app_assoc, match_here_lits.
    change ([Opt ?p] ++ ?re) with (Opt p :: re).
    rewrite match_here_opt_skip by done.
    change (0 + length (lit "URL: ")) with 5. rewrite Hk.
    rewrite !length_app. do 3 f_equal; simpl; lia.
  - change (lit "https://") with (lit "http" ++ 115%N :: lit "://").
    rewrite <- !app_assoc, match_here_lits.
    change ([Opt ?p] ++ ?re) with (Opt p :: re).
    change ((115%N :: lit "://") ++ body ++ rest)
      with (115%N :: lit "://" ++ body ++ rest).
    change (0 + length (lit "URL: ")) with 5.
    rewrite match_here_opt_take; [|done|by rewrite Hk].
    rewrite Hk. rewrite !length_app. do 3 f_equal; simpl; lia.
Qed.

Lemma retryable_url_shape (u : jsstring) :
  retryable_url u = true ->
  exists scheme body,
    u = scheme ++ body
    /\ (scheme = lit "http://" \/ scheme = lit "https://")
    /\ body <> [] /\ forallb not_space body = true.
Proof.
  unfold retryable_url. intros H.
  apply andb_true_iff in H as [H Hns].
  apply orb_true_iff in H as [H|H];
    apply andb_true_iff in H as [Hpre Hlen];
    apply starts_with_prefix in Hpre as [body ->];
    apply Nat.ltb_lt in Hlen; rewrite length_app in Hlen;
    rewrite forallb_app in Hns; apply andb_true_iff in Hns as [_ Hns];
    eexists _, body;
    (split_and!; [done|auto|by destruct body; simpl in *; [lia|]|done]).
Qed.

Lemma parse_line_report_line (item : chapter) :
  retryable_url (url item) = true ->
  parse_line (report_line item) = Some (url item).
Proof.
  intros Hu. destruct item as [u reason]. simpl in Hu.
  destruct (retryable_url_shape u Hu) as (scheme & body & -> & Hs & Hb & Hns).
  unfold parse_line, match_group1, report_line. simpl url. simpl Report.reason.
  rewrite <- !app_assoc.
  erewrite search_go_hit; [|by apply match_url_line].
  cbv beta iota delta [g_start g_end].
  replace (5 + length (scheme ++ body) - 5) with (length (scheme ++ body))
    by lia.
  change 5 with (length (lit "URL: ")).
  rewrite drop_app_length.
  rewrite (app_assoc scheme body), take_app_length.
  destruct (scheme ++ body) eqn:E; [|done].
  apply app_eq_nil in E as [_ ?]. done.
Qed.

Lemma reportContent_sections (skipped incomplete : list chapter) :
  reportContent skipped incomplete
  = lit "--- Skipped Chapters (CAPTCHA / 403) ---"
    ++ LF :: section_text skipped (lit "No chapters skipped due to CAPTCHA.")
    ++ LF :: [] ++ LF :: lit "--- Incomplete/Failed Chapters ---"
    ++ LF :: section_text incomplete (lit "No chapters incomplete or failed.")
    ++ LF :: [].
Proof.
  unfold reportContent, section_text.
  destruct (0 <? length skipped), (0 <? length incomplete);
    rewrite <- !app_assoc; reflexivity.
Qed.

Lemma lit_no_lf (s : string) :
  forallb (fun c => negb (c =? LF)%N) (lit s) = true -> LF ∉ lit s.
Proof.
  intros H Hin. apply list_elem_of_In in Hin.
  rewrite forallb_forall in H. apply H in Hin.
  by rewrite N.eqb_refl in Hin.
Qed.

Lemma report_line_no_lf (item : chapter) :
  retryable_url (url item) = true -> LF ∉ reason item ->
  LF ∉ report_line item.
Proof.
  intros Hu Hr. unfold report_line.
  apply andb_true_iff in Hu as [_ Hu]. apply forallb_not_space_lf in Hu.
  rewrite !not_elem_of_app. split_and!; try done; by apply lit_no_lf.
Qed.

Lemma parse_report_lines (items : list chapter) :
  Forall (fun item => retryable_url (url item) = true /\ LF ∉ reason item)
         items ->
  items <> [] ->
  parseReportFile (join [LF] (report_line <$> items)) = url <$> items.
Proof.
  induction items as [|item items IH]; intros Hok Hne; [done|].
  apply Forall_cons in Hok as [[Hu Hr] Hok].
  destruct items as [|item' items].
  - simpl. rewrite parseReportFile_line by by apply report_line_no_lf.
    by rewrite parse_line_report_line.
  - change (join [LF] (report_line <$> item :: item' :: items))
      with (report_line item ++ LF :: join [LF] (report_line <$> item' :: items)).
    rewrite parseReportFile_app, IH by done.
    rewrite parseReportFile_line by by apply report_line_no_lf.
    by rewrite parse_line_report_line.
Qed.

Lemma parse_section (items : list chapter) (none : jsstring) :
  Forall (fun item => retryable_url (url item) = true /\ LF ∉ reason item)
         items ->
  parseReportFile none = [] ->
  parseReportFile (section_text items none) = url <$> items.
Proof.
  intros Hok Hnone. unfold section_text. destruct items as [|item items].
  - done.
  - change (0 <? length (item :: items)) with true. cbv iota.
    by apply parse_report_lines.
Qed.

Lemma starts_with_app_r (p s t : jsstring) :
  starts_with p s = true -> starts_with p (s ++ t) = true.
Proof.
  intros H. apply starts_with_prefix in H as [k ->].
  rewrite <- app_assoc. apply starts_with_app.
Qed.

(** What a line contributes was found after the marker, begins with a
    scheme and holds no white space. *)
Lemma parse_line_sound (line u : jsstring) :
  parse_line line = Some u ->
  has_scheme u = true /\ forallb not_space u = true
  /\ exists pre post, line = pre ++ lit "URL: " ++ u ++ post.
Proof.
  unfold parse_line, match_group1. intros H.
  destruct (search_go re_url line line 0) as [cap|] eqn:S; [|done].
  apply (search_go_inv re_url [] line) in S
    as (pre & s & r & Hline & Hm & ->). simpl in Hline. subst line.
  unfold re_url in Hm.
  apply match_here_lits_inv in Hm as (s1 & -> & Hm).
  change (match_here ([GOpen] ++ ?re) ?s ?pos ?gs ?ge)
    with (match_here re s pos (Some pos) ge) in Hm.
  apply match_here_lits_inv in Hm as (s2 & -> & Hm).
  change ([Opt ?p] ++ ?re) with (Opt p :: re) in Hm.
  assert (exists scheme s3,
            (scheme = lit "http://" \/ scheme = lit "https://")
            /\ lit "http" ++ s2 = scheme ++ s3
            /\ match_here [Rep not_space 1; GClose] s3
                 (length pre + 5 + length scheme)
                 (Some (length pre + 5)) None = Some r)
    as (scheme & s3 & Hscheme & Hs2 & Hm').
  { apply match_here_opt_inv in Hm as [(c & s' & -> & Hc & Hm)|Hm].
    - apply N.eqb_eq in Hc as <-.
      apply match_here_lits_inv in Hm as (s3 & -> & Hm).
      exists (lit "https://"), s3. split_and!; [by right|done|].
      rewrite <- Hm. f_equal; simpl; lia.
    - apply match_here_lits_inv in Hm as (s3 & -> & Hm).
      exists (lit "http://"), s3. split_and!; [by left|done|].
      rewrite <- Hm. f_equal; simpl; lia. }
  rewrite Hs2 in *. clear Hs2 Hm s2.
  cbn [match_here] in Hm'.
  apply rep_greedy_inv in Hm' as (body & rest & -> & Hns & Hlen & Hk).
  injection Hk as <-. cbv beta iota delta [g_start g_end] in H.
  assert (pre ++ lit "URL: " ++ scheme ++ body ++ rest
          = (pre ++ lit "URL: ") ++ (scheme ++ body) ++ rest) as Heq
    by (by rewrite <- !app_assoc).
  rewrite Heq in H.
  replace (length pre + 5) with (length (pre ++ lit "URL: ")) in H
    by (by rewrite length_app).
  rewrite drop_app_length in H.
  replace (length (pre ++ lit "URL: ") + length scheme + length body
           - length (pre ++ lit "URL: "))
    with (length (scheme ++ body)) in H by (rewrite length_app; lia).
  rewrite take_app_length in H.
  destruct (0 <? length (scheme ++ body)); [|done]. injection H as <-.
  split_and!.
  - unfold has_scheme. apply orb_true_iff.
    destruct Hscheme as [-> | ->]; [left|right]; apply starts_with_app.
  - rewrite forallb_app, Hns, andb_true_r.
    by destruct Hscheme as [-> | ->].
  - exists pre, rest. by rewrite <- !app_assoc.
Qed.

Lemma parse_line_none (line : jsstring) :
  (forall pre post, marker_at line pre post -> has_scheme post = false) ->
  parse_line line = None.
Proof.
  intros H. destruct (parse_line line) as [u|] eqn:E; [|done].
  apply parse_line_sound in E as (Hs & _ & pre & post & ->).
  specialize (H pre (u ++ post) eq_refl).
  unfold has_scheme in *. apply orb_true_iff in Hs.
  apply orb_false_iff in H as [H1 H2].
  destruct Hs as [Hs|Hs]; apply (starts_with_app_r _ _ post) in Hs; congruence.
Qed.

Lemma parseReportFile_sound (fileContent u : jsstring) :
  u ∈ parseReportFile fileContent ->
  has_scheme u = true /\ forallb not_space u = true.
Proof.
  unfold parseReportFile. rewrite list_elem_of_omap.
  intros (line & _ & Hline).
  by apply parse_line_sound in Hline as (? & ? & _).
Qed.

(** C1, as stated, fails: a URL of the chapter list that holds a blank (the
    list is read from [href] attributes as written in the page) comes back
    cut at the blank; a URL without scheme does not come back; and a
    reason that goes on after a line feed (the message of a fetch error)
    can bring a URL of its own. *)
Lemma report_roundtrip_fails :
  let blank :=
    [Chapter (lit "https://booktoki.example/novel/1?title=a b")
             (lit "CAPTCHA (403)")] in
  let relative := [Chapter (lit "/novel/2") (lit "No Content Found")] in
  let two_lines :=
    [Chapter (lit "https://booktoki.example/novel/3")
             (lit "Fetch Error: see" ++ [LF] ++ lit "URL: http://other.example/")]
  in
  (parseReportFile (reportContent blank [])
   = [lit "https://booktoki.example/novel/1?title=a"]
   /\ parseReportFile (reportContent blank []) <> (url <$> blank) ++ [])
  /\ (parseReportFile (reportContent [] relative) = []
      /\ parseReportFile (reportContent [] relative) <> [] ++ (url <$> relative))
  /\ (parseReportFile (reportContent [] two_lines)
      = [lit "https://booktoki.example/novel/3"; lit "http://other.example/)"]
      /\ parseReportFile (reportContent [] two_lines)
         <> [] ++ (url <$> two_lines)).
Proof.
  split_and!; try (by vm_compute); vm_compute; intros [=].
Qed.

(** C1 (amended): when every URL of the skipped and incomplete lists
    begins with "http://" or "https://", goes on for at least one more
    code unit and holds no white space, and no reason holds a line feed,
    parsing the text of the report gives exactly the URLs of the skipped
    entries followed by those of the incomplete entries, in that order and
    with duplicates. *)
Theorem report_roundtrip (skipped incomplete : list chapter) :
  Forall (fun item => retryable_url (url item) = true /\ LF ∉ reason item)
         (skipped ++ incomplete) ->
  parseReportFile (reportContent skipped incomplete)
  = (url <$> skipped) ++ (url <$> incomplete).
Proof.
  intros Hok. apply Forall_app in Hok as [Hsk Hinc].
  rewrite reportContent_sections.
  rewrite !parseReportFile_app.
  rewrite !parse_section by (done || by vm_compute).
  change (parseReportFile []) with (@nil jsstring).
  change (parseReportFile (lit "--- Skipped Chapters (CAPTCHA / 403) ---"))
    with (@nil jsstring).
  change (parseReportFile (lit "--- Incomplete/Failed Chapters ---"))
    with (@nil jsstring).
  by rewrite !app_nil_r.
Qed.

(** The round trip on a report with a repeated URL and both schemes. *)
Lemma report_roundtrip_witness :
  let skipped :=
    [Chapter (lit "https://booktoki.example/novel/1") (lit "CAPTCHA (403)");
     Chapter (lit "https://booktoki.example/novel/1") (lit "CAPTCHA (403)")] in
  let incomplete :=
    [Chapter (lit "http://booktoki.example/novel/2")
             (lit "Network Error (500)")] in
  parseReportFile (reportContent skipped incomplete)
  = [lit "https://booktoki.example/novel/1";
     lit "https://booktoki.example/novel/1";
     lit "http://booktoki.example/novel/2"].
Proof.
  intros skipped incomplete.
  apply (report_roundtrip skipped incomplete).
  repeat constructor; try reflexivity; by apply lit_no_lf.
Defined.

(** C9, as stated, fails on a line with two markers: the text after the
    first one does not begin with a scheme, yet the line contributes the
    URL after the second one. *)
Lemma parse_line_second_marker :
  let line := lit "URL: see URL: http://host/x" in
  marker_at line [] (lit "see URL: http://host/x")
  /\ has_scheme (lit "see URL: http://host/x") = false
  /\ parseReportFile line = [lit "http://host/x"].
Proof. by vm_compute. Qed.

(** C9 (amended): every URL returned by [parseReportFile] begins with
    "http://" or "https://" and holds no white space; a line in which no
    occurrence of the marker "URL: " is followed by text beginning with
    such a scheme contributes no URL to the result. *)
Theorem parseReportFile_urls :
  (forall fileContent u,
      u ∈ parseReportFile fileContent ->
      has_scheme u = true /\ forallb not_space u = true)
  /\ (forall line,
        (forall pre post,
            marker_at line pre post -> has_scheme post = false) ->
        parse_line line = None
        /\ (LF ∉ line ->
            forall before after,
              parseReportFile (before ++ LF :: line ++ LF :: after)
              = parseReportFile before ++ parseReportFile after)).
Proof.
  split; [apply parseReportFile_sound|].
  intros line Hline. pose proof (parse_line_none line Hline) as Hnone.
  split; [done|]. intros Hlf before after.
  rewrite !parseReportFile_app, (parseReportFile_line line), Hnone by done.
  done.
Qed.

End ReportFacts.

(** ** Content normalisation *)

Module ContentFacts.

Lemma lf3_free_spec (s : jsstring) :
  lf3_free s = true -> forall pre post, s <> pre ++ [LF; LF; LF] ++ post.
Proof.
  intros H pre. revert s H. induction pre as [|a pre IH]; intros s H post ->.
  - simpl in H. by rewrite ?N.eqb_refl in H.
  - simpl in H. apply andb_true_iff in H as [_ H]. by eapply IH.
Qed.

Lemma lf3_free_cons_other (c : N) (s : jsstring) :
  c <> LF -> lf3_free (c :: s) = lf3_free s.
Proof.
  intros Hc. simpl. destruct (LF =? c)%N eqn:E; [|done].
  apply N.eqb_eq in E. congruence.
Qed.

Lemma lf3_free_line (l : jsstring) : LF ∉ l -> lf3_free l = true.
Proof.
  induction l as [|c l IH]; [done|]. intros H.
  apply not_elem_of_cons in H as [Hc Hl].
  rewrite lf3_free_cons_other by done. auto.
Qed.

Lemma lf3_free_blank_line (l t : jsstring) (c : N) :
  LF ∉ l -> c <> LF -> lf3_free (c :: t) = true ->
  lf3_free (l ++ LF :: LF :: c :: t) = true.
Proof.
  intros Hl Hc Ht. induction l as [|a l IH].
  - rewrite lf3_free_cons_other in Ht by done.
    simpl.
    destruct (LF =? c)%N eqn:E; [apply N.eqb_eq in E; congruence|].
    done.
  - apply not_elem_of_cons in Hl as [Ha Hl].
    rewrite <- app_comm_cons, lf3_free_cons_other by done. auto.
Qed.

Lemma lf3_free_join (paragraphs : list jsstring) :
  Forall paragraph paragraphs ->
  lf3_free (join [LF; LF] paragraphs) = true.
Proof.
  induction paragraphs as [|p ps IH]; intros H; [done|].
  apply Forall_cons in H as [[Hne Hp] Hps].
  destruct ps as [|q ps]; [by apply lf3_free_line|].
  change (join [LF; LF] (p :: q :: ps))
    with (p ++ LF :: LF :: join [LF; LF] (q :: ps)).
  specialize (IH Hps).
  pose proof Hps as Hq. apply Forall_cons in Hq as [[Hqne Hq] _].
  remember (join [LF; LF] (q :: ps)) as j eqn:Hj.
  destruct q as [|c q]; [done|]. apply not_elem_of_cons in Hq as [Hc Hq].
  assert (exists t, j = c :: t) as [t ->].
  { destruct ps; simpl in Hj; by eexists. }
  by apply lf3_free_blank_line.
Qed.

Lemma match_newlines_none (s : jsstring) :
  starts_with [LF; LF; LF] s = false -> match_len re_newlines s = None.
Proof.
  intros H. unfold match_len, re_newlines. cbn [match_here].
  destruct (rep_greedy _ _ _ _ _ _) as [r|] eqn:R; [|done].
  apply rep_greedy_inv in R as (u & rest & -> & Hu & Hlen & _).
  destruct u as [|a [|b [|c u]]]; simpl in Hlen; try lia.
  simpl in Hu. unfold is_lf in Hu.
  repeat (apply andb_true_iff in Hu as [?%N.eqb_eq Hu]). subst.
  simpl in H. by rewrite ?N.eqb_refl in H.
Qed.

(** The last replacement of [cleanText] leaves a text without three line
    feeds in a row as it is. *)
Lemma replace_newlines_id (s : jsstring) :
  lf3_free s = true -> replace_all re_newlines [LF; LF] s = s.
Proof.
  unfold replace_all. induction s as [|c s IH]; intros H.
  - reflexivity.
  - simpl in H. apply andb_true_iff in H as [Hc H].
    apply negb_true_iff in Hc.
    cbn [replace_go]. rewrite match_newlines_none by done.
    by rewrite IH.
Qed.

Lemma paragraphs_of_lines (s : jsstring) :
  Forall paragraph
    (filter (fun line => (0 <? length line)%nat) (trim <$> split [LF] s)).
Proof.
  apply Forall_forall. intros p Hp.
  apply list_elem_of_filter in Hp as [Hlen Hp].
  apply list_elem_of_fmap in Hp as (l & -> & Hl).
  split.
  - intros E. rewrite E in Hlen. done.
  - intros Hin. apply elem_of_trim in Hin.
    pose proof (split_lf_pieces s) as Hs.
    rewrite Forall_forall in Hs. by apply (Hs l).
Qed.

(** The shape of every result of [cleanText]. *)
Lemma cleanText_paragraphs (text : jsstring) :
  exists paragraphs,
    cleanText text = join [LF; LF] paragraphs /\ Forall paragraph paragraphs.
Proof.
  unfold cleanText. eexists. split; [|apply paragraphs_of_lines].
  apply replace_newlines_id, lf3_free_join, paragraphs_of_lines.
Qed.

(** C7: on the input of the specification the result is "Hello", one
    blank line, and the image placeholder, with no angle bracket left; and
    on every input the result is a sequence of non-empty one-line
    paragraphs separated by exactly one blank line, so that it never holds
    three line feeds in a row. *)
Theorem cleanText_blank_lines :
  (cleanText (lit "<p>Hello</p><br/><img src=x>")
   = lit "Hello" ++ [LF; LF] ++ lit "[Image Skipped]"
   /\ (60%N ∉ cleanText (lit "<p>Hello</p><br/><img src=x>"))
   /\ (62%N ∉ cleanText (lit "<p>Hello</p><br/><img src=x>")))
  /\ (forall text,
        (exists paragraphs,
            cleanText text = join [LF; LF] paragraphs
            /\ Forall paragraph paragraphs)
        /\ forall pre post, cleanText text <> pre ++ [LF; LF; LF] ++ post).
Proof.
  split.
  - split_and!; [by vm_compute| |]; apply (bool_decide_unpack _); by vm_compute.
  - intros text. split; [apply cleanText_paragraphs|].
    destruct (cleanText_paragraphs text) as (ps & -> & Hps).
    by apply lf3_free_spec, lf3_free_join.
Qed.

End ContentFacts.

(** ** The fetch classifier *)

Module FetchFacts.


Lemma first_match_none (doc : Document) (selectors : list jsstring) :
  first_match doc selectors = None
  <-> Forall (fun selector => querySelector doc selector = None) selectors.
Proof.
  induction selectors as [|s ss IH]; simpl.
  - split; [constructor|done].
  - destruct (querySelector doc s) eqn:Q.
    + split; [done|]. intros H. apply Forall_cons in H as [H _]. congruence.
    + rewrite IH. split; [by constructor|by intros [_ ?]%Forall_cons].
Qed.

(** The first selector with a match decides. *)
Lemma first_match_first (doc : Document) (before after : list jsstring)
    (selector : jsstring) (e : Element) :
  Forall (fun s => querySelector doc s = None) before ->
  querySelector doc selector = Some e ->
  first_match doc (before ++ selector :: after) = Some e.
Proof.
  intros Hb Hs. induction Hb as [|s before Hs' _ IH]; simpl.
  - by rewrite Hs.
  - by rewrite Hs'.
Qed.

Lemma first_match_some (doc : Document) (selectors : list jsstring)
    (e : Element) :
  first_match doc selectors = Some e ->
  exists before selector after,
    selectors = before ++ selector :: after
    /\ Forall (fun s => querySelector doc s = None) before
    /\ querySelector doc selector = Some e.
Proof.
  induction selectors as [|s ss IH]; simpl; [done|].
  destruct (querySelector doc s) as [e'|] eqn:Q.
  - intros [= ->]. by exists [], s, ss.
  - intros H. destruct (IH H) as (before & selector & after & -> & Hb & Hs).
    exists (s :: before), selector, after. split_and!; [done| |done].
    by constructor.
Qed.



(** C3: [fetchNovelContent] always returns one of its five outcomes, by
    the answer of the network: status 403 gives [captcha]; any other
    status outside 200..299 gives [network_error] with that status; an
    error thrown by the fetch or by the reading of the body gives
    [fetch_error] with the message of the error; a page in which no
    content selector has a match gives [no_content_found]; anything else
    gives [success] with the title and the cleaned content; and only
    [success] carries a content string. *)
Theorem fetch_classification (reply : NetReply) (url : jsstring) :
  let r := fetchNovelContent reply url in
  (forall body, reply = NetResponse 403 body -> r = captcha url)
  /\ (forall status body,
        reply = NetResponse status body ->
        status <> 403%Z -> ~ (200 <= status <= 299)%Z ->
        r = network_error url status)
  /\ (forall message, reply = NetError message -> r = fetch_error url message)
  /\ (forall status message,
        reply = NetResponse status (BodyError message) ->
        (200 <= status <= 299)%Z ->
        r = fetch_error url message)
  /\ (forall status doc,
        reply = NetResponse status (BodyDoc doc) ->
        (200 <= status <= 299)%Z ->
        Forall (fun s => querySelector doc s = None) contentSelectors ->
        r = no_content_found url)
  /\ (forall status doc before selector after e,
        reply = NetResponse status (BodyDoc doc) ->
        (200 <= status <= 299)%Z ->
        contentSelectors = before ++ selector :: after ->
        Forall (fun s => querySelector doc s = None) before ->
        querySelector doc selector = Some e ->
        let title := episodeTitle_of doc in
        let cleaned := cleanText (innerHTML e) in
        r = success title
              (if starts_with title cleaned
               then trim (drop (length title) cleaned)
               else cleaned))
  /\ (forall content,
        content_of r = Some content ->
        exists title, r = success title content).
Proof.
  intros r. subst r.
  assert (forall status, (200 <= status <= 299)%Z ->
            (status =? 403)%Z = false /\ response_ok status = true) as Hok.
  { intros status H. unfold response_ok. split; [lia|].
    apply andb_true_iff. lia. }
  split_and!.
  - by intros body ->.
  - intros status body -> H403 Hok'.
    unfold fetchNovelContent, await_fetch, mbind, Exn_bind.
    assert ((status =? 403)%Z = false) as -> by lia.
    assert (response_ok status = false) as ->; [|done].
    unfold response_ok. apply andb_false_iff. lia.
  - by intros message ->.
  - intros status message -> [H403 Hr]%Hok.
    unfold fetchNovelContent, await_fetch, await_document, mbind, Exn_bind.
    by rewrite H403, Hr.
  - intros status doc -> [H403 Hr]%Hok Hnone.
    apply first_match_none in Hnone.
    unfold fetchNovelContent, await_fetch, await_document, mbind, Exn_bind.
    by rewrite H403, Hr, Hnone.
  - intros status doc before selector after e -> [H403 Hr]%Hok Hsel Hb Hs.
    unfold fetchNovelContent, await_fetch, await_document, mbind, Exn_bind.
    by rewrite H403, Hr, Hsel, (first_match_first _ _ _ _ e).
  - intros content. destruct (fetchNovelContent reply url); try done.
    intros [= ->]. by eexists.
Qed.

End FetchFacts.

(** ** The progress tracker *)

Module ProgressFacts.
Import Progress.



End ProgressFacts.

(** ** The download loop *)

Module OrchestratorFacts.
Import Orchestrator.

Section Run.
Context (w : World) (delayMs : Z) (saveAsZip : bool).

Lemma handled_record_result (episodeUrl : jsstring) (result : FetchResult)
    (st : LoopState) :
  handled (record_result saveAsZip episodeUrl result st) = S (handled st).
Proof.
  unfold handled. destruct result; simpl; rewrite ?length_app; simpl; lia.
Qed.

Lemma grows_one_record_result (episodeUrl : jsstring) (result : FetchResult)
    (st : LoopState) :
  grows_one st (record_result saveAsZip episodeUrl result st).
Proof.
  unfold grows_one. destruct result; simpl; eauto 10.
Qed.

Lemma grows_one_iteration (i : nat) (episodeUrl : jsstring) (st : LoopState) :
  grows_one st (iteration w delayMs saveAsZip i episodeUrl st).
Proof.
  unfold iteration, end_iteration.
  destruct (Progress.update _ _ _) as [stats tracker].
  exact (grows_one_record_result episodeUrl _ (begin_fetch w i episodeUrl st)).
Qed.

Lemma grows_one_handled (st st' : LoopState) :
  grows_one st st' -> handled st' = S (handled st).
Proof.
  unfold grows_one, handled.
  intros [(-> & -> & ->)|[(-> & [item ->] & ->)|(-> & -> & [item ->])]];
    rewrite ?length_app; simpl; lia.
Qed.

Lemma handled_iteration (i : nat) (episodeUrl : jsstring) (st : LoopState) :
  handled (iteration w delayMs saveAsZip i episodeUrl st) = S (handled st).
Proof. apply grows_one_handled, grows_one_iteration. Qed.

Lemma cancelled_iteration (i : nat) (episodeUrl : jsstring) (st : LoopState) :
  isDownloadCancelled (iteration w delayMs saveAsZip i episodeUrl st)
  = isDownloadCancelled st || cancel_confirmed w i DuringFetch
    || cancel_confirmed w i DuringDelay.
Proof.
  unfold iteration, end_iteration.
  destruct (Progress.update _ _ _) as [stats tracker]. simpl.
  by destruct (fetchNovelContent _ _).
Qed.

Lemma events_iteration (i : nat) (episodeUrl : jsstring) (st : LoopState) :
  events (iteration w delayMs saveAsZip i episodeUrl st)
  = events st ++ [EvFetch episodeUrl; EvDelay delayMs].
Proof.
  unfold iteration, end_iteration.
  destruct (Progress.update _ _ _) as [stats tracker]. simpl.
  destruct (fetchNovelContent _ _); simpl; by rewrite <- app_assoc.
Qed.

(** One more turn of the loop. *)
Lemma loop_upto_S (n i : nat) (urls : list jsstring) (st : LoopState) :
  loop_upto (S n) w delayMs saveAsZip i urls st
  = let s := loop_upto n w delayMs saveAsZip i urls st in
    if isDownloadCancelled s then s
    else match urls !! n with
         | Some episodeUrl => iteration w delayMs saveAsZip (i + n) episodeUrl s
         | None => s
         end.
Proof.
  revert i urls st. induction n as [|n IH]; intros i urls st.
  - destruct urls as [|u rest]; simpl.
    + by destruct (isDownloadCancelled st).
    + rewrite Nat.add_0_r. by destruct (isDownloadCancelled st).
  - destruct urls as [|u rest].
    + simpl. by destruct (isDownloadCancelled st).
    + change (loop_upto (S (S n)) w delayMs saveAsZip i (u :: rest) st)
        with (if isDownloadCancelled st then st
              else loop_upto (S n) w delayMs saveAsZip (S i) rest
                     (iteration w delayMs saveAsZip i u st)).
      change (loop_upto (S n) w delayMs saveAsZip i (u :: rest) st)
        with (if isDownloadCancelled st then st
              else loop_upto n w delayMs saveAsZip (S i) rest
                     (iteration w delayMs saveAsZip i u st)).
      destruct (isDownloadCancelled st) eqn:C.
      * simpl. by rewrite C.
      * rewrite IH. cbv zeta. replace (S i + n) with (i + S n) by lia.
        reflexivity.
Qed.

(** The loop is the loop stopped after as many turns as there are URLs. *)
Lemma loop_upto_all (i : nat) (urls : list jsstring) (st : LoopState) :
  loop_upto (length urls) w delayMs saveAsZip i urls st
  = loop w delayMs saveAsZip i urls st.
Proof.
  revert i st. induction urls as [|u rest IH]; intros i st; simpl; [done|].
  by rewrite IH.
Qed.

Lemma handled_loop_upto (n i : nat) (urls : list jsstring) (st : LoopState) :
  handled st <= handled (loop_upto n w delayMs saveAsZip i urls st)
  <= handled st + n `min` length urls.
Proof.
  induction n as [|n IH].
  - destruct urls; simpl; lia.
  - rewrite loop_upto_S. cbv zeta.
    destruct (isDownloadCancelled _); [lia|].
    destruct (urls !! n) as [u|] eqn:L; [|lia].
    apply lookup_lt_Some in L. rewrite handled_iteration. lia.
Qed.



Lemma handled_loop_complete (i : nat) (urls : list jsstring) (st : LoopState) :
  isDownloadCancelled (loop w delayMs saveAsZip i urls st) = false ->
  handled (loop w delayMs saveAsZip i urls st) = handled st + length urls.
Proof.
  revert i st. induction urls as [|u rest IH]; intros i st; simpl.
  - lia.
  - destruct (isDownloadCancelled st) eqn:C; [congruence|].
    intros H. rewrite IH by done. rewrite handled_iteration. lia.
Qed.

End Run.

Lemma setup_zip_merged (w : World) : setup_zip w false = inl (None, []).
Proof. reflexivity. Qed.

(** A run with the flag up after the loop ends in the exception of line
    900: the handler that raised the flag has removed the modal, the
    [return] of line 901 is not reached. *)
Lemma processDownloadCore_cases (w : World) (title : jsstring)
    (urls : list jsstring) (delayMs : Z) (saveAsZip : bool)
    (originalFileNameForReport : option jsstring) :
  processDownloadCore w title urls delayMs saveAsZip originalFileNameForReport
  = match setup_zip w saveAsZip with
    | inr evs => (SetupFailure, evs)
    | inl (zip0, evs) =>
        let st :=
          loop w delayMs saveAsZip 0 urls
               (initial_state w title (length urls) zip0 evs) in
        if isDownloadCancelled st then
          (Rejected st NotFoundError, events st ++ [cancel_notice])
        else
          let report :=
            reportContent (skippedChapters st) (incompleteChapters st) in
          let name := reportFileName title originalFileNameForReport in
          (Completed st name report
             (if saveAsZip then zip_file name report <$> zip st else zip st),
           events st)
    end.
Proof.
  unfold processDownloadCore, modal_attached.
  destruct (setup_zip w saveAsZip) as [[zip0 evs]|evs]; [|done].
  cbv zeta. by destruct (isDownloadCancelled _).
Qed.

(** C2: in every job, each turn of the loop makes exactly one of
    [completedEpisodes], [skippedChapters] and [incompleteChapters] grow by
    one; at all times the three together count at most the item URLs; and
    when the loop is left with the flag down, which is when the job is
    not cancelled, they count exactly the item URLs. *)
Theorem handled_invariant (w : World) (title : jsstring)
    (urls : list jsstring) (delayMs : Z) (saveAsZip : bool) :
  (forall i episodeUrl st,
      grows_one st (iteration w delayMs saveAsZip i episodeUrl st))
  /\ (forall zip0 evs,
        let init := initial_state w title (length urls) zip0 evs in
        let final := loop w delayMs saveAsZip 0 urls init in
        (forall n,
            handled (loop_upto n w delayMs saveAsZip 0 urls init)
            <= length urls)
        /\ loop_upto (length urls) w delayMs saveAsZip 0 urls init = final
        /\ handled final <= length urls
        /\ (isDownloadCancelled final = false ->
            handled final = length urls))
  /\ (forall originalFileNameForReport,
        match fst (processDownloadCore w title urls delayMs saveAsZip
                     originalFileNameForReport) with
        | SetupFailure => True
        | Cancelled st | Rejected st _ =>
            isDownloadCancelled st = true /\ handled st <= length urls
        | Completed st _ _ _ =>
            isDownloadCancelled st = false /\ handled st = length urls
        end).
Proof.
  assert (forall zip0 evs,
            let init := initial_state w title (length urls) zip0 evs in
            let final := loop w delayMs saveAsZip 0 urls init in
            handled final <= length urls
            /\ (isDownloadCancelled final = false ->
                handled final = length urls)) as Hfinal.
  { intros zip0 evs init final. split.
    - subst final. rewrite <- loop_upto_all.
      pose proof (handled_loop_upto w delayMs saveAsZip (length urls) 0 urls
                    init) as H.
      change (handled init) with 0 in H. lia.
    - intros H. subst final. by rewrite handled_loop_complete. }
  split_and!.
  - apply grows_one_iteration.
  - intros zip0 evs init final. split_and!; try apply Hfinal.
    + intros n.
      pose proof (handled_loop_upto w delayMs saveAsZip n 0 urls init) as H.
      change (handled init) with 0 in H. lia.
    + apply loop_upto_all.
  - intros orig. rewrite processDownloadCore_cases.
    destruct (setup_zip w saveAsZip) as [[zip0 evs]|evs]; [|done].
    destruct (Hfinal zip0 evs) as [Hle Heq]. cbv zeta in Hle, Heq |- *.
    destruct (isDownloadCancelled _) eqn:C; simpl; auto.
Qed.

(** *** The tracker of a job *)


(** *** The start of a job in archive mode *)

Lemma wait_loop_undefined (defined : nat -> bool) (turns n : nat)
    (elapsedWaitTime : Z) :
  (forall k, n <= k < n + turns -> defined k = false) ->
  (elapsedWaitTime + CHECK_INTERVAL * Z.of_nat turns <= MAX_WAIT_TIME)%Z ->
  wait_loop defined turns n elapsedWaitTime
  = (n + turns, (elapsedWaitTime + CHECK_INTERVAL * Z.of_nat turns)%Z).
Proof.
  revert n elapsedWaitTime.
  induction turns as [|turns IH]; intros n e Hundef Hle; simpl.
  - f_equal; lia.
  - rewrite Hundef by lia.
    assert ((e <? MAX_WAIT_TIME)%Z = true) as ->
      by (unfold MAX_WAIT_TIME, CHECK_INTERVAL in *; lia).
    simpl. rewrite IH.
    + f_equal; lia.
    + intros k Hk. apply Hundef. lia.
    + lia.
Qed.

(** The wait loop is left by its own test, not for lack of turns. *)
Lemma wait_loop_exit (defined : nat -> bool) (turns n : nat)
    (elapsedWaitTime : Z) :
  (MAX_WAIT_TIME <= elapsedWaitTime + CHECK_INTERVAL * Z.of_nat turns)%Z ->
  let '(n', e') := wait_loop defined turns n elapsedWaitTime in
  defined n' = true \/ (MAX_WAIT_TIME <= e')%Z.
Proof.
  revert n elapsedWaitTime.
  induction turns as [|turns IH]; intros n e Hle; simpl.
  - right. lia.
  - destruct (defined n) eqn:D; simpl; [by left|].
    destruct (e <? MAX_WAIT_TIME)%Z eqn:E; [|right; lia].
    apply IH. lia.
Qed.

Lemma wait_for_jszip_exit (defined : nat -> bool) :
  let '(n, e) := wait_for_jszip defined in
  defined n = true \/ (MAX_WAIT_TIME <= e)%Z.
Proof. apply wait_loop_exit. by vm_compute. Qed.

Lemma fetches_app (a b : list Event) : fetches (a ++ b) = fetches a ++ fetches b.
Proof. apply omap_app. Qed.

Lemma fetches_waits (n : nat) (ms : Z) : fetches (replicate n (EvWait ms)) = [].
Proof. induction n; simpl; done. Qed.

(** No URL is fetched while the archive is set up. *)
Lemma setup_zip_fetches (w : World) (saveAsZip : bool) :
  match setup_zip w saveAsZip with
  | inl (_, evs) | inr evs => fetches evs = []
  end.
Proof.
  unfold setup_zip. destruct saveAsZip; [|done].
  destruct (script_loads w); [|done].
  destruct (wait_for_jszip _) as [n e].
  destruct (negb _); rewrite ?fetches_app, fetches_waits; done.
Qed.

(** C8: in archive mode, when the archiving library fails to load, or is
    still undefined at every test of the bounded wait,
    [processDownloadCore] returns at once: no item URL is fetched, the
    notification of the failure is the last thing done, and no state of a
    job exists. *)
Theorem setup_failure_aborts (w : World) (title : jsstring)
    (urls : list jsstring) (delayMs : Z)
    (originalFileNameForReport : option jsstring) :
  script_loads w = false
  \/ (forall n, n <= Z.to_nat (MAX_WAIT_TIME / CHECK_INTERVAL) ->
                jszip_defined w n = false) ->
  exists evs message,
    processDownloadCore w title urls delayMs true originalFileNameForReport
    = (SetupFailure, evs)
    /\ fetches evs = []
    /\ last evs = Some (EvNotify (zip_failure_title message) zip_failure_text).
Proof.
  intros H.
  pose proof (setup_zip_fetches w true) as Hf.
  rewrite processDownloadCore_cases.
  assert (exists evs message,
            setup_zip w true
            = inr (evs ++ [EvNotify (zip_failure_title message)
                                    zip_failure_text]))
    as (evs & message & Hs).
  { unfold setup_zip. destruct (script_loads w) eqn:L.
    - destruct H as [H|H]; [done|].
      unfold wait_for_jszip. rewrite wait_loop_undefined.
      + rewrite H by (simpl; lia). simpl negb. cbv iota. by eexists _, _.
      + intros k Hk. apply H. lia.
      + by vm_compute.
    - by eexists _, _. }
  rewrite Hs in Hf |- *.
  exists (evs ++ [EvNotify (zip_failure_title message) zip_failure_text]),
         message.
  split_and!; [done|done|]. by rewrite last_snoc.
Qed.

(** A job started in archive mode without access to the library. *)
Lemma setup_failure_aborts_witness :
  exists evs message,
    processDownloadCore offline_world (lit "Novel")
      [lit "https://booktoki.example/novel/1"] 5000 true None
    = (SetupFailure, evs)
    /\ fetches evs = []
    /\ last evs = Some (EvNotify (zip_failure_title message) zip_failure_text).
Proof.
  apply (setup_failure_aborts offline_world). left. reflexivity.
Defined.

(** *** Cancellation *)

Section Cancel.
Context (w : World) (delayMs : Z) (saveAsZip : bool).
Context (urls : list jsstring) (init : LoopState).
Context (i : nat) (ph : Phase).
Hypothesis cancel_here : cancel_at w = Some (i, ph).
Hypothesis in_range : i < length urls.
Hypothesis flag_down : isDownloadCancelled init = false.

Local Abbreviation state n := (loop_upto n w delayMs saveAsZip 0 urls init).

Lemma cancel_confirmed_other (j : nat) (p : Phase) :
  j <> i -> cancel_confirmed w j p = false.
Proof using cancel_here.
  intros Hj. unfold cancel_confirmed. rewrite cancel_here.
  apply bool_decide_eq_false. congruence.
Qed.

Lemma cancel_confirmed_here :
  cancel_confirmed w i DuringFetch || cancel_confirmed w i DuringDelay = true.
Proof using cancel_here.
  unfold cancel_confirmed. rewrite cancel_here.
  destruct ph; [apply orb_true_iff; left|apply orb_true_iff; right];
    by apply bool_decide_eq_true.
Qed.

(** Before the turn in which the flag is raised every turn runs. *)
Lemma before_cancel (n : nat) :
  n <= i ->
  isDownloadCancelled (state n) = false
  /\ handled (state n) = handled init + n
  /\ fetches (events (state n)) = fetches (events init) ++ take n urls.
Proof using cancel_here in_range flag_down.
  induction n as [|n IH]; intros Hn.
  - destruct urls; simpl; rewrite ?app_nil_r;
      (split_and!; [done|lia|done]).
  - destruct IH as (Hc & Hh & Hf); [lia|].
    rewrite loop_upto_S. cbv zeta. rewrite Hc.
    destruct (lookup_lt_is_Some_2 urls n) as [u Hu]; [lia|]. rewrite Hu.
    rewrite cancelled_iteration, handled_iteration, events_iteration, Hc.
    rewrite !cancel_confirmed_other by lia.
    rewrite fetches_app, Hf. simpl.
    rewrite (take_S_r _ _ _ Hu), <- app_assoc.
    split_and!; [done|lia|done].
Qed.

(** The turn in which the flag is raised is completed, and is the last. *)
Lemma at_cancel :
  isDownloadCancelled (state (S i)) = true
  /\ handled (state (S i)) = handled init + S i
  /\ fetches (events (state (S i))) = fetches (events init) ++ take (S i) urls
  /\ exists u, urls !! i = Some u
               /\ state (S i) = iteration w delayMs saveAsZip i u (state i).
Proof using cancel_here in_range flag_down.
  destruct (before_cancel i) as (Hc & Hh & Hf); [lia|].
  rewrite loop_upto_S. cbv zeta. rewrite Hc.
  destruct (lookup_lt_is_Some_2 urls i) as [u Hu]; [lia|]. rewrite Hu.
  rewrite cancelled_iteration, handled_iteration, events_iteration, Hc.
  rewrite fetches_app, Hf. simpl.
  rewrite (take_S_r _ _ _ Hu), <- app_assoc.
  split_and!; [apply cancel_confirmed_here|lia|done|by exists u].
Qed.

Lemma after_cancel (n : nat) : S i <= n -> state n = state (S i).
Proof using cancel_here in_range flag_down.
  induction n as [|n IH]; intros Hn; [lia|].
  destruct (decide (n = i)) as [->|Hne]; [done|].
  rewrite loop_upto_S. cbv zeta.
  rewrite IH by lia. by destruct at_cancel as [-> _].
Qed.

Lemma loop_cancelled :
  loop w delayMs saveAsZip 0 urls init = state (S i).
Proof using cancel_here in_range flag_down.
  rewrite <- loop_upto_all. apply after_cancel. lia.
Qed.

End Cancel.

Lemma extends_refl (st : LoopState) : extends None st st.
Proof.
  unfold extends. split_and!; try done.
  destruct (zip st); auto.
Qed.

Lemma extends_iteration (w : World) (delayMs : Z) (saveAsZip : bool)
    (i : nat) (episodeUrl : jsstring) (st : LoopState) :
  extends (entry_written saveAsZip
             (fetchNovelContent (net w i episodeUrl) episodeUrl))
          st (iteration w delayMs saveAsZip i episodeUrl st).
Proof.
  unfold iteration, end_iteration.
  destruct (Progress.update _ _ _) as [stats tracker].
  unfold extends, entry_written.
  cbn [novelText completedEpisodes skippedChapters incompleteChapters zip].
  destruct (fetchNovelContent _ _) as [t c| | | |];
    cbn [record_result begin_fetch novelText completedEpisodes
         skippedChapters incompleteChapters zip];
    (split_and!;
     [ try done | lia | try done; by apply prefix_app_r
     | try done; by apply prefix_app_r | ]);
    try (by destruct (zip st)).
  - destruct saveAsZip; [done|]. by apply prefix_app_r.
  - destruct (zip st) as [z|]; destruct saveAsZip;
      cbn [fmap option_fmap option_map]; try done.
    intros name c0 Hz. unfold zip_file.
    destruct (decide (name = entry_name t)) as [->|Hne].
    + apply lookup_insert_eq.
    + by rewrite lookup_insert_ne.
Qed.

(** C4, as stated, fails in archive mode: the flag is raised during the
    second fetch, when one item has been handled and the archive holds
    its text under "Part 1_2.txt"; the item in flight succeeds under the
    same entry name, and the text of the first item is no longer in the
    output. *)
Lemma cancellation_replaces_entry :
  let w := cancelling_world in
  let init := initial_state w (lit "Novel") (length demo_urls) (Some ∅) [] in
  let raised := loop_upto 1 w 5000 true 0 demo_urls init in
  let final := loop w 5000 true 0 demo_urls init in
  cancel_at w = Some (1, DuringFetch)
  /\ handled raised = 1 /\ handled final = 2
  /\ isDownloadCancelled raised = false /\ isDownloadCancelled final = true
  /\ zip raised ≫= lookup (lit "Part 1_2.txt") = Some (lit "first")
  /\ zip final ≫= lookup (lit "Part 1_2.txt") = Some (lit "second")
  /\ ~ (forall name c,
          zip raised ≫= lookup name = Some c ->
          zip final ≫= lookup name = Some c).
Proof.
  intros w init raised final.
  assert (zip raised ≫= lookup (lit "Part 1_2.txt") = Some (lit "first"))
    as Hr by (by vm_compute).
  assert (zip final ≫= lookup (lit "Part 1_2.txt") = Some (lit "second"))
    as Hf by (by vm_compute).
  split_and!; try done; try (by vm_compute).
  intros H. apply H in Hr. rewrite Hf in Hr. by vm_compute in Hr.
Qed.

(** C4 (amended): when the flag is raised while [k] items have been
    handled (during the fetch of item [k], or during the delay after item
    [k - 1]), the loop ends at the next test of the flag: the turn under
    way is completed and no further item is fetched, so that at most
    [k + 1] items are fetched in the whole job; the merged text, the
    skipped and incomplete lists and the count of completed chapters at
    that time are only added to, and every entry of the archive is still
    there with its content, except that the entry under the name of the
    item in flight, if that item succeeds, holds the text of that item;
    and the three counters together count [k] or [k + 1] items.  (The
    run then shows the notice and ends in the exception of line 900.) *)
Theorem cancellation_boundary (w : World) (title : jsstring)
    (urls : list jsstring) (delayMs : Z) (saveAsZip : bool)
    (originalFileNameForReport : option jsstring)
    (zip0 : option Archive) (evs : list Event) (i : nat) (ph : Phase) :
  cancel_at w = Some (i, ph) ->
  i < length urls ->
  setup_zip w saveAsZip = inl (zip0, evs) ->
  let init := initial_state w title (length urls) zip0 evs in
  let final := loop w delayMs saveAsZip 0 urls init in
  let k := handled_at i ph in
  let raised := loop_upto k w delayMs saveAsZip 0 urls init in
  (isDownloadCancelled (loop_upto i w delayMs saveAsZip 0 urls init) = false
   /\ handled raised = k)
  /\ (final = loop_upto (S i) w delayMs saveAsZip 0 urls init
      /\ isDownloadCancelled final = true
      /\ processDownloadCore w title urls delayMs saveAsZip
           originalFileNameForReport
         = (Rejected final NotFoundError, events final ++ [cancel_notice]))
  /\ (fetches (events final ++ [cancel_notice]) = take (S i) urls
      /\ length (fetches (events final ++ [cancel_notice])) <= S k)
  /\ extends (in_flight_entry w urls saveAsZip i ph) raised final
  /\ (handled final = k \/ handled final = S k).
Proof.
  intros Hc Hi Hsetup init final k raised.
  pose proof (before_cancel w delayMs saveAsZip urls init i ph Hc Hi eq_refl i
                ltac:(lia)) as (Hbc & Hbh & Hbf).
  pose proof (at_cancel w delayMs saveAsZip urls init i ph Hc Hi eq_refl)
    as (Hac & Hah & Haf & u & Hu & Hstep).
  pose proof (loop_cancelled w delayMs saveAsZip urls init i ph Hc Hi eq_refl)
    as Hfinal.
  pose proof (setup_zip_fetches w saveAsZip) as Hevs. rewrite Hsetup in Hevs.
  change (handled init + i) with i in Hbh.
  change (handled init + S i) with (S i) in Hah.
  change (events init) with evs in Haf. rewrite Hevs in Haf.
  change ([] ++ ?x) with x in Haf.
  assert (handled raised = k
          /\ extends (in_flight_entry w urls saveAsZip i ph) raised final)
    as [Hrk Hext].
  { subst raised final k. rewrite Hfinal.
    destruct ph; cbn [handled_at in_flight_entry].
    - split; [done|]. rewrite Hstep. unfold result_at. rewrite Hu.
      apply extends_iteration.
    - split; [done|]. apply extends_refl. }
  assert (fetches (events final ++ [cancel_notice]) = take (S i) urls)
    as Hfetches.
  { subst final. by rewrite fetches_app, Hfinal, Haf, app_nil_r. }
  split_and!.
  - exact Hbc.
  - exact Hrk.
  - exact Hfinal.
  - subst final. by rewrite Hfinal.
  - rewrite processDownloadCore_cases, Hsetup. cbv zeta.
    fold init. fold final. subst final. by rewrite Hfinal, Hac.
  - exact Hfetches.
  - rewrite Hfetches, length_take. subst k.
    destruct ph; unfold handled_at; lia.
  - exact Hext.
  - subst final. rewrite Hfinal, Hah. subst k.
    destruct ph; unfold handled_at; auto.
Qed.

(** A job of three items in archive mode cancelled during the second
    fetch: two items are fetched and handled, and the entry of the first
    holds the text of the second. *)
Lemma cancellation_boundary_witness :
  let evs := [EvLoadScript jszip_src; EvWait 100; EvWait 100] in
  let init :=
    initial_state cancelling_world (lit "Novel") (length demo_urls) (Some ∅)
      evs in
  let final := loop cancelling_world 5000 true 0 demo_urls init in
  processDownloadCore cancelling_world (lit "Novel") demo_urls 5000 true None
  = (Rejected final NotFoundError, events final ++ [cancel_notice])
  /\ fetches (events final ++ [cancel_notice]) = take 2 demo_urls
  /\ extends (Some (lit "Part 1_2.txt", lit "second"))
       (loop_upto 1 cancelling_world 5000 true 0 demo_urls init) final
  /\ (handled final = 1 \/ handled final = 2).
Proof.
  destruct (cancellation_boundary cancelling_world (lit "Novel") demo_urls
              5000 true None (Some ∅)
              [EvLoadScript jszip_src; EvWait 100; EvWait 100]
              1 DuringFetch eq_refl ltac:(simpl; lia) eq_refl)
    as (_ & (_ & _ & Hp) & (Hf & _) & He & Hh).
  exact (conj Hp (conj Hf (conj He Hh))).
Defined.

(** *** The archive *)

Section Archive.
Context (w : World) (delayMs : Z) (urls : list jsstring) (init : LoopState).
Hypothesis zip_empty : zip init = Some ∅.
Hypothesis none_completed : completedEpisodes init = 0.
Hypothesis not_cancelled :
  isDownloadCancelled (loop w delayMs true 0 urls init) = false.

Local Abbreviation state n := (loop_upto n w delayMs true 0 urls init).

Lemma uncancelled_before (n : nat) :
  n <= length urls -> isDownloadCancelled (state n) = false.
Proof using not_cancelled.
  clear zip_empty none_completed.
  intros Hn. rewrite <- loop_upto_all in not_cancelled.
  remember (length urls - n) as d eqn:Hd.
  revert n Hn Hd. induction d as [|d IH]; intros n Hn Hd.
  - by replace n with (length urls) by lia.
  - specialize (IH (S n) ltac:(lia) ltac:(lia)).
    rewrite loop_upto_S in IH. cbv zeta in IH.
    destruct (isDownloadCancelled (state n)) eqn:C; [|done].
    rewrite C in IH. discriminate IH.
Qed.

Lemma state_S (n : nat) (episodeUrl : jsstring) :
  urls !! n = Some episodeUrl ->
  state (S n) = iteration w delayMs true n episodeUrl (state n).
Proof using not_cancelled.
  clear zip_empty none_completed.
  intros Hu. rewrite loop_upto_S. cbv zeta.
  rewrite uncancelled_before, Hu; [done|].
  apply lookup_lt_Some in Hu. lia.
Qed.

Lemma zip_iteration (n : nat) (episodeUrl : jsstring) (st : LoopState) :
  zip (iteration w delayMs true n episodeUrl st)
  = match fetchNovelContent (net w n episodeUrl) episodeUrl with
    | success t c => zip_file (entry_name t) c <$> zip st
    | _ => zip st
    end
  /\ completedEpisodes (iteration w delayMs true n episodeUrl st)
     = match fetchNovelContent (net w n episodeUrl) episodeUrl with
       | success _ _ => S (completedEpisodes st)
       | _ => completedEpisodes st
       end.
Proof using Type.
  unfold iteration, end_iteration.
  destruct (Progress.update _ _ _) as [stats tracker]. simpl.
  by destruct (fetchNovelContent _ _).
Qed.

(** The archive after [n] turns: every successful chapter has an entry
    under its name, the entry of a name holds the content of the last
    successful chapter of that name, and there are fewer entries than
    chapters as soon as two chapters share a name. *)
Lemma archive_after (n : nat) :
  n <= length urls ->
  exists z,
    zip (state n) = Some z
    /\ size z <= completedEpisodes (state n)
    /\ (forall j t c,
          j < n -> result_at w urls j = Some (success t c) ->
          is_Some (z !! entry_name t))
    /\ (forall j t c,
          j < n -> result_at w urls j = Some (success t c) ->
          (forall l t' c',
              j < l < n -> result_at w urls l = Some (success t' c') ->
              entry_name t' <> entry_name t) ->
          z !! entry_name t = Some c)
    /\ (collision_before w urls n -> size z < completedEpisodes (state n)).
Proof using zip_empty none_completed not_cancelled.
  induction n as [|n IH]; intros Hn.
  - exists ∅. assert (state 0 = init) as -> by (by destruct urls).
    rewrite zip_empty, none_completed, map_size_empty.
    split_and!; try done; try (intros; lia).
    intros (i & j & ? & ? & ? & ? & ? & _). lia.
  - destruct IH as (z & Hz & Hsize & Hpresent & Hlast & Hcoll); [lia|].
    destruct (lookup_lt_is_Some_2 urls n) as [u Hu]; [lia|].
    rewrite (state_S n u Hu).
    destruct (zip_iteration n u (state n)) as [-> ->]. rewrite Hz.
    assert (result_at w urls n
            = Some (fetchNovelContent (net w n u) u)) as Hres
      by (unfold result_at; by rewrite Hu).
    destruct (fetchNovelContent (net w n u) u) as [tn cn| | | |] eqn:R.
    2-5: exists z; (split_and!; [done|done| | |]).
    2-13: try (intros j t c Hj Hr; destruct (decide (j = n)) as [->|Hne];
               [rewrite Hres in Hr; discriminate|
                apply (Hpresent j t c); [lia|done]]).
    2-9: try (intros j t c Hj Hr Hlater;
              destruct (decide (j = n)) as [->|Hne];
              [rewrite Hres in Hr; discriminate|
               apply (Hlast j t c); [lia|done|];
               intros l t' c' Hl; apply Hlater; lia]).
    2-5: intros (i & j & ti & ci & tj & cj & Hij & Hi & Hj & Hname);
      destruct (decide (j = n)) as [->|Hne];
      [rewrite Hres in Hj; discriminate|];
      apply Hcoll; exists i, j, ti, ci, tj, cj;
      split_and!; [lia|lia|done|done|done].
    (* a successful chapter: its entry is written *)
    exists (zip_file (entry_name tn) cn z). unfold zip_file.
    split_and!; [done| | | |].
    + rewrite map_size_insert. destruct (z !! entry_name tn); simpl; lia.
    + intros j t c Hj Hr. rewrite lookup_insert_is_Some.
      destruct (decide (entry_name tn = entry_name t)); [by left|right].
      split; [done|]. destruct (decide (j = n)) as [->|Hne].
      * rewrite Hres in Hr. injection Hr as -> ->. done.
      * apply (Hpresent j t c); [lia|done].
    + intros j t c Hj Hr Hlater. destruct (decide (j = n)) as [->|Hne].
      * rewrite Hres in Hr. injection Hr as -> ->.
        by rewrite lookup_insert_eq.
      * rewrite lookup_insert_ne
          by (apply (Hlater n tn cn); [lia|done]).
        apply (Hlast j t c); [lia|done|].
        intros l t' c' Hl. apply Hlater. lia.
    + intros (i & j & ti & ci & tj & cj & Hij & Hi & Hj & Hname).
      rewrite map_size_insert.
      destruct (decide (j = n)) as [->|Hne].
      * rewrite Hres in Hj. injection Hj as -> ->.
        destruct (Hpresent i ti ci) as [c' Hc']; [lia|done|].
        rewrite <- Hname, Hc'. simpl. lia.
      * assert (size z < completedEpisodes (state n)) as Hlt.
        { apply Hcoll. exists i, j, ti, ci, tj, cj.
          split_and!; [lia|lia|done|done|done]. }
        destruct (z !! entry_name tn); simpl; lia.
Qed.

End Archive.
Lemma setup_zip_archive (w : World) (zip0 : option Archive)
    (evs : list Event) :
  setup_zip w true = inl (zip0, evs) -> zip0 = Some ∅.
Proof.
  unfold setup_zip. destruct (script_loads w); [|done].
  destruct (wait_for_jszip _) as [n e]. destruct (negb _); [done|].
  by intros [= <- _].
Qed.

Lemma result_at_lt (w : World) (urls : list jsstring) (j : nat)
    (r : FetchResult) :
  result_at w urls j = Some r -> j < length urls.
Proof.
  unfold result_at. destruct (urls !! j) eqn:L; [|done].
  intros _. by apply lookup_lt_Some in L.
Qed.

Lemma results_from_lookup (w : World) (i : nat) (urls : list jsstring)
    (j : nat) :
  results_from w i urls !! j
  = (fun u => (u, fetchNovelContent (net w (i + j) u) u)) <$> urls !! j.
Proof.
  revert i j. induction urls as [|u rest IH]; intros i j; [done|].
  destruct j as [|j]; cbn [results_from lookup list_lookup].
  - by rewrite Nat.add_0_r.
  - rewrite IH. by replace (S i + j) with (i + S j) by lia.
Qed.

Lemma result_at_results_from (w : World) (urls : list jsstring) (j : nat)
    (r : FetchResult) :
  result_at w urls j = Some r
  <-> exists u, results_from w 0 urls !! j = Some (u, r).
Proof.
  unfold result_at. rewrite results_from_lookup.
  destruct (urls !! j) as [u|]; cbn [fmap option_fmap option_map mbind
                                     option_bind Nat.add]; split.
  - intros [= <-]. by exists u.
  - by intros (u' & [= <- <-]).
  - done.
  - by intros (u' & ?).
Qed.

(** No successful item of [outcomes] has the entry name [name] when
    nothing is left under it. *)
Lemma entry_content_none (name : jsstring)
    (outcomes : list (jsstring * FetchResult)) (l : nat) (u t c : jsstring) :
  entry_content name outcomes = None ->
  outcomes !! l = Some (u, success t c) -> entry_name t <> name.
Proof.
  revert l. induction outcomes as [|item rest IH]; intros l Hnone Hl; [done|].
  cbn [entry_content] in Hnone.
  destruct (entry_content name rest) eqn:Hrest; [done|].
  destruct l as [|l]; [|by apply (IH l)].
  cbn [lookup list_lookup] in Hl. injection Hl as ->.
  cbn [snd entry_written] in Hnone. by case_decide.
Qed.

(** What is left under [name] is the text of a successful item with this
    entry name after which no successful item has it. *)
Lemma entry_content_last (name content : jsstring)
    (outcomes : list (jsstring * FetchResult)) :
  entry_content name outcomes = Some content ->
  exists l u t,
    outcomes !! l = Some (u, success t content) /\ entry_name t = name
    /\ forall l' u' t' c',
         l < l' -> outcomes !! l' = Some (u', success t' c') ->
         entry_name t' <> name.
Proof.
  induction outcomes as [|item rest IH]; intros H; [done|].
  cbn [entry_content] in H.
  destruct (entry_content name rest) as [c0|] eqn:Hrest.
  - injection H as ->. destruct (IH eq_refl) as (l & u & t & Hl & Hn & Hlast).
    exists (S l), u, t. split_and!; [done|done|].
    intros [|l'] u' t' c' Hlt Hl'; [lia|].
    apply (Hlast l' u' t' c'); [lia|done].
  - destruct item as [u r]. cbn [snd] in H.
    destruct r as [t c| | | |]; cbn [entry_written] in H; try done.
    case_decide as Hn; [|done]. injection H as ->.
    exists 0, u, t. split_and!; [done|done|].
    intros [|l'] u' t' c' Hlt Hl'; [lia|].
    by apply (entry_content_none name rest l' u' t' c').
Qed.

(** Something is left under the entry name of every successful item. *)
Lemma entry_content_present (outcomes : list (jsstring * FetchResult))
    (l : nat) (u t c : jsstring) :
  outcomes !! l = Some (u, success t c) ->
  is_Some (entry_content (entry_name t) outcomes).
Proof.
  intros Hl.
  destruct (entry_content (entry_name t) outcomes) eqn:E; [by eexists|].
  by destruct (entry_content_none _ _ _ _ _ _ E Hl).
Qed.

(** The archive when the loop is left with the flag down: the entries in
    it at the start, and over them what the items leave. *)
Lemma loop_archive (w : World) (delayMs : Z) (i : nat) (urls : list jsstring)
    (st : LoopState) (z : Archive) :
  zip st = Some z ->
  isDownloadCancelled (loop w delayMs true i urls st) = false ->
  exists z',
    zip (loop w delayMs true i urls st) = Some z'
    /\ forall name,
         z' !! name
         = match entry_content name (results_from w i urls) with
           | Some content => Some content
           | None => z !! name
           end.
Proof.
  revert i st z. induction urls as [|u rest IH]; intros i st z Hz Hc.
  - by exists z.
  - cbn [loop] in Hc |- *. destruct (isDownloadCancelled st) eqn:C;
      [congruence|].
    destruct (zip_iteration w delayMs i u st) as [Hzip _].
    rewrite Hz in Hzip.
    set (r := fetchNovelContent (net w i u) u) in *.
    assert (exists z1,
              zip (iteration w delayMs true i u st) = Some z1
              /\ forall name,
                   z1 !! name
                   = match entry_written true r with
                     | Some (name', content) =>
                         if decide (name' = name) then Some content
                         else z !! name
                     | None => z !! name
                     end) as (z1 & Hz1 & Hlook).
    { destruct r as [t c| | | |]; cbn [entry_written];
        try (by exists z).
      exists (zip_file (entry_name t) c z). split; [done|].
      intros name. unfold zip_file. case_decide as Hn.
      - subst name. apply lookup_insert_eq.
      - by apply lookup_insert_ne. }
    destruct (IH (S i) _ z1 Hz1 Hc) as (z' & Hz' & Hlook').
    exists z'. split; [done|]. intros name. rewrite Hlook'.
    cbn [results_from entry_content snd]. fold r.
    destruct (entry_content name (results_from w (S i) rest)); [done|].
    rewrite Hlook. destruct (entry_written true r) as [[name' c']|]; [|done].
    by case_decide.
Qed.

(** C10, as stated, fails in two cases.  Of three chapters whose titles
    have the same sanitized form, take the first two: the entry does not
    hold the text of the later of them, the second, but that of the third.
    And when the chapters are titled like the stem of the report name, the
    entry of that name holds the report. *)
Lemma archive_holds_last_or_report :
  (result_at triple_world demo_urls 0
   = Some (success (lit "Part 1/2") (lit "first"))
   /\ result_at triple_world demo_urls 1
      = Some (success (lit "Part 1:2") (lit "second"))
   /\ sanitizeFilename (lit "Part 1/2") = sanitizeFilename (lit "Part 1:2")
   /\ match fst (processDownloadCore triple_world (lit "Novel") demo_urls
                   5000 true None) with
      | Completed _ _ _ archive =>
          archive ≫= lookup (lit "Part 1_2.txt") = Some (lit "third")
          /\ archive ≫= lookup (lit "Part 1_2.txt") <> Some (lit "second")
      | _ => False
      end)
  /\ (result_at report_named_world demo_urls 0
      = Some (success (lit "Novel_report") (lit "chapter"))
      /\ result_at report_named_world demo_urls 1
         = Some (success (lit "Novel_report") (lit "chapter"))
      /\ match fst (processDownloadCore report_named_world (lit "Novel")
                      demo_urls 5000 true None) with
         | Completed _ _ report archive =>
             archive ≫= lookup (lit "Novel_report.txt") = Some report
             /\ report <> lit "chapter"
         | _ => False
         end).
Proof.
  split_and!; by vm_compute.
Qed.

(** C10 (amended): in archive mode each successful chapter is written
    under the name [sanitizeFilename(episodeTitle) + ".txt"] as it is
    downloaded, in the place of an entry of that name.  So when the job
    has run to its end the archive holds, under the name of every
    successful chapter, the text of the last successful chapter with that
    entry name, and no other chapter entry: for two successful chapters
    whose titles have the same sanitized form there is one entry under
    that name, with the text of the later one when no successful chapter
    of that name follows it, and the archive has fewer chapter entries
    than chapters completed.  The report is added last, under its own
    name, in the place of a chapter entry of that name. *)
Theorem archive_entries (w : World) (title : jsstring)
    (urls : list jsstring) (delayMs : Z)
    (originalFileNameForReport : option jsstring)
    (st : LoopState) (reportName report : jsstring)
    (archive : option Archive) (evs : list Event) :
  processDownloadCore w title urls delayMs true originalFileNameForReport
  = (Completed st reportName report archive, evs) ->
  exists z,
    zip st = Some z
    /\ archive = Some (zip_file reportName report z)
    /\ (forall name, z !! name = entry_content name (results_from w 0 urls))
    /\ (forall name,
          zip_file reportName report z !! name
          = if decide (name = reportName) then Some report
            else entry_content name (results_from w 0 urls))
    /\ (forall j t c,
          result_at w urls j = Some (success t c) ->
          exists l tl cl,
            j <= l
            /\ result_at w urls l = Some (success tl cl)
            /\ sanitizeFilename tl = sanitizeFilename t
            /\ (forall l' t' c',
                  l < l' -> result_at w urls l' = Some (success t' c') ->
                  sanitizeFilename t' <> sanitizeFilename t)
            /\ z !! (sanitizeFilename t ++ lit ".txt") = Some cl)
    /\ size z <= completedEpisodes st
    /\ (forall i j ti ci tj cj,
          i < j ->
          result_at w urls i = Some (success ti ci) ->
          result_at w urls j = Some (success tj cj) ->
          sanitizeFilename ti = sanitizeFilename tj ->
          size z < completedEpisodes st
          /\ ((forall l tl cl,
                  j < l -> result_at w urls l = Some (success tl cl) ->
                  sanitizeFilename tl <> sanitizeFilename tj) ->
              z !! (sanitizeFilename tj ++ lit ".txt") = Some cj
              /\ (sanitizeFilename tj ++ lit ".txt" <> reportName ->
                  zip_file reportName report z
                    !! (sanitizeFilename tj ++ lit ".txt") = Some cj))).
Proof.
  rewrite processDownloadCore_cases.
  destruct (setup_zip w true) as [[zip0 evs0]|evs0] eqn:Hsetup; [|done].
  apply setup_zip_archive in Hsetup as ->. cbv zeta.
  set (init := initial_state w title (length urls) (Some ∅) evs0).
  destruct (isDownloadCancelled (loop w delayMs true 0 urls init)) eqn:C;
    [done|].
  intros E. apply pair_equal_spec in E as [E _].
  assert (st = loop w delayMs true 0 urls init) as -> by congruence.
  assert (archive
          = zip_file reportName report
            <$> zip (loop w delayMs true 0 urls init)) as -> by congruence.
  clear E.
  destruct (archive_after w delayMs urls init eq_refl eq_refl C (length urls))
    as (z & Hz & Hsize & _ & _ & Hcoll); [done|].
  rewrite loop_upto_all in Hz, Hsize, Hcoll.
  destruct (loop_archive w delayMs 0 urls init ∅ eq_refl C)
    as (z' & Hz' & Hlook).
  rewrite Hz in Hz'. injection Hz' as <-.
  assert (forall name, z !! name = entry_content name (results_from w 0 urls))
    as Hall.
  { intros name. rewrite Hlook, lookup_empty.
    by destruct (entry_content name (results_from w 0 urls)). }
  assert (forall j t c,
            result_at w urls j = Some (success t c) ->
            exists l tl cl,
              j <= l
              /\ result_at w urls l = Some (success tl cl)
              /\ sanitizeFilename tl = sanitizeFilename t
              /\ (forall l' t' c',
                    l < l' -> result_at w urls l' = Some (success t' c') ->
                    sanitizeFilename t' <> sanitizeFilename t)
              /\ z !! (sanitizeFilename t ++ lit ".txt") = Some cl) as Hlast.
  { intros j t c Hj.
    apply result_at_results_from in Hj as (u & Hj).
    destruct (entry_content_present _ _ _ _ _ Hj) as [cl Hcl].
    destruct (entry_content_last _ _ _ Hcl) as (l & ul & tl & Hl & Hn & Hafter).
    apply app_inv_tail in Hn.
    exists l, tl, cl. split_and!.
    - destruct (decide (j <= l)) as [|Hgt]; [done|].
      by destruct (Hafter j u t c ltac:(lia) Hj).
    - apply result_at_results_from. by exists ul.
    - done.
    - intros l' t' c' Hlt Hl' Heq.
      apply result_at_results_from in Hl' as (u' & Hl').
      apply (Hafter l' u' t' c' Hlt Hl'). unfold entry_name. by rewrite Heq.
    - by rewrite <- Hcl, <- Hall. }
  exists z. rewrite Hz. split_and!; [done|done|done| |done|done|].
  - intros name. unfold zip_file. case_decide as Hn.
    + subst name. apply lookup_insert_eq.
    + by rewrite lookup_insert_ne.
  - intros i j ti ci tj cj Hij Hi Hj Hname. split.
    + apply Hcoll. exists i, j, ti, ci, tj, cj.
      split_and!; [done|by eapply result_at_lt|done|done|].
      unfold entry_name. by rewrite Hname.
    + intros Hlater.
      destruct (Hlast j tj cj Hj) as (l & tl & cl & Hjl & Hl & Hn & _ & Hz2).
      assert (l = j) as ->.
      { destruct (decide (l = j)) as [|Hne]; [done|].
        by destruct (Hlater l tl cl ltac:(lia) Hl). }
      rewrite Hj in Hl. injection Hl as _ <-.
      split; [done|]. intros Hne. unfold zip_file.
      by rewrite lookup_insert_ne.
Qed.

(** A job whose first two chapters are titled "Part 1/2" and "Part 1:2"
    and whose third is blocked: one entry, "Part 1_2.txt", with the text
    of the second. *)
Lemma archive_entries_witness :
  exists st reportName report archive evs z,
    processDownloadCore colliding_world (lit "Novel") demo_urls 5000 true None
    = (Completed st reportName report archive, evs)
    /\ zip st = Some z
    /\ z !! lit "Part 1_2.txt" = Some (lit "second")
    /\ z !! lit "Part 1:2.txt" = None
    /\ size z < completedEpisodes st.
Proof.
  destruct (processDownloadCore colliding_world (lit "Novel") demo_urls 5000
              true None)
    as [[|st|st error|st reportName report archive] evs] eqn:E;
    [by vm_compute in E..|].
  destruct (archive_entries _ _ _ _ _ _ _ _ _ _ E)
    as (z & Hz & _ & Hall & _ & _ & _ & Hpair).
  destruct (Hpair 0 1 (lit "Part 1/2") (lit "first")
                  (lit "Part 1:2") (lit "second"))
    as (Hsize & _);
    [lia|by vm_compute|by vm_compute|by vm_compute|].
  exists st, reportName, report, archive, evs, z.
  split_and!; [done|done| | |done]; rewrite Hall; by vm_compute.
Defined.

End OrchestratorFacts.

(** ** More on content normalisation *)

Module ContentMore.

(** The match of a literal is a test of prefix. *)
Lemma match_len_lits (pat s : jsstring) :
  match_len (lits pat) s
  = if starts_with pat s then Some (length pat) else None.
Proof.
  unfold match_len.
  assert (forall pos,
            match_here (lits pat) s pos None None
            = if starts_with pat s
              then Some (MRes (pos + length pat) None None) else None) as H.
  { revert s. induction pat as [|a pat IH]; intros s pos; simpl.
    - by rewrite Nat.add_0_r.
    - destruct s as [|b s]; [done|].
      rewrite (N.eqb_sym a b). destruct (b =? a)%N; simpl; [|done].
      rewrite IH. destruct (starts_with pat s); [|done].
      do 2 f_equal. lia. }
  rewrite H. by destruct (starts_with pat s).
Qed.

Lemma starts_with_length (p s : jsstring) :
  starts_with p s = true -> length p <= length s.
Proof.
  intros [t ->]%starts_with_prefix. rewrite length_app. lia.
Qed.

Lemma starts_with_head (a : N) (p s : jsstring) :
  starts_with (a :: p) s = true -> a ∈ s.
Proof. intros [t ->]%starts_with_prefix. apply elem_of_cons. by left. Qed.

(** A global replacement of a literal whose first code unit does not occur
    changes nothing. *)
Lemma replace_all_absent (a : N) (pat rep s : jsstring) :
  a ∉ s -> replace_all (lits (a :: pat)) rep s = s.
Proof.
  unfold replace_all. induction s as [|c s IH]; intros Ha.
  - reflexivity.
  - cbn [replace_go]. rewrite match_len_lits.
    destruct (starts_with (a :: pat) (c :: s)) eqn:E.
    + by apply starts_with_head in E.
    + rewrite IH; [done|]. by apply not_elem_of_cons in Ha as [_ ?].
Qed.

(** A global replacement of a literal by a text that is not longer does not
    lengthen the text. *)
Lemma replace_go_length (pat rep : jsstring) (skip : nat) (s : jsstring) :
  pat <> [] -> length rep <= length pat -> skip <= length s ->
  length (replace_go (lits pat) rep skip s) <= length s - skip.
Proof.
  intros Hpat Hrep. revert skip.
  induction s as [|c s IH]; intros skip Hskip.
  - simpl in Hskip. assert (skip = 0) as -> by lia. cbn [replace_go].
    rewrite match_len_lits. destruct pat; [done|]. simpl. lia.
  - destruct skip as [|skip]; cbn [replace_go].
    + rewrite match_len_lits.
      destruct (starts_with pat (c :: s)) eqn:E.
      * apply starts_with_length in E. simpl in E.
        destruct (length pat) as [|n] eqn:L; [by destruct pat|].
        rewrite length_app. specialize (IH n ltac:(lia)). simpl. lia.
      * specialize (IH 0 ltac:(lia)). simpl. lia.
    + specialize (IH skip ltac:(simpl in Hskip; lia)). simpl. lia.
Qed.

Lemma replace_all_length (pat rep s : jsstring) :
  pat <> [] -> length rep <= length pat ->
  length (replace_all (lits pat) rep s) <= length s.
Proof.
  intros Hpat Hrep.
  pose proof (replace_go_length pat rep 0 s Hpat Hrep ltac:(lia)).
  unfold replace_all. lia.
Qed.

(** The replacement of a class by one code unit works code unit by code
    unit. *)
Lemma replace_all_class (p : N -> bool) (r : N) (s : jsstring) :
  replace_all [Cls p] [r] s = (fun c => if p c then r else c) <$> s.
Proof.
  unfold replace_all. induction s as [|c s IH]; [done|].
  cbn [replace_go]. unfold match_len. cbn [match_here].
  rewrite fmap_cons. destruct (p c); cbn [fmap option_fmap option_map m_end app];
    by rewrite IH.
Qed.

Lemma sanitize_char_valid (c : N) :
  is_invalid_filename_char (sanitize_char c) = false.
Proof.
  unfold sanitize_char. by destruct (is_invalid_filename_char c) eqn:E.
Qed.

(** X1: [sanitizeFilename] works code unit by code unit: an invalid code
    unit becomes an underscore and every other one stays, so that the
    length is kept and no invalid code unit is left. *)
Theorem sanitizeFilename_pointwise (name : jsstring) :
  sanitizeFilename name = sanitize_char <$> name
  /\ length (sanitizeFilename name) = length name
  /\ Forall (fun c => is_invalid_filename_char c = false)
            (sanitizeFilename name).
Proof.
  assert (sanitizeFilename name = sanitize_char <$> name) as ->
    by apply replace_all_class.
  split_and!; [done|by rewrite length_fmap|].
  apply Forall_fmap, Forall_forall. intros c _. apply sanitize_char_valid.
Qed.

Lemma sanitizeFilename_fmap (name : jsstring) :
  sanitizeFilename name = sanitize_char <$> name.
Proof. apply replace_all_class. Qed.

(** X2: [sanitizeFilename] leaves a name without invalid code unit as it
    is, and so applying it twice is applying it once; it also goes through
    concatenation. *)
Theorem sanitizeFilename_idempotent :
  (forall name,
      Forall (fun c => is_invalid_filename_char c = false) name ->
      sanitizeFilename name = name)
  /\ (forall name,
        sanitizeFilename (sanitizeFilename name) = sanitizeFilename name)
  /\ (forall a b,
        sanitizeFilename (a ++ b) = sanitizeFilename a ++ sanitizeFilename b).
Proof.
  assert (forall name,
            Forall (fun c => is_invalid_filename_char c = false) name ->
            sanitizeFilename name = name) as Hfix.
  { intros name H. rewrite sanitizeFilename_fmap.
    induction H as [|c name Hc _ IH]; [done|].
    rewrite fmap_cons, IH. unfold sanitize_char. by rewrite Hc. }
  split_and!; [done| |].
  - intros name. apply Hfix. rewrite sanitizeFilename_fmap.
    apply Forall_fmap, Forall_forall. intros c _. apply sanitize_char_valid.
  - intros a b. by rewrite !sanitizeFilename_fmap, fmap_app.
Qed.

Lemma unescape_steps (text : jsstring) (table : list (jsstring * jsstring)) :
  Forall (fun '(entity, replacement) =>
            (exists rest, entity = AMPERSAND :: rest)
            /\ length replacement <= length entity) table ->
  (AMPERSAND ∉ text ->
   foldl (fun result '(entity, replacement) =>
            replace_all (lits entity) replacement result) text table = text)
  /\ length (foldl (fun result '(entity, replacement) =>
                      replace_all (lits entity) replacement result)
                   text table) <= length text.
Proof.
  intros H. revert text.
  induction H as [|[entity replacement] table [[rest ->] Hlen] _ IH];
    intros text; [done|].
  cbn [foldl]. destruct (IH (replace_all (lits (AMPERSAND :: rest))
                               replacement text)) as [IH1 IH2].
  split.
  - intros Hamp. rewrite replace_all_absent in IH1 |- * by done. auto.
  - etrans; [exact IH2|]. by apply replace_all_length.
Qed.

(** X3: [unescapeHTML] leaves a text without ampersand as it is, and never
    makes a text longer. *)
Theorem unescapeHTML_plain (text : jsstring) :
  (AMPERSAND ∉ text -> unescapeHTML text = text)
  /\ length (unescapeHTML text) <= length text.
Proof.
  apply unescape_steps. unfold entities.
  repeat constructor; try (by eexists); by vm_compute.
Qed.

End ContentMore.
Import ContentMore.

(** ** Trimming *)

Module TrimFacts.

Lemma drop_spaces_head (s : jsstring) (c : N) :
  head (drop_spaces s) = Some c -> is_space c = false.
Proof.
  induction s as [|a s IH]; simpl; [done|].
  destruct (is_space a) eqn:E; [done|]. simpl. by intros [= <-].
Qed.

Lemma drop_spaces_id (s : jsstring) :
  (forall c, head s = Some c -> is_space c = false) -> drop_spaces s = s.
Proof. destruct s as [|a s]; simpl; [done|]. intros H. by rewrite H. Qed.

Lemma last_suffix (k l : jsstring) :
  k `suffix_of` l -> k <> [] -> last k = last l.
Proof.
  intros [pre ->] Hk. destruct k as [|a k] using rev_ind; [done|].
  by rewrite app_assoc, !last_snoc.
Qed.

Lemma trim_trimmed (s : jsstring) : trimmed (trim s).
Proof.
  unfold trim, trimmed. split; intros c.
  - rewrite head_reverse. intros H.
    rewrite (last_suffix _ (reverse (drop_spaces s))) in H.
    + rewrite last_reverse in H. by apply drop_spaces_head in H.
    + apply drop_spaces_suffix.
    + by destruct (drop_spaces (reverse (drop_spaces s))).
  - rewrite last_reverse. apply drop_spaces_head.
Qed.

(** Trimming a trimmed text changes nothing. *)
Lemma trim_id (s : jsstring) : trimmed s -> trim s = s.
Proof.
  intros [Hh Hl]. unfold trim. rewrite (drop_spaces_id s) by done.
  rewrite drop_spaces_id; [apply reverse_involutive|].
  intros c. rewrite head_reverse. apply Hl.
Qed.

Lemma head_join (sep p : jsstring) (ps : list jsstring) :
  p <> [] -> head (join sep (p :: ps)) = head p.
Proof. destruct p; [done|]. by destruct ps. Qed.

Lemma last_app_nonempty (a b : jsstring) :
  b <> [] -> last (a ++ b) = last b.
Proof.
  intros Hb. destruct b as [|x b] using rev_ind; [done|].
  by rewrite app_assoc, !last_snoc.
Qed.

Lemma last_join (sep : jsstring) (ps : list jsstring) (p : jsstring) :
  p <> [] -> last (join sep (ps ++ [p])) = last p.
Proof.
  intros Hp. induction ps as [|q ps IH]; [done|].
  change (join sep ((q :: ps) ++ [p])) with (join sep (q :: (ps ++ [p]))).
  destruct (ps ++ [p]) as [|x xs] eqn:E; [by destruct ps|].
  change (join sep (q :: x :: xs)) with (q ++ sep ++ join sep (x :: xs)).
  rewrite <- IH.
  assert (join sep (x :: xs) <> []) as Hne.
  { intros Hnil. rewrite Hnil in IH.
    destruct p as [|y p _] using rev_ind; [done|].
    by rewrite last_snoc in IH. }
  rewrite (last_app_nonempty q).
  - by rewrite (last_app_nonempty sep).
  - intros H. by apply app_eq_nil in H as [_ ?].
Qed.

Lemma trimmed_join (sep : jsstring) (ps : list jsstring) :
  Forall (fun p => p <> [] /\ trimmed p) ps -> trimmed (join sep ps).
Proof.
  intros H. split; intros c.
  - destruct ps as [|p ps]; [done|].
    apply Forall_cons in H as [[Hne [Hh _]] _].
    rewrite head_join by done. apply Hh.
  - destruct ps as [|p ps] using rev_ind; [done|].
    apply Forall_app in H as [_ H].
    apply Forall_singleton in H as [Hne [_ Hl]].
    rewrite last_join by done. apply Hl.
Qed.

Lemma trimmed_lines (s : jsstring) :
  Forall (fun p => paragraph p /\ trimmed p)
    (filter (fun line => (0 <? length line)%nat) (trim <$> split [LF] s)).
Proof.
  pose proof (ContentFacts.paragraphs_of_lines s) as H.
  rewrite Forall_forall in H |- *. intros p Hp. split; [by apply H|].
  apply list_elem_of_filter in Hp as [_ Hp].
  apply list_elem_of_fmap in Hp as (l & -> & _). apply trim_trimmed.
Qed.

(** X4: every result of [cleanText] is a sequence of paragraphs separated
    by one blank line, each of them on one line, not empty, and without
    white space at either end; the result itself has no white space at
    either end, so trimming it changes nothing. *)
Theorem cleanText_trimmed (text : jsstring) :
  (exists paragraphs,
      cleanText text = join [LF; LF] paragraphs
      /\ Forall (fun p => paragraph p /\ trimmed p) paragraphs)
  /\ trimmed (cleanText text)
  /\ trim (cleanText text) = cleanText text.
Proof.
  assert (exists paragraphs,
             cleanText text = join [LF; LF] paragraphs
             /\ Forall (fun p => paragraph p /\ trimmed p) paragraphs)
    as (ps & Heq & Hps).
  { unfold cleanText. eexists. split; [|apply trimmed_lines].
    apply ContentFacts.replace_newlines_id, ContentFacts.lf3_free_join.
    eapply Forall_impl; [apply trimmed_lines|]. by intros p [? _]. }
  assert (trimmed (cleanText text)) as Ht.
  { rewrite Heq. apply trimmed_join.
    eapply Forall_impl; [exact Hps|]. by intros p [[? _] ?]. }
  split_and!; [by exists ps|done|by apply trim_id].
Qed.

Lemma cleanText_is_trimmed (text : jsstring) : trimmed (cleanText text).
Proof.
  unfold cleanText. rewrite ContentFacts.replace_newlines_id.
  - apply trimmed_join. eapply Forall_impl; [apply trimmed_lines|].
    by intros p [[? _] ?].
  - apply ContentFacts.lf3_free_join.
    eapply Forall_impl; [apply trimmed_lines|]. by intros p [? _].
Qed.

Lemma or_else_nonempty (a : option jsstring) (b : jsstring) :
  b <> [] -> or_else a b <> [].
Proof. by destruct a as [[|c s]|]. Qed.

Lemma episodeTitle_nonempty (doc : Document) : episodeTitle_of doc <> [].
Proof.
  unfold episodeTitle_of. destruct (first_match doc titleSelectors); [|done].
  by do 2 apply or_else_nonempty.
Qed.

(** X5: a successful outcome of [fetchNovelContent] never has an empty
    title, and its content has no white space at either end. *)
Theorem success_title_and_content (reply : NetReply) (url : jsstring)
    (episodeTitle content : jsstring) :
  fetchNovelContent reply url = success episodeTitle content ->
  episodeTitle <> [] /\ trimmed content.
Proof.
  unfold fetchNovelContent, await_fetch, await_document, mbind, Exn_bind,
    try_catch.
  destruct reply as [message|status body]; [done|].
  destruct (status =? 403)%Z; [done|].
  destruct (negb (response_ok status)); [done|].
  destruct body as [message|doc]; [done|].
  destruct (first_match doc contentSelectors) as [e|]; [|done].
  intros [= <- <-]. split; [apply episodeTitle_nonempty|].
  destruct (starts_with _ _); [apply trim_trimmed|apply cleanText_is_trimmed].
Qed.

(** A page without title element: the placeholder is the title. *)
Lemma success_title_and_content_witness :
  lit "Untitled Episode" <> [] /\ trimmed (lit "Hello").
Proof.
  apply (success_title_and_content
           (NetResponse 200 (BodyDoc untitled_document))
           (lit "https://booktoki.example/novel/1")).
  reflexivity.
Defined.

End TrimFacts.
Import TrimFacts.

(** ** More on the progress tracker *)

Module ProgressMore.
Import JsNumber Progress.

Lemma update_tracker (t : Tracker) (now completedItems : Z) :
  totalItems (snd (update t now completedItems)) = totalItems t
  /\ startTime (snd (update t now completedItems)) = startTime t
  /\ (length (processingTimes t) <= MAX_SAMPLES ->
      length (processingTimes (snd (update t now completedItems)))
      = if (0 <? completedItems)%Z
        then S (length (processingTimes t)) `min` MAX_SAMPLES
        else length (processingTimes t)).
Proof.
  unfold update. cbn [snd totalItems startTime processingTimes].
  split_and!; [done|done|]. intros Hlen.
  destruct (0 <? completedItems)%Z; [|done].
  rewrite length_app. simpl length.
  destruct (MAX_SAMPLES <? length (processingTimes t) + 1) eqn:E.
  - apply Nat.ltb_lt in E. rewrite length_drop, length_app.
    unfold MAX_SAMPLES in *. simpl length. lia.
  - apply Nat.ltb_ge in E. unfold MAX_SAMPLES in *.
    rewrite length_app. simpl length. lia.
Qed.

Lemma updates_window (t : Tracker) (calls : list (Z * Z)) :
  length (processingTimes t) <= MAX_SAMPLES ->
  totalItems (updates t calls) = totalItems t
  /\ startTime (updates t calls) = startTime t
  /\ length (processingTimes (updates t calls))
     = (length (processingTimes t) + sampling calls) `min` MAX_SAMPLES.
Proof.
  revert t. induction calls as [|[now c] calls IH]; intros t Hlen.
  - unfold sampling. simpl. split_and!; [done|done|lia].
  - destruct (update_tracker t now c) as (Ht & Hs & Hw).
    specialize (Hw Hlen).
    change (updates t ((now, c) :: calls))
      with (updates (snd (update t now c)) calls).
    destruct (IH (snd (update t now c))) as (IHt & IHs & IHw).
    { rewrite Hw. destruct (0 <? c)%Z; unfold MAX_SAMPLES in *; lia. }
    rewrite IHt, IHs, IHw, Ht, Hs, Hw. split_and!; [done|done|].
    unfold sampling. rewrite filter_cons. simpl snd.
    case_decide as D; destruct (0 <? c)%Z eqn:E; try done;
      simpl length; unfold MAX_SAMPLES in *; lia.
Qed.

Lemma most_recent_push {A : Type} (window rest : list A) (x : A) :
  length window <= MAX_SAMPLES ->
  let pushed := window ++ [x] in
  most_recent MAX_SAMPLES
    ((if MAX_SAMPLES <? length pushed then drop 1 pushed else pushed) ++ rest)
  = most_recent MAX_SAMPLES (window ++ x :: rest).
Proof.
  intros Hlen pushed. unfold most_recent.
  replace (window ++ x :: rest) with (pushed ++ rest)
    by (subst pushed; by rewrite <- app_assoc).
  assert (length pushed = S (length window)) as Hp
    by (subst pushed; rewrite length_app; simpl; lia).
  destruct (MAX_SAMPLES <? length pushed) eqn:E; [|done].
  apply Nat.ltb_lt in E.
  assert (drop 1 pushed ++ rest = drop 1 (pushed ++ rest)) as ->
    by (destruct pushed; [simpl in Hp; lia|done]).
  rewrite drop_drop, length_drop, !length_app. f_equal.
  unfold MAX_SAMPLES in *. lia.
Qed.

Lemma update_samples (t : Tracker) (now completedItems : Z)
    (rest : list num) :
  length (processingTimes t) <= MAX_SAMPLES ->
  most_recent MAX_SAMPLES
    (processingTimes (snd (update t now completedItems)) ++ rest)
  = most_recent MAX_SAMPLES
      (processingTimes t
       ++ samples (startTime t) [(now, completedItems)] ++ rest).
Proof.
  intros Hlen. unfold update, samples.
  cbn [snd processingTimes]. rewrite filter_cons, filter_nil. cbn [snd fst].
  destruct (0 <? completedItems)%Z eqn:E.
  - case_decide; [|done]. cbn [fmap list_fmap app].
    by apply most_recent_push.
  - case_decide; done.
Qed.

Lemma updates_samples (t : Tracker) (calls : list (Z * Z)) :
  length (processingTimes t) <= MAX_SAMPLES ->
  processingTimes (updates t calls)
  = most_recent MAX_SAMPLES
      (processingTimes t ++ samples (startTime t) calls).
Proof.
  revert t. induction calls as [|[now c] calls IH]; intros t Hlen.
  - unfold samples, most_recent. cbn [updates foldl filter list_filter fmap
                                      list_fmap].
    rewrite app_nil_r. replace (length (processingTimes t) - MAX_SAMPLES)
      with 0 by lia. done.
  - destruct (update_tracker t now c) as (Ht & Hs & Hw).
    specialize (Hw Hlen).
    change (updates t ((now, c) :: calls))
      with (updates (snd (update t now c)) calls).
    rewrite IH, Hs.
    + rewrite update_samples by done. f_equal. f_equal.
      unfold samples. rewrite (filter_cons _ (now, c)), filter_nil.
      rewrite (filter_cons _ (now, c) calls).
      by case_decide.
    + rewrite Hw. destruct (0 <? c)%Z; unfold MAX_SAMPLES in *; lia.
Qed.

(** X6: whatever calls of [update] follow its creation, a tracker keeps
    its total and its start time, and its window of samples holds the
    samples of the calls with [completedItems > 0], the five most recent
    of them when there are more, oldest first; a sample is the time
    elapsed since the creation divided by [completedItems]. *)
Theorem tracker_window (total start : Z) (calls : list (Z * Z)) :
  let t := updates (createProgressTracker total start) calls in
  totalItems t = total
  /\ startTime t = start
  /\ processingTimes t = most_recent 5 (samples start calls)
  /\ length (processingTimes t) = sampling calls `min` MAX_SAMPLES
  /\ length (processingTimes t) <= 5.
Proof.
  intros t.
  destruct (updates_window (createProgressTracker total start) calls)
    as (Ht & Hs & Hw); [simpl; unfold MAX_SAMPLES; lia|].
  pose proof (updates_samples (createProgressTracker total start) calls)
    as Hp.
  subst t. rewrite Ht, Hs, Hw. change (length (processingTimes
    (createProgressTracker total start))) with 0. unfold MAX_SAMPLES.
  split_and!; [done|done| |done|lia].
  apply Hp. simpl. unfold MAX_SAMPLES. lia.
Qed.

(** Seven calls, one of them with no item completed: the window holds the
    samples of the last five of the other six. *)
Example tracker_window_slides :
  let calls :=
    [(1000, 1); (2000, 2); (2500, 0); (3000, 3); (4000, 4); (5000, 5);
     (6600, 6)]%Z in
  processingTimes (updates (createProgressTracker 10 0) calls)
  = [1000; 1000; 1000; 1000; 1100]%float.
Proof. by vm_compute. Qed.

End ProgressMore.
(** ** More on the download loop *)

Module JobFacts.
Import Orchestrator.

Section Loop.
Context (w : World) (delayMs : Z) (saveAsZip : bool).

(** What one turn of the loop adds to the state. *)
Lemma iteration_adds (i : nat) (episodeUrl : jsstring) (st : LoopState) :
  let item :=
    (episodeUrl, fetchNovelContent (net w i episodeUrl) episodeUrl) in
  let st' := iteration w delayMs saveAsZip i episodeUrl st in
  events st' = events st ++ paced delayMs [episodeUrl]
  /\ skippedChapters st'
     = skippedChapters st ++ omap skipped_entry [item]
  /\ incompleteChapters st'
     = incompleteChapters st ++ omap incomplete_entry [item]
  /\ completedEpisodes st'
     = completedEpisodes st + length (filter (is_success ∘ snd) [item])
  /\ novelText st'
     = novelText st ++ (if saveAsZip then [] else merged_section item)
  /\ (saveAsZip = false -> zip st' = zip st).
Proof.
  intros item st'. subst item st'.
  rewrite OrchestratorFacts.events_iteration.
  unfold iteration, end_iteration.
  destruct (Progress.update _ _ _) as [stats tracker].
  rewrite filter_cons, filter_nil.
  destruct (fetchNovelContent _ _) as [t c| | | |];
    cbn [events skippedChapters incompleteChapters completedEpisodes
         novelText zip record_result begin_fetch omap list_omap
         skipped_entry incomplete_entry merged_section is_success
         snd fst compose];
    rewrite ?app_nil_r;
    (split_and!; [done|done|done| |by destruct saveAsZip; rewrite ?app_nil_r|by intros ->]);
    case_decide as D; simpl in D; try done; simpl length; lia.
Qed.

(** The loop handles a prefix of the URLs: all of them unless the flag is
    raised; and its state is the initial one with what each of these turns
    adds, in order. *)
Lemma loop_adds (i : nat) (urls : list jsstring) (st : LoopState) :
  let final := loop w delayMs saveAsZip i urls st in
  exists m,
    m <= length urls
    /\ (isDownloadCancelled final = false -> m = length urls)
    /\ handled final = handled st + m
    /\ events final = events st ++ paced delayMs (take m urls)
    /\ skippedChapters final
       = skippedChapters st
         ++ omap skipped_entry (take m (results_from w i urls))
    /\ incompleteChapters final
       = incompleteChapters st
         ++ omap incomplete_entry (take m (results_from w i urls))
    /\ completedEpisodes final
       = completedEpisodes st
         + length (filter (is_success ∘ snd) (take m (results_from w i urls)))
    /\ novelText final
       = novelText st
         ++ (if saveAsZip then []
             else mjoin (merged_section <$> take m (results_from w i urls)))
    /\ (saveAsZip = false -> zip final = zip st).
Proof.
  revert i st. induction urls as [|u rest IH]; intros i st final.
  - exists 0. subst final. cbn [loop take results_from omap list_omap fmap
      list_fmap mjoin list_join filter list_filter length paced mbind
      list_bind].
    rewrite !app_nil_r, !Nat.add_0_r.
    split_and!; try done. destruct saveAsZip; by rewrite ?app_nil_r.
  - subst final. cbn [loop].
    destruct (isDownloadCancelled st) eqn:C.
    + exists 0. cbn [take results_from omap list_omap fmap
        list_fmap mjoin list_join filter list_filter length paced mbind
        list_bind].
      rewrite !app_nil_r, !Nat.add_0_r.
      split_and!; try done; [lia|by rewrite C|].
      destruct saveAsZip; by rewrite ?app_nil_r.
    + destruct (iteration_adds i u st) as (He & Hs & Hi & Hc & Ht & Hz).
      destruct (IH (S i) (iteration w delayMs saveAsZip i u st))
        as (m & Hm & Hall & Hh & IHe & IHs & IHi & IHc & IHt & IHz).
      exists (S m). cbn [take results_from length].
      rewrite Hh, IHe, IHs, IHi, IHc, IHt, He, Hs, Hi, Hc, Ht.
      rewrite OrchestratorFacts.handled_iteration.
      set (item := (u, fetchNovelContent (net w i u) u)).
      set (items := take m (results_from w (S i) rest)).
      change (item :: items) with ([item] ++ items).
      change (u :: take m rest) with ([u] ++ take m rest).
      unfold paced.
      rewrite bind_app, !omap_app, filter_app, length_app.
      rewrite <- !app_assoc.
      split_and!; try done; try lia.
      * intros Hf. by rewrite Hall.
      * destruct saveAsZip; reflexivity.
      * intros Hz'. by rewrite IHz, Hz.
Qed.

End Loop.


Lemma results_from_elem (w : World) (i : nat) (urls : list jsstring)
    (item : jsstring * FetchResult) :
  item ∈ results_from w i urls ->
  exists j, urls !! j = Some (fst item)
            /\ snd item
               = fetchNovelContent (net w (i + j) (fst item)) (fst item).
Proof.
  revert i. induction urls as [|u rest IH]; intros i H; simpl in H.
  - by apply elem_of_nil in H.
  - apply elem_of_cons in H as [->|H].
    + exists 0. by rewrite Nat.add_0_r.
    + destruct (IH (S i) H) as (j & Hj & Hr). exists (S j).
      split; [done|]. by replace (i + S j) with (S i + j) by lia.
Qed.

Lemma results_from_length (w : World) (i : nat) (urls : list jsstring) :
  length (results_from w i urls) = length urls.
Proof. revert i. induction urls; intros i; simpl; [done|]. by rewrite IHurls. Qed.

(** X7: in every job the URLs are fetched in the order of the list, each
    once, and every fetch, failed or not, is followed by the delay: the
    events of the loop are a fetch and a delay for each of the URLs
    handled, which are all the URLs unless the flag is raised. *)
Theorem job_pacing (w : World) (title : jsstring) (urls : list jsstring)
    (delayMs : Z) (saveAsZip : bool) (zip0 : option Archive)
    (evs : list Event) :
  let final :=
    loop w delayMs saveAsZip 0 urls
      (initial_state w title (length urls) zip0 evs) in
  events final = evs ++ paced delayMs (take (handled final) urls)
  /\ (isDownloadCancelled final = false ->
      events final = evs ++ paced delayMs urls).
Proof.
  intros final.
  destruct (loop_adds w delayMs saveAsZip 0 urls
              (initial_state w title (length urls) zip0 evs))
    as (m & Hm & Hall & Hh & He & _).
  fold final in Hall, Hh, He. change (handled _ + m) with m in Hh.
  rewrite Hh. split; [done|].
  intros Hf. rewrite He, (Hall Hf). by rewrite firstn_all.
Qed.

(** X8: the state a job ends in is read off the outcomes of the items
    handled, in order: the skipped list has the URLs answered with 403, the
    incomplete list has the other failures with their reasons, the count
    of completed chapters is the number of successes, and the merged text
    is the header followed by one section for each success (in archive
    mode the text stays the header; in merged mode the archive is not
    touched). *)
Theorem job_outcome (w : World) (title : jsstring) (urls : list jsstring)
    (delayMs : Z) (saveAsZip : bool) (zip0 : option Archive)
    (evs : list Event) :
  let final :=
    loop w delayMs saveAsZip 0 urls
      (initial_state w title (length urls) zip0 evs) in
  let outcomes := take (handled final) (results_from w 0 urls) in
  skippedChapters final = omap skipped_entry outcomes
  /\ incompleteChapters final = omap incomplete_entry outcomes
  /\ completedEpisodes final = length (filter (is_success ∘ snd) outcomes)
  /\ novelText final
     = novelText_header title
       ++ (if saveAsZip then [] else mjoin (merged_section <$> outcomes))
  /\ (saveAsZip = false -> zip final = zip0).
Proof.
  intros final outcomes.
  destruct (loop_adds w delayMs saveAsZip 0 urls
              (initial_state w title (length urls) zip0 evs))
    as (m & Hm & Hall & Hh & He & Hs & Hi & Hc & Ht & Hz).
  fold final in Hh, Hs, Hi, Hc, Ht, Hz.
  change (handled _ + m) with m in Hh. subst outcomes. rewrite Hh.
  by split_and!.
Qed.

End JobFacts.

(** ** The report of a job and the retry from it *)

Module RetryFacts.
Import Orchestrator Retry Crawler ReportFacts.

Lemma digits_go_digits (fuel : nat) (n : N) (acc : jsstring) :
  Forall (fun c => is_digit c = true) acc ->
  Forall (fun c => is_digit c = true) (digits_go fuel n acc).
Proof.
  revert n acc. induction fuel as [|f IH]; intros n acc Hacc; [done|].
  cbn [digits_go].
  assert (Forall (fun c => is_digit c = true) ((48 + n mod 10)%N :: acc))
    as Hacc'.
  { constructor; [|done].
    assert (n mod 10 < 10)%N as Hr by (by apply N.mod_lt).
    revert Hr. generalize (n mod 10)%N. intros r Hr.
    unfold is_digit. apply andb_true_iff. split; apply N.leb_le; lia. }
  destruct (n / 10 =? 0)%N; [done|by apply IH].
Qed.

(** The code units of a rendered integer: digits, after a minus sign at
    most. *)
Lemma of_Z_digits (z : Z) :
  Forall (fun c => c = 45%N \/ is_digit c = true) (of_Z z).
Proof.
  assert (forall n, Forall (fun c => c = 45%N \/ is_digit c = true) (of_N n))
    as Hn.
  { intros n. eapply Forall_impl; [by apply digits_go_digits|].
    intros c Hc. by right. }
  unfold of_Z. destruct (z <? 0)%Z; [|done].
  constructor; [by left|done].
Qed.

Lemma of_Z_no_lf (z : Z) : LF ∉ of_Z z.
Proof.
  intros H. pose proof (of_Z_digits z) as Hd.
  rewrite Forall_forall in Hd. by destruct (Hd _ H).
Qed.

(** What a line contributes, split at the end of the scheme. *)
Lemma parse_line_shape (line u : jsstring) :
  parse_line line = Some u ->
  exists scheme body,
    u = scheme ++ body
    /\ (scheme = lit "http://" \/ scheme = lit "https://")
    /\ body <> [] /\ forallb not_space body = true.
Proof.
  unfold parse_line, match_group1. intros H.
  destruct (search_go re_url line line 0) as [cap|] eqn:S; [|done].
  apply (search_go_inv re_url [] line) in S
    as (pre & s & r & Hline & Hm & ->). simpl in Hline. subst line.
  unfold re_url in Hm.
  apply match_here_lits_inv in Hm as (s1 & -> & Hm).
  change (match_here ([GOpen] ++ ?re) ?s ?pos ?gs ?ge)
    with (match_here re s pos (Some pos) ge) in Hm.
  apply match_here_lits_inv in Hm as (s2 & -> & Hm).
  change ([Opt ?p] ++ ?re) with (Opt p :: re) in Hm.
  assert (exists scheme s3,
            (scheme = lit "http://" \/ scheme = lit "https://")
            /\ lit "http" ++ s2 = scheme ++ s3
            /\ match_here [Rep not_space 1; GClose] s3
                 (length pre + 5 + length scheme)
                 (Some (length pre + 5)) None = Some r)
    as (scheme & s3 & Hscheme & Hs2 & Hm').
  { apply match_here_opt_inv in Hm as [(c & s' & -> & Hc & Hm)|Hm].
    - apply N.eqb_eq in Hc as <-.
      apply match_here_lits_inv in Hm as (s3 & -> & Hm).
      exists (lit "https://"), s3. split_and!; [by right|done|].
      rewrite <- Hm. f_equal; simpl; lia.
    - apply match_here_lits_inv in Hm as (s3 & -> & Hm).
      exists (lit "http://"), s3. split_and!; [by left|done|].
      rewrite <- Hm. f_equal; simpl; lia. }
  rewrite Hs2 in *. clear Hs2 Hm s2.
  cbn [match_here] in Hm'.
  apply rep_greedy_inv in Hm' as (body & rest & -> & Hns & Hlen & Hk).
  injection Hk as <-. cbv beta iota delta [g_start g_end] in H.
  assert (pre ++ lit "URL: " ++ scheme ++ body ++ rest
          = (pre ++ lit "URL: ") ++ (scheme ++ body) ++ rest) as Heq
    by (by rewrite <- !app_assoc).
  rewrite Heq in H.
  replace (length pre + 5) with (length (pre ++ lit "URL: ")) in H
    by (by rewrite length_app).
  rewrite drop_app_length in H.
  replace (length (pre ++ lit "URL: ") + length scheme + length body
           - length (pre ++ lit "URL: "))
    with (length (scheme ++ body)) in H by (rewrite length_app; lia).
  rewrite take_app_length in H.
  destruct (0 <? length (scheme ++ body)); [|done]. injection H as <-.
  exists scheme, body. split_and!; [done|done| |done].
  intros ->. simpl in Hlen. lia.
Qed.

Lemma shape_retryable (scheme body : jsstring) :
  scheme = lit "http://" \/ scheme = lit "https://" ->
  body <> [] -> forallb not_space body = true ->
  retryable_url (scheme ++ body) = true.
Proof.
  intros Hscheme Hbody Hns. unfold retryable_url.
  rewrite forallb_app, Hns, andb_true_r.
  assert (length scheme < length (scheme ++ body)) as Hlen.
  { rewrite length_app. destruct body; [done|simpl; lia]. }
  apply andb_true_iff. split; [|by destruct Hscheme as [-> | ->]].
  apply orb_true_iff.
  destruct Hscheme as [-> | ->]; [left|right];
    (apply andb_true_iff; split;
     [apply starts_with_app|by apply Nat.ltb_lt]).
Qed.

Lemma parseReportFile_retryable (fileContent : jsstring) :
  Forall (fun u => retryable_url u = true) (parseReportFile fileContent).
Proof.
  apply Forall_forall. intros u.
  unfold parseReportFile. rewrite list_elem_of_omap.
  intros (line & _ & Hline).
  apply parse_line_shape in Hline as (scheme & body & -> & ? & ? & ?).
  by apply shape_retryable.
Qed.

(** Parsing the text of a report whose entries are well formed. *)
Lemma parse_reportContent (skipped incomplete : list chapter) :
  Forall (fun item => retryable_url (url item) = true /\ LF ∉ reason item)
         skipped ->
  Forall (fun item => retryable_url (url item) = true /\ LF ∉ reason item)
         incomplete ->
  parseReportFile (reportContent skipped incomplete)
  = (url <$> skipped) ++ (url <$> incomplete).
Proof.
  intros Hsk Hinc.
  rewrite reportContent_sections.
  rewrite !parseReportFile_app.
  rewrite !parse_section by (done || by vm_compute).
  change (parseReportFile []) with (@nil jsstring).
  change (parseReportFile (lit "--- Skipped Chapters (CAPTCHA / 403) ---"))
    with (@nil jsstring).
  change (parseReportFile (lit "--- Incomplete/Failed Chapters ---"))
    with (@nil jsstring).
  by rewrite !app_nil_r.
Qed.

(** Each outcome goes to one of the three counts. *)
Lemma outcomes_partition (items : list (jsstring * FetchResult)) :
  length (omap skipped_entry items) + length (omap incomplete_entry items)
  + length (filter (is_success ∘ snd) items) = length items.
Proof.
  induction items as [|[u r] items IH]; [done|].
  rewrite filter_cons.
  destruct r; cbn [omap list_omap skipped_entry incomplete_entry snd fst];
    case_decide as D; simpl in D; try done; unfold compose in *;
    simpl length; lia.
Qed.

Section Outcomes.
Context (w : World) (urls : list jsstring).
Hypothesis urls_retryable : Forall (fun u => retryable_url u = true) urls.
Hypothesis messages_one_line :
  forall i u u' message,
    fetchNovelContent (net w i u) u = fetch_error u' message -> LF ∉ message.

Lemma skipped_entries_ok (items : list (jsstring * FetchResult)) :
  items ⊆ results_from w 0 urls ->
  Forall (fun item => (retryable_url (url item) = true /\ LF ∉ reason item)
                      /\ url item ∈ urls)
         (omap skipped_entry items).
Proof using urls_retryable.
  clear messages_one_line.
  intros Hsub. apply Forall_forall. intros c.
  rewrite list_elem_of_omap. intros ([u r] & Hin & Hc).
  apply Hsub, JobFacts.results_from_elem in Hin as (j & Hj & _).
  simpl in Hj. apply list_elem_of_lookup_2 in Hj.
  rewrite Forall_forall in urls_retryable.
  unfold skipped_entry in Hc. cbn [snd fst] in Hc.
  destruct r; try done. apply (inj Some) in Hc as <-. cbn [url reason].
  split_and!; [by apply urls_retryable|by apply lit_no_lf|done].
Qed.

Lemma incomplete_entries_ok (items : list (jsstring * FetchResult)) :
  items ⊆ results_from w 0 urls ->
  Forall (fun item => (retryable_url (url item) = true /\ LF ∉ reason item)
                      /\ url item ∈ urls)
         (omap incomplete_entry items).
Proof using urls_retryable messages_one_line.
  intros Hsub. apply Forall_forall. intros c.
  rewrite list_elem_of_omap. intros ([u r] & Hin & Hc).
  apply Hsub, JobFacts.results_from_elem in Hin as (j & Hj & Hr).
  simpl in Hj, Hr. pose proof (list_elem_of_lookup_2 _ _ _ Hj) as Hu.
  rewrite Forall_forall in urls_retryable.
  unfold incomplete_entry in Hc. cbn [snd fst] in Hc.
  destruct r; try done; apply (inj Some) in Hc as <-; cbn [url reason];
    (split_and!; [by apply urls_retryable| |done]).
  - rewrite !not_elem_of_app. split_and!;
      [by apply lit_no_lf|apply of_Z_no_lf|by apply lit_no_lf].
  - by apply lit_no_lf.
  - rewrite not_elem_of_app. split; [by apply lit_no_lf|].
    symmetry in Hr. by apply messages_one_line in Hr.
Qed.

End Outcomes.

(** X9: the report of a job that runs to its end lists what is left to
    do.  When the URLs of the job begin with a scheme, go on after it and
    hold no white space, and the messages of fetch errors are on one line,
    parsing the report gives the URLs of the skipped chapters followed by
    those of the incomplete ones; each of them is a URL of the job and can
    be parsed again; and together with the completed chapters they account
    for every URL of the job. *)
Theorem report_lists_failures (w : World) (title : jsstring)
    (urls : list jsstring) (delayMs : Z) (saveAsZip : bool)
    (originalFileNameForReport : option jsstring)
    (st : LoopState) (reportName report : jsstring)
    (archive : option Archive) (evs : list Event) :
  processDownloadCore w title urls delayMs saveAsZip
    originalFileNameForReport
  = (Completed st reportName report archive, evs) ->
  Forall (fun u => retryable_url u = true) urls ->
  (forall i u u' message,
      fetchNovelContent (net w i u) u = fetch_error u' message ->
      LF ∉ message) ->
  let urlsToRetry := parseReportFile report in
  urlsToRetry = (url <$> skippedChapters st) ++ (url <$> incompleteChapters st)
  /\ Forall (fun u => u ∈ urls /\ retryable_url u = true) urlsToRetry
  /\ length urlsToRetry + completedEpisodes st = length urls.
Proof.
  intros Hrun Hurls Hmsg urlsToRetry.
  rewrite OrchestratorFacts.processDownloadCore_cases in Hrun.
  destruct (setup_zip w saveAsZip) as [[zip0 evs0]|evs0]; [|done].
  cbv zeta in Hrun.
  destruct (JobFacts.loop_adds w delayMs saveAsZip 0 urls
              (initial_state w title (length urls) zip0 evs0))
    as (m & Hm & Hall & _ & _ & Hs & Hi & Hc & _).
  cbv zeta in Hall, Hs, Hi, Hc.
  destruct (isDownloadCancelled _) eqn:C; [done|].
  injection Hrun as <- _ <- _ _.
  rewrite (Hall eq_refl) in Hs, Hi, Hc.
  rewrite take_ge in Hs, Hi, Hc by (by rewrite JobFacts.results_from_length).
  change (skippedChapters (initial_state _ _ _ _ _)) with (@nil chapter) in Hs.
  change (incompleteChapters (initial_state _ _ _ _ _))
    with (@nil chapter) in Hi.
  change (completedEpisodes (initial_state _ _ _ _ _)) with 0 in Hc.
  rewrite app_nil_l in Hs, Hi. rewrite Nat.add_0_l in Hc.
  pose proof (skipped_entries_ok w urls Hurls (results_from w 0 urls)
                ltac:(done)) as Hsk.
  pose proof (incomplete_entries_ok w urls Hurls Hmsg (results_from w 0 urls)
                ltac:(done)) as Hinc.
  rewrite <- Hs in Hsk. rewrite <- Hi in Hinc.
  assert (urlsToRetry
          = (url <$> skippedChapters
                       (loop w delayMs saveAsZip 0 urls
                          (initial_state w title (length urls) zip0 evs0)))
            ++ (url <$> incompleteChapters
                          (loop w delayMs saveAsZip 0 urls
                             (initial_state w title (length urls) zip0 evs0))))
    as Hretry.
  { apply parse_reportContent;
      (eapply Forall_impl; [eassumption|]); by intros ? [? ?]. }
  split_and!; [done| |].
  - rewrite Hretry. apply Forall_app. split; apply Forall_fmap;
      (eapply Forall_impl; [eassumption|]); by intros c [[? ?] ?].
  - rewrite Hretry, length_app, !length_fmap, Hs, Hi, Hc.
    rewrite outcomes_partition. apply JobFacts.results_from_length.
Qed.

(** A job of three chapters of which the second is blocked and the third
    meets a server error: the report gives these two back. *)
Lemma report_lists_failures_witness :
  exists st reportName report archive evs,
    processDownloadCore scenario_world (lit "Novel") demo_urls 5000 false None
    = (Completed st reportName report archive, evs)
    /\ parseReportFile report
       = [lit "https://booktoki.example/novel/2";
          lit "https://booktoki.example/novel/3"]
    /\ completedEpisodes st = 1.
Proof.
  destruct (processDownloadCore scenario_world (lit "Novel") demo_urls 5000
              false None)
    as [[|st|st error|st reportName report archive] evs] eqn:E;
    [by vm_compute in E..|].
  destruct (report_lists_failures _ _ _ _ _ _ _ _ _ _ _ E)
    as (Hretry & _ & Hlen).
  - repeat constructor.
  - intros i u u' message Hf. destruct i as [|[|i]]; by vm_compute in Hf.
  - exists st, reportName, report, archive, evs.
    assert (parseReportFile report
            = [lit "https://booktoki.example/novel/2";
               lit "https://booktoki.example/novel/3"]) as Hp.
    { vm_compute in E. injection E as _ _ <- _ _. by vm_compute. }
    split_and!; [done|done|].
    rewrite Hp in Hlen. simpl in Hlen. lia.
Defined.

(** X10: what [parseReportFile] returns can always be retried: each URL
    begins with "http://" or "https://", goes on for at least one more code
    unit and holds no white space, so that a report written for these URLs
    (whatever the reasons, on one line each) parses to the same list.  In
    particular the retry of a retry file whose chapters all fail again
    leaves a report that parses to the same URLs, in the same order. *)
Theorem parseReportFile_fixpoint (fileContent : jsstring) :
  Forall (fun u => retryable_url u = true) (parseReportFile fileContent)
  /\ (forall skipped incomplete : list chapter,
        (url <$> skipped) ++ (url <$> incomplete)
        = parseReportFile fileContent ->
        Forall (fun item => LF ∉ reason item) (skipped ++ incomplete) ->
        parseReportFile (reportContent skipped incomplete)
        = parseReportFile fileContent).
Proof.
  pose proof (parseReportFile_retryable fileContent) as Hok.
  split; [done|]. intros skipped incomplete Hurls Hreasons.
  rewrite <- Hurls in Hok |- *.
  apply Forall_app in Hok as [Hsk Hinc].
  apply Forall_app in Hreasons as [Hrs Hri].
  rewrite Forall_fmap in Hsk, Hinc.
  rewrite Forall_forall in Hsk, Hinc, Hrs, Hri.
  apply parse_reportContent; apply Forall_forall; intros item Hin.
  - split; [exact (Hsk item Hin)|exact (Hrs item Hin)].
  - split; [exact (Hinc item Hin)|exact (Hri item Hin)].
Qed.

(** X11: the retry from a report file fetches only URLs read from the
    file: it starts no job when the file has no line with a URL or the
    page has no title, and otherwise (the file gives at least one URL and
    the page a title) runs [processDownloadCore] in archive mode, with the
    delay of 5000 ms, on the URLs of the file in their order; the URLs
    fetched are a prefix of them, all of them when the job runs to its
    end, and the report is then named after the title and the file. *)
Theorem retry_fetches_file_urls (w : World) (titleElement : option jsstring)
    (fileName content : jsstring) :
  match reader_onload w titleElement fileName content with
  | NoUrlsFound => parseReportFile content = []
  | TitleExtractionFailed =>
      parseReportFile content <> []
      /\ (titleElement = None \/ exists t, titleElement = Some t /\ trim t = [])
  | RetryJob (result, evs) =>
      parseReportFile content <> []
      /\ exists t,
        titleElement = Some t /\ trim t <> []
        /\ (result, evs)
           = processDownloadCore w (trim t) (parseReportFile content) 5000
               true (Some fileName)
        /\ fetches evs `prefix_of` parseReportFile content
        /\ forall st reportName report archive,
             result = Completed st reportName report archive ->
             fetches evs = parseReportFile content
             /\ reportName
                = sanitizeFilename (trim t)
                  ++ (if bool_decide (fileName = [])
                      then []
                      else lit "_retry_of_" ++ sanitizeFilename fileName)
                  ++ lit "_report.txt"
  end.
Proof.
  unfold reader_onload.
  destruct (parseReportFile content) as [|u0 us] eqn:Hp; [done|].
  cbn [length Nat.eqb].
  destruct titleElement as [t|]; cbn [extractTitle truthy negb];
    [|split; [done|by left]].
  destruct (trim t) as [|c title] eqn:Ht; cbn [truthy negb from_option id].
  { split; [done|]. right. by exists t. }
  destruct (processDownloadCore w (c :: title) (u0 :: us) 5000 true
              (Some fileName)) as [result evs] eqn:E.
  split; [done|]. exists t. rewrite Ht. split_and!; [done|done|done| |].
  - rewrite OrchestratorFacts.processDownloadCore_cases in E.
    pose proof (OrchestratorFacts.setup_zip_fetches w true) as Hz.
    destruct (setup_zip w true) as [[zip0 evs0]|evs0].
    + cbv zeta in E.
      destruct (JobFacts.loop_adds w 5000 true 0 (u0 :: us)
                  (initial_state w (c :: title) (length (u0 :: us)) zip0 evs0))
        as (m & _ & _ & _ & He & _).
      cbv zeta in He. unfold initial_state at 2 in He. simpl events at 2 in He.
      assert (forall d l, fetches (paced d l) = l) as Hpaced.
      { intros d l. induction l as [|x l IH]; [done|]. simpl. by f_equal. }
      assert (fetches (evs0 ++ paced 5000 (take m (u0 :: us)))
              = take m (u0 :: us)) as Hf.
      { rewrite OrchestratorFacts.fetches_app, Hpaced.
        by rewrite Hz. }
      destruct (isDownloadCancelled _); apply pair_equal_spec in E as [<- <-].
      * rewrite He, OrchestratorFacts.fetches_app, Hf.
        change (fetches [cancel_notice]) with (@nil jsstring).
        rewrite app_nil_r. apply prefix_take.
      * rewrite He, Hf. apply prefix_take.
    + apply pair_equal_spec in E as [<- <-]. rewrite Hz. apply prefix_nil.
  - intros st reportName report archive ->.
    rewrite OrchestratorFacts.processDownloadCore_cases in E.
    pose proof (OrchestratorFacts.setup_zip_fetches w true) as Hz.
    destruct (setup_zip w true) as [[zip0 evs0]|evs0]; [|done].
    cbv zeta in E.
    destruct (JobFacts.loop_adds w 5000 true 0 (u0 :: us)
                (initial_state w (c :: title) (length (u0 :: us)) zip0 evs0))
      as (m & _ & Hall & _ & He & _).
    cbv zeta in He, Hall. unfold initial_state at 2 in He.
    simpl events at 2 in He.
    destruct (isDownloadCancelled _); [done|].
    apply pair_equal_spec in E as [E <-].
    assert (reportName = reportFileName (c :: title) (Some fileName)) as ->
      by congruence.
    clear E. rewrite (Hall eq_refl), firstn_all in He.
    split.
    + rewrite He, OrchestratorFacts.fetches_app.
      rewrite Hz. simpl.
      f_equal. clear. induction us as [|x l IH]; [done|]. simpl. by f_equal.
    + unfold reportFileName. destruct fileName; reflexivity.
Qed.

(** X22: a job without URLs, which is what the handler of a save option
    starts when no link of the range begins with "https://booktoki", ends
    at once: once the archive is set up nothing is fetched and there is no
    turn in which it could be cancelled; no chapter is counted, the merged
    text is the header, the report lists nothing to retry, and the archive,
    in archive mode, holds the report and nothing else. *)
Theorem empty_job (w : World) (title : jsstring) (delayMs : Z)
    (saveAsZip : bool) (originalFileNameForReport : option jsstring) :
  match processDownloadCore w title [] delayMs saveAsZip
          originalFileNameForReport with
  | (SetupFailure, evs) => saveAsZip = true /\ fetches evs = []
  | (Cancelled _, _) | (Rejected _ _, _) => False
  | (Completed st reportName report archive, evs) =>
      completedEpisodes st = 0
      /\ novelText st = novelText_header title
      /\ parseReportFile report = []
      /\ fetches evs = []
      /\ archive
         = if saveAsZip then Some {[ reportName := report ]} else None
  end.
Proof.
  rewrite OrchestratorFacts.processDownloadCore_cases.
  pose proof (OrchestratorFacts.setup_zip_fetches w saveAsZip) as Hf.
  destruct (setup_zip w saveAsZip) as [[zip0 evs0]|evs0] eqn:Hs.
  - cbn [loop]. cbv zeta.
    change (isDownloadCancelled (initial_state _ _ _ _ _)) with false.
    cbv iota.
    change (events (initial_state _ _ _ _ evs0)) with evs0.
    change (zip (initial_state _ _ _ zip0 _)) with zip0.
    split_and!; [done|done|by vm_compute|done|].
    destruct saveAsZip.
    + apply OrchestratorFacts.setup_zip_archive in Hs as ->.
      cbn [fmap option_fmap option_map]. unfold zip_file.
      by rewrite insert_empty.
    + rewrite OrchestratorFacts.setup_zip_merged in Hs. by injection Hs as <- _.
  - split; [|done]. destruct saveAsZip; [done|].
    by rewrite OrchestratorFacts.setup_zip_merged in Hs.
Qed.

End RetryFacts.

(** ** The names of the files *)

Module NameFacts.
Import Orchestrator Completion Crawler.

Local Abbreviation valid_name :=
  (Forall (fun c => is_invalid_filename_char c = false)).

Lemma sanitizeFilename_valid (name : jsstring) :
  valid_name (sanitizeFilename name).
Proof.
  rewrite sanitizeFilename_fmap. apply Forall_fmap, Forall_forall.
  intros c _. apply sanitize_char_valid.
Qed.

Lemma lit_valid (s : string) :
  forallb (fun c => negb (is_invalid_filename_char c)) (lit s) = true ->
  valid_name (lit s).
Proof.
  intros H. apply Forall_forall. intros c Hc%list_elem_of_In.
  rewrite forallb_forall in H. apply H in Hc.
  by destruct (is_invalid_filename_char c).
Qed.

Lemma of_Z_valid (z : Z) : valid_name (of_Z z).
Proof.
  eapply Forall_impl; [apply RetryFacts.of_Z_digits|].
  intros c [-> | Hc]; [done|].
  unfold is_digit in Hc. apply andb_true_iff in Hc as [H1 H2].
  apply N.leb_le in H1, H2. unfold is_invalid_filename_char, DQUOTE.
  repeat (apply orb_false_iff; split); apply N.eqb_neq; lia.
Qed.

Lemma show_valid (v : option Z) : valid_name (show v).
Proof. destruct v; [apply of_Z_valid|by apply lit_valid]. Qed.

(** X12: no name the program gives to a file holds a code unit of the class
    [sanitizeFilename] replaces, whatever the title of the novel, the
    titles of the chapters and the name of the retry file: the entries of
    the archive (chapters and report) have no slash in their names, so the
    archive has no folders, and the names of the two downloads are valid
    too. *)
Theorem file_names_valid (title : jsstring)
    (originalFileNameForReport : option jsstring)
    (initialStartEpisode initialEndEpisode : option Z) :
  valid_name (reportFileName title originalFileNameForReport)
  /\ (forall episodeTitle, valid_name (entry_name episodeTitle))
  /\ valid_name (zip_download_name title)
  /\ valid_name
       (text_download_name title initialStartEpisode initialEndEpisode).
Proof.
  unfold reportFileName, entry_name, zip_download_name, text_download_name.
  split_and!; [|intros episodeTitle| |];
    rewrite ?Forall_app; split_and!;
    try apply sanitizeFilename_valid; try (by apply lit_valid).
  - destruct (truthy _); [|done].
    apply Forall_app. split; [by apply lit_valid|apply sanitizeFilename_valid].
  - destruct initialStartEpisode as [z|]; [|done].
    rewrite !Forall_app. split_and!;
      try apply show_valid; by apply lit_valid.
Qed.

Lemma loop_zip_some (w : World) (delayMs : Z) (saveAsZip : bool) (i : nat)
    (urls : list jsstring) (st : LoopState) :
  is_Some (zip st) -> is_Some (zip (loop w delayMs saveAsZip i urls st)).
Proof.
  revert i st. induction urls as [|u rest IH]; intros i st Hz; [done|].
  cbn [loop]. destruct (isDownloadCancelled st); [done|].
  apply IH. destruct Hz as [z Hz].
  unfold iteration, end_iteration.
  destruct (Progress.update _ _ _) as [stats tracker].
  cbn [zip]. unfold record_result.
  destruct (fetchNovelContent _ _); cbn [zip begin_fetch]; rewrite Hz;
    try (by eexists).
  destruct saveAsZip; by eexists.
Qed.

(** X13: the report is the last entry written to the archive, under its
    own name: in the archive of a job in archive mode that runs to its end
    the entry of that name is the report; and a chapter whose title, once
    sanitized, is the stem of the report name (the title of the novel, the
    part naming the retry file if any, and "_report") has the same entry
    name, so its text is not in the archive. *)
Theorem report_entry_last (w : World) (title : jsstring)
    (urls : list jsstring) (delayMs : Z)
    (originalFileNameForReport : option jsstring)
    (st : LoopState) (reportName report : jsstring)
    (archive : option Archive) (evs : list Event) :
  processDownloadCore w title urls delayMs true originalFileNameForReport
  = (Completed st reportName report archive, evs) ->
  exists a,
    archive = Some a
    /\ reportName = reportFileName title originalFileNameForReport
    /\ a !! reportName = Some report
    /\ forall episodeTitle,
         sanitizeFilename episodeTitle
         = sanitizeFilename title
           ++ (if truthy originalFileNameForReport
               then lit "_retry_of_"
                    ++ sanitizeFilename (default [] originalFileNameForReport)
               else [])
           ++ lit "_report" ->
         a !! entry_name episodeTitle = Some report.
Proof.
  rewrite OrchestratorFacts.processDownloadCore_cases.
  destruct (setup_zip w true) as [[zip0 evs0]|evs0] eqn:Hsetup; [|done].
  apply OrchestratorFacts.setup_zip_archive in Hsetup as ->.
  cbv zeta.
  destruct (isDownloadCancelled _); [done|].
  intros E. apply pair_equal_spec in E as [E _].
  assert (reportName = reportFileName title originalFileNameForReport) as Hn
    by congruence.
  assert (report
          = reportContent
              (skippedChapters
                 (loop w delayMs true 0 urls
                    (initial_state w title (length urls) (Some ∅) evs0)))
              (incompleteChapters
                 (loop w delayMs true 0 urls
                    (initial_state w title (length urls) (Some ∅) evs0))))
    as Hr by congruence.
  assert (archive
          = zip_file reportName report
            <$> zip (loop w delayMs true 0 urls
                       (initial_state w title (length urls) (Some ∅) evs0)))
    as -> by congruence.
  clear E.
  destruct (loop_zip_some w delayMs true 0 urls
              (initial_state w title (length urls) (Some ∅) evs0))
    as [z Hz]; [by eexists|].
  rewrite Hz. exists (zip_file reportName report z).
  split_and!; [done|done|apply lookup_insert_eq|].
  intros episodeTitle Ht.
  assert (entry_name episodeTitle = reportName) as ->;
    [|apply lookup_insert_eq].
  rewrite Hn. unfold entry_name, reportFileName. rewrite Ht.
  by rewrite <- !app_assoc.
Qed.

Lemma report_entry_last_witness :
  exists st report archive evs a,
    processDownloadCore scenario_world (lit "Novel") demo_urls 5000 true None
    = (Completed st (lit "Novel_report.txt") report archive, evs)
    /\ archive = Some a
    /\ a !! lit "Novel_report.txt" = Some report.
Proof.
  destruct (processDownloadCore scenario_world (lit "Novel") demo_urls 5000
              true None)
    as [[|st|st error|st reportName report archive] evs] eqn:E;
    [by vm_compute in E..|].
  destruct (report_entry_last _ _ _ _ _ _ _ _ _ _ E) as (a & Ha & Hn & Hl & _).
  exists st, report, archive, evs, a.
  assert (reportName = lit "Novel_report.txt") as Hn' by (by rewrite Hn).
  rewrite Hn' in Hl. split_and!; [by rewrite Hn'|done|done].
Defined.

End NameFacts.

(** ** The numbers read from the dialogs *)

Module NumberFacts.
Import Crawler.

Lemma digits_value_snoc (ds : jsstring) (d : N) :
  digits_value (ds ++ [d]) = (10 * digits_value ds + Z.of_N (d - 48))%Z.
Proof. unfold digits_value. by rewrite foldl_app. Qed.

Lemma digits_go_value (fuel : nat) (n : N) (acc : jsstring) :
  0 < fuel -> (n < 2 ^ N.of_nat fuel)%N ->
  exists ds,
    digits_go fuel n acc = ds ++ acc /\ ds <> []
    /\ Forall (fun c => is_digit c = true) ds
    /\ digits_value ds = Z.of_N n.
Proof.
  revert n acc. induction fuel as [|f IH]; intros n acc Hf Hn; [lia|].
  cbn [digits_go].
  pose proof (N.div_mod n 10 ltac:(done)) as Hdm.
  assert (n mod 10 < 10)%N as Hr by (by apply N.mod_lt).
  revert Hdm Hr. generalize (n mod 10)%N (n / 10)%N. intros r q Hdm Hr.
  assert (is_digit (48 + r) = true) as Hd.
  { unfold is_digit. apply andb_true_iff. split; apply N.leb_le; lia. }
  destruct (q =? 0)%N eqn:Hq.
  - apply N.eqb_eq in Hq. subst q. exists [(48 + r)%N].
    split_and!; [done|done|by constructor|].
    unfold digits_value. cbn [foldl]. lia.
  - apply N.eqb_neq in Hq.
    rewrite Nat2N.inj_succ, N.pow_succ_r' in Hn.
    destruct (IH q ((48 + r)%N :: acc)) as (ds & Hds & Hne & Hdig & Hval).
    + destruct f; [|lia]. change (2 ^ N.of_nat 0)%N with 1%N in Hn. lia.
    + lia.
    + exists (ds ++ [(48 + r)%N]). split_and!.
      * by rewrite Hds, <- app_assoc.
      * by destruct ds.
      * apply Forall_app. split; [done|by constructor].
      * rewrite digits_value_snoc, Hval. lia.
Qed.

(** The rendering of a natural number: digits, at least one, whose value
    is the number. *)
Lemma of_N_value (n : N) :
  of_N n <> [] /\ Forall (fun c => is_digit c = true) (of_N n)
  /\ digits_value (of_N n) = Z.of_N n.
Proof.
  destruct (digits_go_value (S (N.to_nat (N.log2 n))) n [])
    as (ds & Hds & Hne & Hdig & Hval); [lia| |].
  - rewrite Nat2N.inj_succ, N2Nat.id.
    destruct (N.eq_dec n 0%N) as [->|Hn]; [done|].
    apply N.log2_spec. lia.
  - unfold of_N. rewrite Hds, app_nil_r. done.
Qed.

Lemma digits_prefix_app (ds rest : jsstring) :
  Forall (fun c => is_digit c = true) ds ->
  (forall c, head rest = Some c -> is_digit c = false) ->
  digits_prefix (ds ++ rest) = ds.
Proof.
  intros Hds Hrest. induction Hds as [|d ds Hd _ IH]; simpl.
  - destruct rest as [|c rest]; [done|]. simpl. by rewrite (Hrest c).
  - by rewrite Hd, IH.
Qed.

Lemma drop_spaces_app_spaces (ws s : jsstring) :
  Forall (fun c => is_space c = true) ws ->
  drop_spaces (ws ++ s) = drop_spaces s.
Proof. induction 1 as [|c ws Hc _ IH]; simpl; [done|]. by rewrite Hc. Qed.

Lemma digit_not_space (c : N) :
  is_digit c = true ->
  is_space c = false /\ (c =? 45)%N = false /\ (c =? 43)%N = false.
Proof.
  unfold is_digit, is_space. intros [H1 H2]%andb_true_iff.
  apply N.leb_le in H1, H2.
  split_and!; [|apply N.eqb_neq; lia|apply N.eqb_neq; lia].
  repeat (apply orb_false_iff; split); try (apply N.eqb_neq; lia).
  apply andb_false_iff. left. apply N.leb_gt. lia.
Qed.

(** An integer that a double holds exactly is not rounded. *)
Lemma to_number_small (z : Z) : (Z.abs z < 2 ^ 53)%Z -> to_number z = Num z.
Proof.
  intros Hz. unfold to_number.
  assert (Z.log2 (Z.abs z) - 52 <= 0)%Z as He.
  { destruct (Z.eq_dec (Z.abs z) 0%Z) as [->|Hnz]; [done|].
    assert (Z.log2 (Z.abs z) < 53)%Z; [|lia].
    apply Z.log2_lt_pow2; lia. }
  apply Z.leb_le in He. rewrite He.
  assert ((2 ^ 1024 <=? Z.abs z)%Z = false) as ->.
  { apply Z.leb_gt. eapply Z.lt_trans; [exact Hz|]. by apply Z.pow_lt_mono_r. }
  f_equal. lia.
Qed.

Lemma parseInt_rendered (ws : jsstring) (z : Z) (rest : jsstring) :
  Forall (fun c => is_space c = true) ws ->
  (Z.abs z < 2 ^ 53)%Z ->
  (forall c, head rest = Some c -> is_digit c = false) ->
  parseInt (ws ++ of_Z z ++ rest) = Num z.
Proof.
  intros Hws Hz Hrest. unfold parseInt.
  rewrite drop_spaces_app_spaces by done. unfold of_Z.
  destruct (Z.ltb_spec z 0%Z) as [Hneg|Hpos].
  - destruct (of_N_value (Z.to_N (- z))) as (Hne & Hdig & Hval).
    change (drop_spaces ((45%N :: ?s) ++ rest)) with (45%N :: s ++ rest).
    cbv beta iota. rewrite N.eqb_refl.
    rewrite digits_prefix_app by done.
    destruct (of_N (Z.to_N (- z))) as [|d ds] eqn:E; [done|].
    rewrite Hval, <- (to_number_small z Hz). f_equal. lia.
  - destruct (of_N_value (Z.to_N z)) as (Hne & Hdig & Hval).
    destruct (of_N (Z.to_N z)) as [|d ds] eqn:E; [done|].
    pose proof (Forall_inv Hdig) as Hd. cbv beta in Hd.
    destruct (digit_not_space d Hd) as (Hs & H45 & H43).
    cbn [app drop_spaces]. rewrite Hs. cbv beta iota. rewrite H45, H43.
    change (d :: ds ++ rest) with ((d :: ds) ++ rest).
    rewrite digits_prefix_app by done.
    rewrite Hval, <- (to_number_small z Hz). f_equal. lia.
Qed.

(** X14: [parseInt] reads back what the conversion of a number to a string
    writes: for an integer that a double holds exactly, the decimal
    rendering, after any white space and before any text that does not
    begin with a digit, parses to that integer.  Without a digit there is
    no number: white space alone, and the empty string among it, gives
    NaN. *)
Theorem parseInt_of_Z :
  (forall ws z rest,
      Forall (fun c => is_space c = true) ws ->
      (Z.abs z < 2 ^ 53)%Z ->
      (forall c, head rest = Some c -> is_digit c = false) ->
      parseInt (ws ++ of_Z z ++ rest) = Num z)
  /\ (forall ws, Forall (fun c => is_space c = true) ws -> parseInt ws = NaN).
Proof.
  split; [apply parseInt_rendered|].
  intros ws Hws. unfold parseInt.
  rewrite <- (app_nil_r ws), drop_spaces_app_spaces by done. done.
Qed.

(** The model of [parseInt] on inputs of the kinds the language
    specification describes. *)
Example parseInt_fraction : parseInt (lit "12.5") = Num 12.
Proof. by vm_compute. Qed.

Example parseInt_sign_and_rest : parseInt (lit "  -7abc") = Num (-7).
Proof. by vm_compute. Qed.

Example parseInt_plus : parseInt (lit "+42") = Num 42.
Proof. by vm_compute. Qed.

Example parseInt_hex_prefix : parseInt (lit "0x10") = Num 0.
Proof. by vm_compute. Qed.

Example parseInt_no_digit : parseInt (lit "-") = NaN /\ parseInt (lit "abc") = NaN.
Proof. by vm_compute. Qed.

Example parseInt_rounds :
  parseInt (lit "9007199254740993") = Num 9007199254740992
  /\ parseInt (lit "9007199254740995") = Num 9007199254740996.
Proof. by vm_compute. Qed.

(** X15: what the handlers of the two dialogs let pass.  The Download
    button calls [downloadNovel] exactly when the start and the end parse
    to integers with 1 <= start <= end <= number of links and the delay
    parses to a number that is at least 1000, which an infinite delay is;
    the range is tested first.  The Continue button goes on exactly when
    the number of pages parses to a number that is at least 1, which an
    infinite one is as well. *)
Theorem dialog_validation (len : nat)
    (startValue endValue delayValue pagesValue : jsstring) :
  let range_ok :=
    exists x y,
      parseInt startValue = Num x /\ parseInt endValue = Num y
      /\ valid_range len x y in
  match downloadButton_onclick len startValue endValue delayValue with
  | Download startEpisode endEpisode delay =>
      startEpisode = parseInt startValue /\ endEpisode = parseInt endValue
      /\ delay = parseInt delayValue /\ range_ok /\ valid_delay delay
  | InvalidRange => ~ range_ok
  | InvalidDelay => range_ok /\ ~ valid_delay (parseInt delayValue)
  end
  /\ match continueButton_onclick pagesValue with
     | Some totalPages =>
         totalPages = parseInt pagesValue
         /\ (totalPages = Infinity false
             \/ exists z, totalPages = Num z /\ (1 <= z)%Z)
     | None =>
         parseInt pagesValue = NaN \/ parseInt pagesValue = Infinity true
         \/ exists z, parseInt pagesValue = Num z /\ (z < 1)%Z
     end.
Proof.
  intros range_ok. subst range_ok. split.
  - unfold downloadButton_onclick, valid_delay.
    destruct (parseInt startValue) as [|[|]|x];
      destruct (parseInt endValue) as [|[|]|y];
      destruct (parseInt delayValue) as [|[|]|z];
      cbn [isNaN lt orb];
      repeat match goal with
             | |- context [(?a <? ?b)%Z] =>
                 destruct (Z.ltb_spec a b); cbn [orb]
             end;
      try (intros (x' & y' & Hx & Hy & Hr); unfold valid_range in Hr;
           simplify_eq; lia);
      try (split;
           [eexists _, _; split_and!; [done|done|unfold valid_range; lia]
           |intros [?|(z' & ? & ?)]; simplify_eq; lia]);
      (split_and!; try done;
       [eexists _, _; split_and!; [done|done|unfold valid_range; lia]
       |(by left) || (right; eexists; split; [done|lia])]).
  - unfold continueButton_onclick.
    destruct (parseInt pagesValue) as [|[|]|z]; cbn [isNaN lt orb].
    + by left.
    + right. by left.
    + split; [done|by left].
    + destruct (Z.ltb_spec z 1%Z).
      * right. right. by exists z.
      * split; [done|]. right. by exists z.
Qed.

End NumberFacts.

(** ** The crawler *)

Module CrawlerFacts.
Import Orchestrator Completion Crawler NumberFacts.

(** *** The address of the list *)

Lemma currentUrl_cons (c : N) (s : jsstring) :
  currentUrl (c :: s)
  = if (c =? QUESTION_MARK)%N then [] else c :: currentUrl s.
Proof.
  unfold currentUrl, split, QUESTION_MARK.
  change (lit "?") with [63%N]. cbn [split_go starts_with].
  rewrite (N.eqb_sym c 63). destruct (63 =? c)%N; [done|].
  cbn [andb]. by destruct (split_go [63%N] 0 s).
Qed.

Lemma currentUrl_no_query (href : jsstring) :
  (QUESTION_MARK ∉ currentUrl href) /\ (currentUrl href `prefix_of` href).
Proof.
  induction href as [|c s [IH1 IH2]].
  - split; [by apply not_elem_of_nil|done].
  - rewrite currentUrl_cons. destruct (c =? QUESTION_MARK)%N eqn:E.
    + split; [by apply not_elem_of_nil|apply prefix_nil].
    + apply N.eqb_neq in E. split; [|by apply prefix_cons].
      apply not_elem_of_cons. split; [congruence|done].
Qed.

Lemma currentUrl_before (pre post : jsstring) :
  QUESTION_MARK ∉ pre ->
  currentUrl (pre ++ QUESTION_MARK :: post) = pre /\ currentUrl pre = pre.
Proof.
  induction pre as [|c pre IH]; intros Hpre.
  - split; [|done]. cbn [app]. by rewrite currentUrl_cons, N.eqb_refl.
  - apply not_elem_of_cons in Hpre as [Hc Hpre].
    destruct (IH Hpre) as [IH1 IH2].
    cbn [app]. rewrite !currentUrl_cons.
    destruct (c =? QUESTION_MARK)%N eqn:E; [by apply N.eqb_eq in E|].
    by rewrite IH1, IH2.
Qed.

Lemma starts_with_currentUrl (p href : jsstring) :
  QUESTION_MARK ∉ p ->
  starts_with p (currentUrl href) = starts_with p href.
Proof.
  revert p. induction href as [|c s IH]; intros p Hp; [done|].
  rewrite currentUrl_cons. destruct p as [|a p]; [by destruct (c =? _)%N|].
  apply not_elem_of_cons in Hp as [Ha Hp].
  destruct (c =? QUESTION_MARK)%N eqn:E; cbn [starts_with].
  - apply N.eqb_eq in E. subst c.
    assert ((a =? QUESTION_MARK)%N = false) as ->; [|done].
    apply N.eqb_neq. congruence.
  - by rewrite IH.
Qed.

(** X16: the address the crawler works with is the address of the page up
    to its first question mark: it holds no question mark and begins the
    address; text after a question mark is dropped and an address without
    one is kept whole; and the test that the page is a page of the site
    gives the same answer on the cut address as on the full one.  The
    address of a list page is made of it, "?spage=" and the page number. *)
Theorem currentUrl_query :
  (forall href,
      (QUESTION_MARK ∉ currentUrl href)
      /\ (currentUrl href `prefix_of` href))
  /\ (forall pre post,
        QUESTION_MARK ∉ pre ->
        currentUrl (pre ++ QUESTION_MARK :: post) = pre
        /\ currentUrl pre = pre)
  /\ (forall href,
        starts_with novelPageRule (currentUrl href)
        = starts_with novelPageRule href)
  /\ (forall href page,
        currentUrl (nextPageUrl (currentUrl href) page) = currentUrl href).
Proof.
  split_and!.
  - apply currentUrl_no_query.
  - apply currentUrl_before.
  - intros href. apply starts_with_currentUrl.
    apply (bool_decide_unpack _). by vm_compute.
  - intros href page. unfold nextPageUrl.
    change (lit "?spage=") with (QUESTION_MARK :: lit "spage=").
    apply currentUrl_before, currentUrl_no_query.
Qed.

(** *** The loop over the pages *)

Section Crawl.
Context (pages : Z -> jsstring -> PageReply) (url : jsstring).

Lemma crawl_loop_all (n : nat) (page : Z) (all : Links) (evs : list Event) :
  Forall (fun p => page_error pages url p = None) (seqZ page (Z.of_nat n)) ->
  crawl_loop pages url n page all evs
  = (Ret (all ++ (seqZ page (Z.of_nat n) ≫= page_links pages url)),
     evs ++ page_events url (seqZ page (Z.of_nat n))).
Proof.
  revert page all evs. induction n as [|n IH]; intros page all evs Hok.
  - change (seqZ page (Z.of_nat 0)) with (@nil Z).
    cbn [crawl_loop]. unfold page_events. cbn [mbind list_bind].
    by rewrite !app_nil_r.
  - rewrite seqZ_cons in Hok |- * by lia.
    replace (Z.pred (Z.of_nat (S n))) with (Z.of_nat n) in Hok |- * by lia.
    apply Forall_cons in Hok as [Hp Hok].
    cbn [crawl_loop]. unfold page_events, page_error, page_links in *.
    cbn [mbind list_bind].
    destruct (fetchPage (pages page (nextPageUrl url page))) as [doc|] eqn:F;
      [|done].
    replace (page + 1)%Z with (Z.succ page) by lia.
    rewrite IH by done. unfold page_events.
    destruct doc as [links|]; by rewrite <- !app_assoc.
Qed.

Lemma crawl_loop_throw (n : nat) (page : Z) (all : Links) (evs : list Event)
    (k : nat) (message : jsstring) :
  k < n ->
  Forall (fun p => page_error pages url p = None) (seqZ page (Z.of_nat k)) ->
  page_error pages url (page + Z.of_nat k) = Some message ->
  crawl_loop pages url n page all evs
  = (Throw message,
     evs ++ page_events url (seqZ page (Z.of_nat k))
     ++ [EvFetch (nextPageUrl url (page + Z.of_nat k))]).
Proof.
  revert page all evs k. induction n as [|n IH]; intros page all evs k Hk Hok He;
    [lia|].
  cbn [crawl_loop]. destruct k as [|k].
  - change (seqZ page (Z.of_nat 0)) with (@nil Z).
    replace (page + Z.of_nat 0)%Z with page in * by lia.
    unfold page_error in He.
    destruct (fetchPage (pages page (nextPageUrl url page))); [done|].
    by injection He as ->.
  - rewrite seqZ_cons in Hok |- * by lia.
    replace (Z.pred (Z.of_nat (S k))) with (Z.of_nat k) in Hok |- * by lia.
    apply Forall_cons in Hok as [Hp Hok].
    unfold page_error in Hp.
    destruct (fetchPage (pages page (nextPageUrl url page))) as [doc|];
      [|done].
    replace (page + 1)%Z with (Z.succ page) by lia.
    rewrite (IH _ _ _ k); [|lia|done|].
    + replace (Z.succ page + Z.of_nat k)%Z with (page + Z.of_nat (S k))%Z
        by lia.
      unfold page_events. cbn [mbind list_bind].
      by rewrite <- !app_assoc.
    + by replace (Z.succ page + Z.of_nat k)%Z with (page + Z.of_nat (S k))%Z
        by lia.
Qed.

End Crawl.

(** X17: the crawler asks for the pages 1 to [totalPages] in order, each at
    the address of the list followed by "?spage=" and the page number, and
    waits 500 ms after each.  When no request ends in an error, the list
    of links is what the pages contribute, in page order, a page whose
    response is not ok contributing nothing.  When the request of a page
    ends in an error, the pages after it are not asked for and no list is
    produced. *)
Theorem crawl_pages (pages : Z -> jsstring -> PageReply) (url : jsstring)
    (totalPages : Z) :
  (Forall (fun p => page_error pages url p = None) (seqZ 1 totalPages) ->
   crawl pages url totalPages
   = (Ret (seqZ 1 totalPages ≫= page_links pages url),
      page_events url (seqZ 1 totalPages)))
  /\ (forall page message,
        (1 <= page <= totalPages)%Z ->
        Forall (fun p => page_error pages url p = None) (seqZ 1 (page - 1)) ->
        page_error pages url page = Some message ->
        crawl pages url totalPages
        = (Throw message,
           page_events url (seqZ 1 (page - 1))
           ++ [EvFetch (nextPageUrl url page)])).
Proof.
  unfold crawl. split.
  - intros Hok. destruct (Z.le_gt_cases 0 totalPages) as [Hp|Hn].
    + pose proof (crawl_loop_all pages url (Z.to_nat totalPages) 1 [] []) as H.
      rewrite Z2Nat.id in H by done. by apply H.
    + rewrite seqZ_nil by lia. by replace (Z.to_nat totalPages) with 0 by lia.
  - intros page message Hp Hok He.
    rewrite (crawl_loop_throw pages url _ _ _ _ (Z.to_nat (page - 1)) message).
    + rewrite Z2Nat.id by lia. by replace (1 + (page - 1))%Z with page by lia.
    + lia.
    + by rewrite Z2Nat.id by lia.
    + rewrite Z2Nat.id by lia. by replace (1 + (page - 1))%Z with page by lia.
Qed.

(** *** The choice of the chapters *)

Lemma select_down_eq (links : Links) (i : nat) (e : number) :
  select_down links i e
  = if ge (Num (Z.of_nat i)) e then
      match links !! i with
      | Some (Some link) =>
          rest ← match i with
                 | O => if ge (Num (-1)) e then None else Some []
                 | S i' => select_down links i' e
                 end;
          Some (if starts_with novelPageRule link then link :: rest else rest)
      | _ => None
      end
    else Some [].
Proof. by destruct i. Qed.

Lemma hrefs_app (a b : Links) :
  hrefs (a ++ b) = la ← hrefs a; lb ← hrefs b; Some (la ++ lb).
Proof.
  induction a as [|[l|] a IH]; cbn [app hrefs].
  - simpl. by destruct (hrefs b).
  - rewrite IH. destruct (hrefs a); simpl; [|done]. by destruct (hrefs b).
  - done.
Qed.

Lemma hrefs_fmap (us : list jsstring) : hrefs (Some <$> us) = Some us.
Proof.
  induction us as [|u us IH]; [done|].
  rewrite fmap_cons. cbn [hrefs]. by rewrite IH.
Qed.

Lemma select_down_below (links : Links) (i e : nat) :
  i < e -> select_down links i (Num (Z.of_nat e)) = Some [].
Proof.
  intros H. rewrite select_down_eq. cbn [ge lt].
  by rewrite (proj2 (Z.ltb_lt _ _)) by lia.
Qed.

(** The turns from the last index of a part of the list down to its
    first. *)
Lemma select_down_slice (mid pre post : Links) :
  mid <> [] ->
  select_down (pre ++ mid ++ post) (length pre + length mid - 1)
              (Num (Z.of_nat (length pre)))
  = ls ← hrefs mid; Some (List.filter on_site (reverse ls)).
Proof.
  revert post. induction mid as [|x mid IH] using rev_ind; intros post Hne;
    [done|]. clear Hne.
  rewrite select_down_eq. cbn [ge lt].
  rewrite length_app. cbn [length].
  rewrite (proj2 (Z.ltb_ge _ _)) by lia. cbn [negb].
  replace (length pre + (length mid + 1) - 1) with (length (pre ++ mid))
    by (rewrite length_app; lia).
  replace (pre ++ (mid ++ [x]) ++ post) with ((pre ++ mid) ++ x :: post)
    by (by rewrite <- !app_assoc).
  rewrite list_lookup_middle by done.
  rewrite hrefs_app. destruct x as [link|];
    [|by destruct (hrefs mid)].
  replace ((pre ++ mid) ++ Some link :: post)
    with (pre ++ mid ++ [Some link] ++ post) by (by rewrite <- !app_assoc).
  assert (match length (pre ++ mid) with
          | O => if negb (-1 <? Z.of_nat (length pre))%Z
                 then None else Some []
          | S i' => select_down (pre ++ mid ++ [Some link] ++ post) i'
                      (Num (Z.of_nat (length pre)))
          end
          = ls ← hrefs mid; Some (List.filter on_site (reverse ls))) as ->.
  { destruct mid as [|m mid].
    - rewrite app_nil_r. destruct (length pre) as [|k] eqn:E; [done|].
      apply select_down_below. lia.
    - rewrite length_app. cbn [length].
      replace (length pre + S (length mid)) with (S (length pre + length mid))
        by lia.
      rewrite <- (IH ([Some link] ++ post)) by done.
      f_equal. cbn [length]. lia. }
  destruct (hrefs mid) as [la|]; [|done].
  cbn [hrefs fmap option_fmap option_map mbind option_bind].
  rewrite reverse_app. cbn [reverse rev_append app List.filter].
  done.
Qed.

Lemma chapters_split {A : Type} (links : list A) (x y : nat) :
  1 <= x -> x <= y -> y <= length links ->
  links = take (length links - y) links ++ chapters links x y
          ++ drop (y + 1 - x) (drop (length links - y) links)
  /\ length (take (length links - y) links) = length links - y
  /\ length (chapters links x y) = y + 1 - x.
Proof.
  intros Hx Hxy Hy. unfold chapters. split_and!.
  - by rewrite !take_drop.
  - rewrite length_take. lia.
  - rewrite length_take, length_drop. lia.
Qed.

Lemma urlsToDownload_slice (episodeLinks : Links) (x y : nat) :
  1 <= x -> x <= y -> y <= length episodeLinks ->
  (Z.of_nat (length episodeLinks) < 2 ^ 53)%Z ->
  urlsToDownload episodeLinks (Num (Z.of_nat x)) (Num (Z.of_nat y))
  = ls ← hrefs (chapters episodeLinks x y);
    Some (List.filter on_site (reverse ls)).
Proof.
  intros Hx Hxy Hy Hlen. unfold urlsToDownload. cbn [sub].
  rewrite !to_number_small by lia. cbn [ge lt].
  rewrite (proj2 (Z.ltb_ge _ _)) by lia. cbn [negb].
  rewrite (proj2 (Z.leb_le _ _)) by lia.
  destruct (chapters_split episodeLinks x y Hx Hxy Hy) as (Hl & Hpre & Hmid).
  pose proof (select_down_slice (chapters episodeLinks x y)
                (take (length episodeLinks - y) episodeLinks)
                (drop (y + 1 - x) (drop (length episodeLinks - y) episodeLinks)))
    as H.
  rewrite <- Hl, Hpre, Hmid in H.
  replace (Z.to_nat (Z.of_nat (length episodeLinks) - Z.of_nat x))
    with (length episodeLinks - y + (y + 1 - x) - 1) by lia.
  replace (Z.of_nat (length episodeLinks) - Z.of_nat y)%Z
    with (Z.of_nat (length episodeLinks - y)) by lia.
  apply H. intros E. rewrite E in Hmid. simpl in Hmid. lia.
Qed.

(** X18: for a range the dialog accepts, the job gets the links of the
    chapters of the range, the chapter numbered [e] being the [e]-th link
    from the end of the list: the links are taken from the one of the
    start chapter to the one of the end chapter, which is the reverse of
    their order in the list, and those that do not begin with
    "https://booktoki" are left out.  When the [href] of a link of the
    range is missing the handler throws, and no job starts. *)
Theorem urlsToDownload_range (episodeLinks : Links) (x y : nat) :
  1 <= x -> x <= y -> y <= length episodeLinks ->
  (Z.of_nat (length episodeLinks) < 2 ^ 53)%Z ->
  urlsToDownload episodeLinks (Num (Z.of_nat x)) (Num (Z.of_nat y))
  = match hrefs (chapters episodeLinks x y) with
    | Some links => Some (List.filter on_site (reverse links))
    | None => None
    end.
Proof.
  intros Hx Hxy Hy Hlen. rewrite urlsToDownload_slice by done.
  by destruct (hrefs _).
Qed.

(** Chapters 2 to 3 of a list of four links, one of them foreign. *)
Lemma urlsToDownload_range_witness :
  urlsToDownload
    [Some (lit "https://booktoki.example/4"); Some (lit "https://other/3");
     Some (lit "https://booktoki.example/2"); None] (Num 2) (Num 3)
  = Some [lit "https://booktoki.example/2"].
Proof.
  apply (urlsToDownload_range
           [Some (lit "https://booktoki.example/4"); Some (lit "https://other/3");
            Some (lit "https://booktoki.example/2"); None] 2 3);
    [lia|lia|simpl; lia|simpl; lia].
Defined.

Lemma select_down_guard (links : Links) (i : nat) (e : number)
    (urls : list jsstring) :
  select_down links i e = Some urls ->
  Forall (fun u => on_site u = true /\ Some u ∈ links) urls
  /\ length urls <= S i /\ length urls <= length links.
Proof.
  revert urls. induction i as [|i IH]; intros urls; rewrite select_down_eq;
    (destruct (ge _ e);
     [|intros H; apply (inj Some) in H as <-;
       split_and!; [done|simpl; lia..]]);
    destruct (links !! _) as [[link|]|] eqn:L; try done;
    pose proof (lookup_lt_Some _ _ _ L) as Hlt;
    apply list_elem_of_lookup_2 in L.
  - destruct (ge (Num (-1)) e); [done|]. cbn [mbind option_bind].
    destruct (starts_with novelPageRule link) eqn:S;
      intros H; apply (inj Some) in H as <-.
    + split_and!; [|simpl; lia..]. apply Forall_cons. by split.
    + split_and!; [done|simpl; lia..].
  - destruct (select_down links i e) as [rest|]; [|done].
    destruct (IH rest eq_refl) as (IH1 & IH2 & IH3).
    cbn [mbind option_bind].
    destruct (starts_with novelPageRule link) eqn:S;
      intros H; apply (inj Some) in H as <-.
    + split_and!; [|simpl; lia..]. apply Forall_cons. by split.
    + split_and!; [done|lia..].
Qed.

(** X19: whatever numbers the handler of a save option is given, the job
    it starts has only URLs that begin with "https://booktoki" and that are
    [href] attributes read from the list pages, and no more URLs than the
    list has links. *)
Theorem urlsToDownload_guard (episodeLinks : Links)
    (startEpisode endEpisode : number) (urls : list jsstring) :
  urlsToDownload episodeLinks startEpisode endEpisode = Some urls ->
  Forall (fun u => starts_with novelPageRule u = true
                   /\ Some u ∈ episodeLinks) urls
  /\ length urls <= length episodeLinks.
Proof.
  unfold urlsToDownload.
  destruct (ge _ _);
    [|intros H; apply (inj Some) in H as <-; split; [done|simpl; lia]].
  destruct (sub _ startEpisode) as [| |i]; try done.
  destruct (0 <=? i)%Z; [|done].
  intros H. by apply select_down_guard in H as (? & _ & ?).
Qed.

Lemma urlsToDownload_guard_witness :
  Forall (fun u => starts_with novelPageRule u = true
                   /\ Some u ∈ [Some (lit "https://booktoki.example/2");
                                Some (lit "https://other/1")])
         [lit "https://booktoki.example/2"]
  /\ length [lit "https://booktoki.example/2"] <= 2.
Proof.
  apply (urlsToDownload_guard
           [Some (lit "https://booktoki.example/2"); Some (lit "https://other/1")]
           (Num 1) (Num 2)).
  reflexivity.
Defined.

Lemma filter_all {A : Type} (f : A -> bool) (l : list A) :
  Forall (fun a => f a = true) l -> List.filter f l = l.
Proof. induction 1 as [|a l Ha _ IH]; simpl; [done|]. by rewrite Ha, IH. Qed.

(** X20: in a job started from the range dialog on a list whose links all
    begin with "https://booktoki", there is one URL for each chapter of the
    range, and turn [i] fetches the link of the chapter numbered
    [start + i] while the number worked out for the status line at that
    turn is [end - i]: the status line counts down from the end of the
    range while the job goes up from its start. *)
Theorem display_counts_down (links : list jsstring) (x y : nat) :
  1 <= x -> x <= y -> y <= length links ->
  (Z.of_nat (length links) < 2 ^ 53)%Z ->
  Forall (fun u => on_site u = true) links ->
  exists urls,
    urlsToDownload (Some <$> links) (Num (Z.of_nat x)) (Num (Z.of_nat y))
    = Some urls
    /\ length urls = y + 1 - x
    /\ forall i,
         i < length urls ->
         urls !! i = links !! (length links - (x + i))
         /\ displayEpisodeNumber (length urls) i
              (Some (Z.of_nat x)) (Some (Z.of_nat y))
            = inl (Z.of_nat y - Z.of_nat i)%Z.
Proof.
  intros Hx Hxy Hy Hlen Hsite.
  rewrite urlsToDownload_slice by (by rewrite ?length_fmap).
  unfold chapters. rewrite length_fmap, <- fmap_drop, <- fmap_take, hrefs_fmap.
  cbn [mbind option_bind].
  rewrite filter_all
    by (by apply Forall_reverse, Forall_take, Forall_drop).
  eexists. split; [done|].
  assert (length (take (y + 1 - x) (drop (length links - y) links))
          = y + 1 - x) as Hn by (rewrite length_take, length_drop; lia).
  rewrite length_reverse, Hn. split; [done|]. intros i Hi. split.
  - rewrite reverse_lookup by lia. rewrite Hn.
    rewrite lookup_take_lt by lia. rewrite lookup_drop. f_equal. lia.
  - unfold displayEpisodeNumber. f_equal. lia.
Qed.

(** The whole of a list of three chapters: the first turn fetches
    chapter 1, the last link of the list, and shows the number 3. *)
Lemma display_counts_down_witness :
  exists urls,
    urlsToDownload
      (Some <$> [lit "https://booktoki.example/3";
                 lit "https://booktoki.example/2";
                 lit "https://booktoki.example/1"]) (Num 1) (Num 3)
    = Some urls
    /\ urls !! 0 = Some (lit "https://booktoki.example/1")
    /\ displayEpisodeNumber (length urls) 0 (Some 1%Z) (Some 3%Z) = inl 3%Z.
Proof.
  destruct (display_counts_down
              [lit "https://booktoki.example/3";
               lit "https://booktoki.example/2";
               lit "https://booktoki.example/1"] 1 3)
    as (urls & Hu & Hn & Hi); [lia|lia|simpl; lia|simpl; lia| |].
  - by repeat constructor.
  - exists urls. destruct (Hi 0) as [H1 H2]; [rewrite Hn; lia|].
    by split_and!.
Defined.

(** X21: the range dialog as it opens, with 1 in the start field, the
    number of links in the end field and 5000 in the delay field, passes
    the tests of the Download button, and the job then gets every link of
    the list that begins with "https://booktoki", from the last link of
    the list to the first; it does not start when an [href] is missing. *)
Theorem default_range_selects_all (episodeLinks : Links) :
  episodeLinks <> [] ->
  (Z.of_nat (length episodeLinks) < 2 ^ 53)%Z ->
  let len := length episodeLinks in
  downloadButton_onclick len (lit "1") (of_Z (Z.of_nat len)) (lit "5000")
  = Download (Num 1) (Num (Z.of_nat len)) (Num 5000)
  /\ urlsToDownload episodeLinks (Num 1) (Num (Z.of_nat len))
     = match hrefs episodeLinks with
       | Some links => Some (List.filter on_site (reverse links))
       | None => None
       end.
Proof.
  intros Hne Hlen len.
  assert (1 <= len) as Hpos by (subst len; destruct episodeLinks; [done|simpl; lia]).
  split.
  - unfold downloadButton_onclick.
    pose proof (parseInt_rendered [] (Z.of_nat len) [] ltac:(done) ltac:(lia)
                  ltac:(done)) as Hp.
    rewrite app_nil_l, app_nil_r in Hp. rewrite Hp.
    change (parseInt (lit "1")) with (Num 1).
    change (parseInt (lit "5000")) with (Num 5000).
    cbn [isNaN lt orb].
    rewrite (proj2 (Z.ltb_ge (Z.of_nat len) 1)) by lia.
    by rewrite !Z.ltb_irrefl.
  - change (Num 1) with (Num (Z.of_nat 1)).
    rewrite urlsToDownload_slice by (done || lia).
    unfold chapters. subst len.
    replace (length episodeLinks + 1 - 1) with (length episodeLinks) by lia.
    rewrite Nat.sub_diag, drop_0, firstn_all.
    by destruct (hrefs episodeLinks).
Qed.

Lemma default_range_selects_all_witness :
  downloadButton_onclick 2 (lit "1") (lit "2") (lit "5000")
  = Download (Num 1) (Num 2) (Num 5000)
  /\ urlsToDownload
       [Some (lit "https://booktoki.example/2");
        Some (lit "https://booktoki.example/1")] (Num 1) (Num 2)
     = Some [lit "https://booktoki.example/1";
             lit "https://booktoki.example/2"].
Proof.
  apply (default_range_selects_all
           [Some (lit "https://booktoki.example/2");
            Some (lit "https://booktoki.example/1")]); [done|simpl; lia].
Defined.

End CrawlerFacts.

(** ** The embedding on the examples of the specification *)

Module Examples.
Import JsNumber Progress Orchestrator.

Example unescape_entities :
  unescapeHTML (lit "A &amp; B &lt;tag&gt;") = lit "A & B <tag>".
Proof. by vm_compute. Qed.

Example sanitize_title :
  sanitizeFilename (lit "a/b\c?d") = lit "a_b_c_d".
Proof. by vm_compute. Qed.

Example clean_markup :
  cleanText (lit "<div><P>a  b</P><br   /><IMG src=x>&amp;lt;<x y></div>")
  = lit "a b" ++ [LF; LF] ++ lit "[Image Skipped]&lt;".
Proof. by vm_compute. Qed.

Example split_on_break :
  split (lit "<br>") (lit "ab<br>cd<br>") = [lit "ab"; lit "cd"; []].
Proof. by vm_compute. Qed.

Example format_times :
  formatTime 59001%float = Some (lit "60s")
  /\ formatTime 3599999.5%float = Some (lit "59m 59s")
  /\ formatTime 36000000%float = Some (lit "10h 0m")
  /\ formatTime (-500)%float = Some (lit "0s").
Proof. by vm_compute. Qed.

Example one_third_done :
  let stats := fst (update (createProgressTracker 3 1000) 6000 1) in
  progress stats = Some (lit "33.3")
  /\ remaining stats = Some (lit "10s")
  /\ elapsed stats = Some (lit "5s")
  /\ speed stats = Some (lit "0.20").
Proof. by vm_compute. Qed.

(** Three items: a success, a block and a server error. *)
Example three_items :
  match fst (processDownloadCore scenario_world (lit "Novel") demo_urls 5000
               false None) with
  | Completed st reportName report archive =>
      completedEpisodes st = 1
      /\ skippedChapters st
         = [Chapter (lit "https://booktoki.example/novel/2")
                    (lit "CAPTCHA (403)")]
      /\ incompleteChapters st
         = [Chapter (lit "https://booktoki.example/novel/3")
                    (lit "Network Error (500)")]
      /\ novelText st
         = novelText_header (lit "Novel") ++ [LF; LF]
           ++ lit "--- Chapter 1 ---" ++ [LF; LF] ++ lit "Hello"
      /\ reportName = lit "Novel_report.txt"
      /\ parseReportFile report
         = [lit "https://booktoki.example/novel/2";
            lit "https://booktoki.example/novel/3"]
  | _ => False
  end.
Proof. by vm_compute. Qed.

End Examples.
